(** * Kolibri ingest (v7): timestamp resolution, video fallback chain and manifest

    A shallow embedding of the per-file task and the manifest post-processing of
    the v7 ingest script (the "ingest-reels-posts" variant):

    - [plausible], [tsFromFolder], [extractNumericTokens], [buildMetaIndex];
    - the per-file resolution of the timestamp and caption;
    - [processImage], [tryMakePoster], [processVideo] over an explicit world
      (the files on disk, the calls made to the external tools, the skip log);
    - the de-duplication and the sort that produce [media.json].

    JavaScript numbers are modelled as integers (milliseconds) extended with the
    non-finite values; strings are byte strings; [Map] is [gmap], [Set] is
    [gset].  The external tools (ffmpeg, ffprobe, sharp) are oracles. *)

From Stdlib Require Import ZArith Bool Ascii String Lia Permutation Sorted.
From stdpp Require Import base strings gmap list.

Local Open Scope Z_scope.

(* ===================================================================== *)
(** ** JavaScript numbers and nullable values *)
(* ===================================================================== *)

Module JS.

(** A JavaScript number: a finite value (here always a whole number of
    milliseconds or a difference of two), or one of the non-finite ones. *)
Inductive number : Type :=
| Finite (z : Z)
| Infinity
| NegInfinity
| NaN.

(** [null] is [None]. *)
Definition nullable := option number.

(** [a === b] on numbers: [NaN] equals nothing. *)
Definition strictEq (a b : number) : bool :=
  match a, b with
  | Finite x, Finite y => x =? y
  | Infinity, Infinity | NegInfinity, NegInfinity => true
  | _, _ => false
  end.

(** [Number.isFinite(t)]: no coercion, [null] is not finite. *)
Definition isFinite (t : nullable) : bool :=
  match t with
  | Some (Finite _) => true
  | _ => false
  end.

(** [a ?? b] *)
Definition coalesce {A} (a : option A) (b : option A) : option A :=
  match a with
  | Some x => Some x
  | None => b
  end.

(** [x || 0] on a number: [0] and [NaN] are falsy. *)
Definition orZero (x : number) : number :=
  match x with
  | Finite z => if z =? 0 then Finite 0 else Finite z
  | NaN => Finite 0
  | other => other
  end.

(** [a - b] *)
Definition sub (a b : number) : number :=
  match a, b with
  | NaN, _ | _, NaN => NaN
  | Finite x, Finite y => Finite (x - y)
  | Infinity, Infinity | NegInfinity, NegInfinity => NaN
  | Infinity, _ | _, NegInfinity => Infinity
  | NegInfinity, _ | _, Infinity => NegInfinity
  end.

(** [v > 0] *)
Definition positive (v : number) : bool :=
  match v with
  | Finite z => 0 <? z
  | Infinity => true
  | _ => false
  end.

End JS.
Export JS.

(* ===================================================================== *)
(** ** Dates: [Date.UTC] *)
(* ===================================================================== *)

Module DateUtc.

Definition msPerDay : Z := 86400000.

(** ECMAScript [DayFromYear]. *)
Definition DayFromYear (y : Z) : Z :=
  365 * (y - 1970) + (y - 1969) / 4 - (y - 1901) / 100 + (y - 1601) / 400.

Definition InLeapYear (y : Z) : bool :=
  if negb (y mod 4 =? 0) then false
  else if negb (y mod 100 =? 0) then true
  else (y mod 400 =? 0).

(** Day within the year of the first day of month [mn] (0 = January). *)
Definition monthStart (leap : bool) (mn : Z) : Z :=
  let l := if leap then 1 else 0 in
  match mn with
  | 0 => 0
  | 1 => 31
  | 2 => 59 + l
  | 3 => 90 + l
  | 4 => 120 + l
  | 5 => 151 + l
  | 6 => 181 + l
  | 7 => 212 + l
  | 8 => 243 + l
  | 9 => 273 + l
  | 10 => 304 + l
  | _ => 334 + l
  end.

(** ECMAScript [MakeDay]: months outside 0..11 carry into the year. *)
Definition MakeDay (year month date : Z) : Z :=
  let ym := year + month / 12 in
  let mn := month mod 12 in
  DayFromYear ym + monthStart (InLeapYear ym) mn + date - 1.

Definition MakeTime (h mi s ms : Z) : Z :=
  h * 3600000 + mi * 60000 + s * 1000 + ms.

Definition MakeDate (day time : Z) : Z := day * msPerDay + time.

(** [Date.UTC(y, mo, d, h, mi, s)].  A year in 0..99 means 1900 + y.  The
    result of the script's calls is far inside the range of [TimeClip]. *)
Definition UTC (y mo d h mi s : Z) : Z :=
  let yr := if (0 <=? y) && (y <=? 99) then 1900 + y else y in
  MakeDate (MakeDay yr mo d) (MakeTime h mi s 0).

(** The instant written [YYYY-MM-DDThh:00:00Z] in ISO 8601, by the usual
    count of days of the proleptic Gregorian calendar since 1970-01-01
    (month [m] in 1..12).  Independent of [UTC]; used to state what a
    folder-derived date denotes. *)
Definition daysFromCivil (y m d : Z) : Z :=
  let y' := if m <=? 2 then y - 1 else y in
  let era := y' / 400 in
  let yoe := y' - era * 400 in
  let mp := if 2 <? m then m - 3 else m + 9 in
  let doy := (153 * mp + 2) / 5 + d - 1 in
  let doe := yoe * 365 + yoe / 4 - yoe / 100 + doy in
  era * 146097 + doe - 719468.

Definition isoInstant (y m d hh : Z) : Z :=
  daysFromCivil y m d * msPerDay + hh * 3600000.

End DateUtc.

(* ===================================================================== *)
(** ** Strings: paths, extensions, digit runs *)
(* ===================================================================== *)

Module Path.

Definition isSlash (c : ascii) : bool := Ascii.eqb c "/".
Definition isDot (c : ascii) : bool := Ascii.eqb c ".".

Definition isDigit (c : ascii) : bool :=
  let n := N_of_ascii c in ((48 <=? n) && (n <=? 57))%N.

Definition digitVal (c : ascii) : Z := Z.of_N (N_of_ascii c) - 48.

Fixpoint dropWhile (p : ascii -> bool) (l : list ascii) : list ascii :=
  match l with
  | [] => []
  | c :: l' => if p c then dropWhile p l' else l
  end.

Fixpoint takeWhile (p : ascii -> bool) (l : list ascii) : list ascii :=
  match l with
  | [] => []
  | c :: l' => if p c then c :: takeWhile p l' else []
  end.

(** [path.basename(p)] (POSIX): trailing separators are ignored, the result
    is what follows the last remaining separator. *)
Definition basename (p : string) : string :=
  let r := dropWhile isSlash (rev (list_ascii_of_string p)) in
  string_of_list_ascii (rev (takeWhile (fun c => negb (isSlash c)) r)).

(** [path.extname(p)] (POSIX): from the last dot of the basename, unless
    there is none, it is the first character, or the basename is [..]. *)
Definition extname (p : string) : string :=
  let b := list_ascii_of_string (basename p) in
  let rb := rev b in
  let tail := takeWhile (fun c => negb (isDot c)) rb in
  match dropWhile (fun c => negb (isDot c)) rb with
  | [] => ""
  | _dot :: before =>
      match before with
      | [] => ""
      | _ =>
          if String.eqb (basename p) ".." then ""
          else string_of_list_ascii ("."%char :: rev tail)
      end
  end.

(** [s.toLowerCase()] on the ASCII letters. *)
Definition lowerChar (c : ascii) : ascii :=
  let n := N_of_ascii c in
  if ((65 <=? n) && (n <=? 90))%N then ascii_of_N (n + 32) else c.

Fixpoint toLowerCase (s : string) : string :=
  match s with
  | EmptyString => EmptyString
  | String c s' => String (lowerChar c) (toLowerCase s')
  end.

(** [s.replace(/\\/g, "/")] *)
Fixpoint slashes (s : string) : string :=
  match s with
  | EmptyString => EmptyString
  | String c s' => String (if Ascii.eqb c "\" then "/"%char else c) (slashes s')
  end.

(** [s] without the prefix [p], when it starts with it. *)
Fixpoint stripPrefix (p s : string) : option string :=
  match p with
  | EmptyString => Some s
  | String a p' =>
      match s with
      | EmptyString => None
      | String b s' => if Ascii.eqb a b then stripPrefix p' s' else None
      end
  end.

End Path.

(* ===================================================================== *)
(** ** Constants and small helpers of the script *)
(* ===================================================================== *)

Definition IMAGE_EXTS : list string := [".jpg"; ".jpeg"; ".png"; ".webp"].
Definition VIDEO_EXTS : list string := [".mp4"; ".mov"; ".m4v"; ".webm"].

Definition inExts (exts : list string) (e : string) : bool :=
  existsb (String.eqb e) exts.

Definition isImage (p : string) : bool :=
  inExts IMAGE_EXTS (Path.toLowerCase (Path.extname p)).
Definition isVideo (p : string) : bool :=
  inExts VIDEO_EXTS (Path.toLowerCase (Path.extname p)).

(** [MIN_TS = Date.UTC(2010,0,1)] *)
Definition MIN_TS : Z := DateUtc.UTC 2010 0 1 0 0 0.

(** [MAX_TS = NOW + 3*24*3600*1000] *)
Definition MAX_TS (NOW : Z) : Z := NOW + 3 * 24 * 3600 * 1000.

(** [plausible(t) = Number.isFinite(t) && t >= MIN_TS && t <= MAX_TS] *)
Definition plausible (NOW : Z) (t : nullable) : bool :=
  JS.isFinite t &&
  match t with
  | Some (Finite z) => (MIN_TS <=? z) && (z <=? MAX_TS NOW)
  | _ => false
  end.

(** [name.match(/\d{10,}/g) || []]: the maximal runs of decimal digits that
    are at least ten long, left to right.  [cur] is the run being read,
    reversed. *)
Definition flushRun (cur : list ascii) : list string :=
  if (10 <=? length cur)%nat then [string_of_list_ascii (rev cur)] else [].

Fixpoint digitRuns (s : string) (cur : list ascii) : list string :=
  match s with
  | EmptyString => flushRun cur
  | String c s' =>
      if Path.isDigit c then digitRuns s' (c :: cur)
      else flushRun cur ++ digitRuns s' []
  end.

Definition extractNumericTokens (name : string) : list string :=
  digitRuns name [].

(** The regular expression of [tsFromFolder],
    [/\/media\/(posts|reels)\/(20\d{2})(\d{2})\//], tried at the start of [s]:
    the groups 2 and 3 as numbers. *)
Definition folderMatchAt (s : string) : option (Z * Z) :=
  match Path.stripPrefix "/media/" s with
  | None => None
  | Some r =>
      let after :=
        match Path.stripPrefix "posts" r with
        | Some r' => Some r'
        | None => Path.stripPrefix "reels" r
        end in
      match after with
      | None => None
      | Some r1 =>
          match Path.stripPrefix "/20" r1 with
          | Some (String a (String b (String c (String d (String sl _))))) =>
              if Path.isDigit a && Path.isDigit b && Path.isDigit c
                 && Path.isDigit d && Path.isSlash sl
              then Some (2000 + 10 * Path.digitVal a + Path.digitVal b,
                         10 * Path.digitVal c + Path.digitVal d)
              else None
          | _ => None
          end
      end
  end.

(** The leftmost match in [s]. *)
Fixpoint folderMatch (s : string) : option (Z * Z) :=
  match folderMatchAt s with
  | Some ym => Some ym
  | None =>
      match s with
      | EmptyString => None
      | String _ s' => folderMatch s'
      end
  end.

(** [tsFromFolder(absPath)] *)
Definition tsFromFolder (absPath : string) : nullable :=
  match folderMatch (Path.slashes absPath) with
  | None => None
  | Some (y, m) =>
      let mo := m - 1 in
      Some (Finite (DateUtc.UTC y mo 15 12 0 0))
  end.

(* ===================================================================== *)
(** ** Metadata index *)
(* ===================================================================== *)

(** An index entry [{ ts, caption }]. *)
Record entry : Type := Entry { e_ts : nullable; e_caption : string }.

(** [{ byBase, byNumericId }] *)
Record MetaIndex : Type := {
  byBase : gmap string entry;
  byNumericId : gmap string entry;
}.

(** One record of a metadata JSON file, as [buildMetaIndex] reads it:
    [getTsMs(rec)], [getCaption(rec)] and the basenames that
    [collectUrisDeep] puts into the set [uris], in insertion order. *)
Record jsonRecord : Type := {
  rec_ts : nullable;
  rec_caption : string;
  rec_uris : list string;
}.

(** [if(!m.has(k)) m.set(k, e)] *)
Definition setIfAbsent (k : string) (e : entry) (m : gmap string entry) : gmap string entry :=
  match m !! k with
  | Some _ => m
  | None => <[k := e]> m
  end.

(** Body of [for(const base of uris)]. *)
Definition indexUri (e : entry) (idx : MetaIndex) (base : string) : MetaIndex :=
  {| byBase := setIfAbsent base e (byBase idx);
     byNumericId :=
       foldl (fun m token => setIfAbsent token e m) (byNumericId idx)
             (extractNumericTokens base) |}.

(** Body of [for(const rec of records)]. *)
Definition indexRecord (idx : MetaIndex) (rec : jsonRecord) : MetaIndex :=
  foldl (indexUri (Entry (rec_ts rec) (rec_caption rec))) idx (rec_uris rec).

Definition emptyIndex : MetaIndex := {| byBase := ∅; byNumericId := ∅ |}.

(** [buildMetaIndex()]: [files] are the record lists of the JSON files in
    directory order; a file that does not parse contributes no record. *)
Definition buildMetaIndex (files : list (list jsonRecord)) : MetaIndex :=
  foldl (foldl indexRecord) emptyIndex files.

(* ===================================================================== *)
(** ** Per-file resolution of timestamp and caption *)
(* ===================================================================== *)

(** A media file found on disk, with what the task awaits about it. *)
Record diskFile : Type := {
  abs : string;          (** absolute path *)
  fid : string;          (** [id]: slug of the stem, a dash, the 8-digit hash *)
  mtimeMs : Z;           (** [(await fsp.stat(abs)).mtimeMs], in whole
                             milliseconds *)
  probeTime : nullable;  (** what [ffprobeCreationTime(abs)] resolves to *)
}.

(** [!t] for a nullable number. *)
Definition falsy (t : nullable) : bool :=
  match t with
  | None => true
  | Some (Finite z) => z =? 0
  | Some NaN => true
  | Some _ => false
  end.

(** [if(!plausible(t)) t = null] *)
Definition keepPlausible (NOW : Z) (t : nullable) : nullable :=
  if plausible NOW t then t else None.

(** The loop over [extractNumericTokens(base)]: the first token that
    [byNumericId] has. *)
Fixpoint firstToken (m : gmap string entry) (toks : list string) : option entry :=
  match toks with
  | [] => None
  | tok :: rest =>
      match m !! tok with
      | Some e => Some e
      | None => firstToken m rest
      end
  end.

(** The variables of the task after line 410, and which guarded calls ran. *)
Record resolution : Type := {
  r_meta : option entry;    (** [meta] *)
  r_fuzzyTried : bool;      (** the token loop under [if(!meta)] ran *)
  r_metaTs : nullable;      (** [ts] after [if(!plausible(ts)) ts = null] *)
  r_probeCalled : bool;     (** [ffprobeCreationTime] was called *)
  r_probeTs : nullable;     (** [probeTs] *)
  r_folderTs : nullable;    (** [folderTs] *)
  r_ts : number;            (** [ts] after the chain of [??] *)
  r_caption : string;       (** [caption] *)
}.

Section Resolve.

Variable NOW : Z.
Variable hasFFPROBE : bool.
Variable idx : MetaIndex.

Definition resolve (f : diskFile) : resolution :=
  let base := Path.basename (abs f) in
  let direct := byBase idx !! base in
  let meta :=
    match direct with
    | Some e => Some e
    | None => firstToken (byNumericId idx) (extractNumericTokens base)
    end in
  let ts := keepPlausible NOW (match meta with Some e => e_ts e | None => None end) in
  let callProbe := falsy ts && isVideo (abs f) && hasFFPROBE in
  let probeTs := if callProbe then keepPlausible NOW (probeTime f) else None in
  let folderTs := keepPlausible NOW (tsFromFolder (abs f)) in
  {| r_meta := meta;
     r_fuzzyTried := match direct with Some _ => false | None => true end;
     r_metaTs := ts;
     r_probeCalled := callProbe;
     r_probeTs := probeTs;
     r_folderTs := folderTs;
     r_ts := default (Finite (mtimeMs f))
               (coalesce ts (coalesce probeTs folderTs));
     r_caption := match meta with Some e => e_caption e | None => "" end |}.

End Resolve.

(** The stages of the cascade, and the one whose value the chain
    [ts ?? probeTs ?? folderTs ?? stat.mtimeMs] selects. *)
Inductive stage : Type := StExact | StFuzzy | StProbe | StFolder | StMtime.

Definition source (r : resolution) : stage :=
  match r_metaTs r, r_probeTs r, r_folderTs r with
  | Some _, _, _ => if r_fuzzyTried r then StFuzzy else StExact
  | None, Some _, _ => StProbe
  | None, None, Some _ => StFolder
  | None, None, None => StMtime
  end.

(* ===================================================================== *)
(** ** The world of the processors: disk, external tools, skip log *)
(* ===================================================================== *)

(** An invocation of ffmpeg. *)
Inductive call : Type :=
| CallTranscode (src out : string)     (** libx264/aac encode *)
| CallRemux (src out : string)         (** [-c copy] *)
| CallSynth (src out : string)         (** black canvas + the audio of [src] *)
| CallPoster (frameSrc jpg : string)   (** [ffmpegPoster] *)
| CallSolidPoster (jpg : string).      (** [makeSolidPoster] *)

(** How an invocation ends: exit status 0, another exit status, or the
    ['error'] event of the child process with its message. *)
Inductive exit : Type :=
| Exit0
| ExitFail
| SpawnError (msg : string).

(** What happened, in order. *)
Inductive event : Type :=
| Ran (c : call) (r : exit)
| Probed (src : string) (hasAudio : bool)
    (** [probeStreams(src)] *)
| Sharped (src out : string) (width : Z) (err : option string)
    (** the sharp pipeline to [out]; [err] is the message of its exception *)
| ProbedTime (src : string) (answer : nullable).
    (** the ffprobe run of [ffprobeCreationTime(src)] and what it resolves to *)

(** The external tools and the reads of the source files: their answer may
    depend on everything that happened before. *)
Record tools : Type := {
  run : list event -> call -> exit;
  audio : list event -> string -> bool;
  sharp : list event -> string -> Z -> option string;
  hashed : list event -> string -> bool;
    (** whether [hashFile(p)] resolves: the file can be read *)
  statted : list event -> string -> bool;
    (** whether [fsp.stat(p)] resolves *)
}.

Record world : Type := {
  disk : gset string;                   (** output files that exist *)
  trace : list event;                   (** tool invocations so far *)
  skipLog : list (string * string);     (** [logSkip(abs, reason)] lines *)
}.

(** State passing over the world. *)
Definition M (A : Type) : Type := world -> A * world.

Definition ret {A} (a : A) : M A := fun w => (a, w).
Definition bind {A B} (m : M A) (k : A -> M B) : M B :=
  fun w => let '(a, w') := m w in k a w'.

(** The monad operations, with the notations [x ← m; k] and [m;; k]. *)
Global Instance M_ret : MRet M := @ret.
Global Instance M_bind : MBind M := fun A B k m => bind m k.

(** [fs.existsSync(p)] *)
Definition existsSync (p : string) : M bool :=
  fun w => (bool_decide (p ∈ disk w), w).

(** [logSkip(abs, reason)] *)
Definition logSkip (absPath reason : string) : M unit :=
  fun w => (tt, {| disk := disk w; trace := trace w;
                   skipLog := skipLog w ++ [(absPath, reason)] |}).

(** The message of the rejection, [None] when the promise resolves: a
    non-zero exit rejects with the caller's [Error(msg)], a spawn error with
    the error of the runtime. *)
Definition rejection (msg : string) (r : exit) : option string :=
  match r with
  | Exit0 => None
  | ExitFail => Some msg
  | SpawnError m => Some m
  end.

Section Processors.

Variable T : tools.
Variable FORCE : bool.

(** Spawn ffmpeg to write [out]; [msg] is the [Error] message of the caller
    for a non-zero exit.  A run that fails is taken to leave the disk as it
    was. *)
Definition spawn (c : call) (out : string) (msg : string) : M (option string) :=
  fun w =>
    let r := run T (trace w) c in
    (rejection msg r,
     {| disk := match r with Exit0 => {[out]} ∪ disk w | _ => disk w end;
        trace := trace w ++ [Ran c r];
        skipLog := skipLog w |}).

(** [sharp(src)...resize({width})...toBuffer()] then [writeFile(out)]. *)
Definition sharpTo (src out : string) (width : Z) : M (option string) :=
  fun w =>
    let r := sharp T (trace w) src width in
    (r,
     {| disk := match r with None => {[out]} ∪ disk w | Some _ => disk w end;
        trace := trace w ++ [Sharped src out width r];
        skipLog := skipLog w |}).

(** [probeStreams(src)], the [hasAudio] field. *)
Definition probeStreams (src : string) : M bool :=
  fun w =>
    let a := audio T (trace w) src in
    (a, {| disk := disk w; trace := trace w ++ [Probed src a];
           skipLog := skipLog w |}).

Definition MAX_W : Z := 1280.
Definition THUMB_W : Z := 400.

(** [processImage(src, outFull, outThumb)] *)
Definition processImage (src outFull outThumb : string) : M bool :=
  haveFull ← existsSync outFull;
  haveThumb ← existsSync outThumb;
  if negb FORCE && haveFull && haveThumb then ret true
  else
    full ← sharpTo src outFull MAX_W;
    match full with
    | Some e => logSkip src ("image process failed: " +:+ e);; ret false
    | None =>
        th ← sharpTo src outThumb THUMB_W;
        match th with
        | Some e => logSkip src ("image process failed: " +:+ e);; ret false
        | None => ret true
        end
    end.

Definition ffmpegPoster (mp4 jpg : string) : M (option string) :=
  spawn (CallPoster mp4 jpg) jpg "poster failed".

Definition makeSolidPoster (jpg : string) : M (option string) :=
  spawn (CallSolidPoster jpg) jpg "solid poster failed".

(** [tryMakePoster(srcForFrame, outPoster)] *)
Definition tryMakePoster (srcForFrame outPoster : string) : M bool :=
  r ← ffmpegPoster srcForFrame outPoster;
  match r with
  | None => ret true
  | Some _ =>
      r' ← makeSolidPoster outPoster;
      match r' with
      | None => ret true
      | Some _ => ret false
      end
  end.

Definition transcode (src outMp4 : string) : M (option string) :=
  spawn (CallTranscode src outMp4) outMp4 "encode failed".

Definition remux (src outMp4 : string) : M (option string) :=
  spawn (CallRemux src outMp4) outMp4 "remux failed".

Definition synth (src outMp4 : string) : M (option string) :=
  hasAudio ← probeStreams src;
  if negb hasAudio then ret (Some "no audio to synth")
  else spawn (CallSynth src outMp4) outMp4 "synth failed".

Definition videoFailed (e1 e2 e3 : string) : string :=
  "video failed: transcode -> " +:+ e1 +:+ "; remux -> " +:+ e2
    +:+ "; synth -> " +:+ e3.

(** The nested [try]/[catch] of [processVideo]: [true] when one of the
    three stages produced [outMp4], [false] after the [return false]. *)
Definition videoChain (src outMp4 : string) : M bool :=
  r1 ← transcode src outMp4;
  match r1 with
  | None => ret true
  | Some e1 =>
      r2 ← remux src outMp4;
      match r2 with
      | None => ret true
      | Some e2 =>
          r3 ← synth src outMp4;
          match r3 with
          | None => ret true
          | Some e3 => logSkip src (videoFailed e1 e2 e3);; ret false
          end
      end
  end.

(** The poster step of [processVideo], after [outMp4] was made. *)
Definition posterStep (src outMp4 outPoster : string) : M unit :=
  p1 ← tryMakePoster outMp4 outPoster;
  posterOK ← ((if p1 : bool then ret true
               else tryMakePoster src outPoster) : M bool);
  if negb posterOK
  then logSkip src "poster failed; using solid placeholder";;
       makeSolidPoster outPoster;; ret tt
  else ret tt.

(** [processVideo(src, outMp4, outPoster)] *)
Definition processVideo (src outMp4 outPoster : string) : M bool :=
  haveMp4 ← existsSync outMp4;
  havePoster ← existsSync outPoster;
  if negb FORCE && haveMp4 && havePoster then ret true
  else
    made ← videoChain src outMp4;
    if negb made then ret false
    else posterStep src outMp4 outPoster;; ret true.

End Processors.

(* ===================================================================== *)
(** ** Manifest entries, the per-file job and the run *)
(* ===================================================================== *)

Inductive kind : Type := Image | Video.

Definition kindName (k : kind) : string :=
  match k with
  | Image => "image"
  | Video => "video"
  end.

(** An entry of [media.json].  The field [date] is the ISO rendering of [ts]
    and is not kept; [hidden] is always [false]. *)
Record item : Type := {
  it_id : string;
  it_type : kind;
  it_src : string;
  it_thumb : string;
  it_ts : number;
  it_caption : string;
  it_hidden : bool;
}.

(** [new Date(ts).toISOString()] throws a [RangeError] outside the range of
    time values. *)
Definition validTime (t : number) : bool :=
  match t with
  | Finite z => Z.abs z <=? 8640000000000000
  | _ => false
  end.

(** Output paths, relative to [OUT_DIR]. *)
Definition imgFull (id : string) : string := "assets/media/img/full/" +:+ id +:+ ".webp".
Definition imgThumb (id : string) : string := "assets/media/img/thumbs/" +:+ id +:+ ".webp".
Definition vidMp4 (id : string) : string := "assets/media/video/720p/" +:+ id +:+ ".mp4".
Definition vidPoster (id : string) : string := "assets/media/video/posters/" +:+ id +:+ ".jpg".

Definition mkItem (k : kind) (f : diskFile) (r : resolution) : item :=
  {| it_id := fid f;
     it_type := k;
     it_src := match k with Image => imgFull (fid f) | Video => vidMp4 (fid f) end;
     it_thumb := match k with Image => imgThumb (fid f) | Video => vidPoster (fid f) end;
     it_ts := r_ts r;
     it_caption := r_caption r;
     it_hidden := false |}.

Section Run.

Variable T : tools.
Variable FORCE : bool.
Variable NOW : Z.
Variable hasFFPROBE : bool.
Variable idx : MetaIndex.

(** [await hashFile(abs, 8)]: whether it resolves; the hash is in [fid]. *)
Definition hashFile (p : string) : M bool :=
  fun w => (hashed T (trace w) p, w).

(** [await fsp.stat(abs)]: whether it resolves; the time is in [mtimeMs]. *)
Definition stat (p : string) : M bool :=
  fun w => (statted T (trace w) p, w).

(** [await ffprobeCreationTime(abs)]: the ffprobe run; it never rejects. *)
Definition ffprobeCreationTime (src : string) (answer : nullable) : M unit :=
  fun w => (tt, {| disk := disk w; trace := trace w ++ [ProbedTime src answer];
                   skipLog := skipLog w |}).

(** What the job does once the timestamp is resolved: [toISOString], then
    the processor of the kind of the file and the push. *)
Definition convert (f : diskFile) (r : resolution) : M (option item) :=
  if negb (validTime (r_ts r)) then ret None
  else if isImage (abs f) then
    ok ← processImage T FORCE (abs f) (imgFull (fid f)) (imgThumb (fid f));
    ret (if ok : bool then Some (mkItem Image f r) else None)
  else if isVideo (abs f) then
    ok ← processVideo T FORCE (abs f) (vidMp4 (fid f)) (vidPoster (fid f));
    ret (if ok : bool then Some (mkItem Video f r) else None)
  else ret None.

(** One element of [tasks]: the entry it pushes onto [items], if any.  A
    rejection of the job (of [hashFile], of [fsp.stat], or the [RangeError]
    of [toISOString]) is swallowed by the pool and pushes nothing. *)
Definition task (f : diskFile) : M (option item) :=
  h ← hashFile (abs f);
  if negb h then ret None
  else
    s ← stat (abs f);
    if negb s then ret None
    else
      let r := resolve NOW hasFFPROBE idx f in
      (if r_probeCalled r
       then ffprobeCreationTime (abs f) (probeTime f)
       else ret tt);;
      convert f r.

(** The jobs one after the other, in the order in which they complete;
    [items] in push order. *)
Fixpoint runTasks (files : list diskFile) : M (list item) :=
  match files with
  | [] => ret []
  | f :: rest =>
      it ← task f;
      its ← runTasks rest;
      ret (option_list it ++ its)
  end.

End Run.

(** [it.type + "|" + it.src] *)
Definition key (it : item) : string := kindName (it_type it) +:+ "|" +:+ it_src it.

(** The loop over [items] with the set [seen]. *)
Fixpoint dedupe (seen : gset string) (items : list item) : list item :=
  match items with
  | [] => []
  | it :: rest =>
      if bool_decide (key it ∈ seen) then dedupe seen rest
      else it :: dedupe ({[key it]} ∪ seen) rest
  end.

(** The comparator [(a,b) => (b.ts||0) - (a.ts||0)]. *)
Definition byTsDesc (a b : item) : number :=
  JS.sub (orZero (it_ts b)) (orZero (it_ts a)).

(** [Array.prototype.sort] is stable: [a] moves behind [b] only when the
    comparator is positive on [(a, b)].  Insertion from the right. *)
Section Sort.
Context {A : Type} (cmp : A -> A -> number).

Fixpoint insertSorted (x : A) (l : list A) : list A :=
  match l with
  | [] => [x]
  | y :: l' => if JS.positive (cmp x y) then y :: insertSorted x l' else x :: l
  end.

Definition sortBy (l : list A) : list A := foldr insertSorted [] l.
End Sort.

(** What is written to [media.json]. *)
Definition manifest (items : list item) : list item :=
  sortBy byTsDesc (dedupe ∅ items).

(* ===================================================================== *)
(** ** Records of the export as JSON values *)
(* ===================================================================== *)

(** A parsed JSON value.  Numbers are the integers of the export; an object
    lists its properties in the order of [Object.values], each key once. *)
#[warnings="-register-all"] Inductive json : Type :=
| JNull
| JBool (b : bool)
| JNum (n : number)
| JStr (s : string)
| JArr (elems : list json)
| JObj (fields : list (string * json)).

Fixpoint assoc (k : string) (fields : list (string * json)) : option json :=
  match fields with
  | [] => None
  | (k', v) :: rest => if String.eqb k k' then Some v else assoc k rest
  end.

(** [v?.k]; [None] is [undefined]. *)
Definition prop (v : json) (k : string) : option json :=
  match v with
  | JObj fields => assoc k fields
  | _ => None
  end.

(** [a ?? b] *)
Definition nullish (v : option json) : bool :=
  match v with
  | None | Some JNull => true
  | _ => false
  end.

Definition orElse (a b : option json) : option json :=
  if nullish a then b else a.

(** The truth value of [if(v)]. *)
Definition truthy (v : option json) : bool :=
  match v with
  | None | Some JNull => false
  | Some (JBool b) => b
  | Some (JNum n) => negb (falsy (Some n))
  | Some (JStr s) => negb (String.eqb s "")
  | Some (JArr _) | Some (JObj _) => true
  end.

(** The number of characters of [String(n)] for an integer below [10^21],
    which is written in decimal, with its sign when negative. *)
Fixpoint digitCount (fuel : nat) (a : Z) : nat :=
  match fuel with
  | O => 1
  | S fuel' => if a <? 10 then 1%nat else S (digitCount fuel' (a / 10))
  end.

Definition decimalLength (z : Z) : nat :=
  Nat.add (if z <? 0 then 1%nat else 0%nat) (digitCount 21 (Z.abs z)).

Section Records.

(** [Number(v)] for a string, an array or an object. *)
Variable coerce : json -> number.

(** [String(n).length<13 ? n*1000 : n] for an integer of [10^21] or more,
    which [String] writes with an exponent. *)
Variable beyondDecimal : Z -> number.

(** [Number(v)] *)
Definition toNumber (v : option json) : number :=
  match v with
  | None => NaN
  | Some JNull => Finite 0
  | Some (JBool b) => Finite (if b then 1 else 0)
  | Some (JNum n) => n
  | Some w => coerce w
  end.

(** [if(Number.isFinite(n)) return String(n).length<13 ? n*1000 : n;] *)
Definition toMs (n : number) : nullable :=
  match n with
  | Finite z =>
      if Z.abs z <? 10 ^ 21
      then Some (Finite (if (decimalLength z <? 13)%nat then z * 1000 else z))
      else Some (beyondDecimal z)
  | _ => None
  end.

(** [rec?.creation_timestamp ?? rec?.taken_at ?? rec?.taken_at_timestamp
     ?? rec?.created_at ?? null] *)
Definition candidate (rec : json) : option json :=
  orElse (orElse (orElse (orElse (prop rec "creation_timestamp")
                                 (prop rec "taken_at"))
                         (prop rec "taken_at_timestamp"))
                 (prop rec "created_at"))
         (Some JNull).

(** [rec.media[0]?.creation_timestamp] when [rec.media] is an array. *)
Definition firstMediaStamp (rec : json) : option json :=
  match prop rec "media" with
  | Some (JArr (m :: _)) => prop m "creation_timestamp"
  | _ => None
  end.

(** [getTsMs(rec)] *)
Definition getTsMs (rec : json) : nullable :=
  let cand := candidate rec in
  match (if truthy cand then toMs (toNumber cand) else None) with
  | Some t => Some t
  | None =>
      let c := firstMediaStamp rec in
      if truthy c then toMs (toNumber c) else None
  end.

End Records.

(** [getCaption(rec)]: [rec?.title || rec?.caption || rec?.description || ""] *)
Definition getCaption (rec : json) : json :=
  if truthy (prop rec "title") then default JNull (prop rec "title")
  else if truthy (prop rec "caption") then default JNull (prop rec "caption")
  else if truthy (prop rec "description") then default JNull (prop rec "description")
  else JStr "".

(** [s.trim()] on ASCII strings. *)
Definition isSpace (c : ascii) : bool :=
  let n := N_of_ascii c in (((9 <=? n) && (n <=? 13)) || (n =? 32))%N.

Definition trim (s : string) : string :=
  string_of_list_ascii
    (rev (Path.dropWhile isSpace (rev (Path.dropWhile isSpace (list_ascii_of_string s))))).

(** [s.split("?")[0]] *)
Fixpoint beforeQuery (s : string) : string :=
  match s with
  | EmptyString => EmptyString
  | String c s' => if Ascii.eqb c "?" then EmptyString else String c (beforeQuery s')
  end.

(** [out.add(x)] on a [Set], kept in insertion order. *)
Definition setAdd (x : string) (out : list string) : list string :=
  if bool_decide (x ∈ out) then out else out ++ [x].

(** The basename that a string value contributes, if any. *)
Definition uriOf (node : string) : option string :=
  let s := trim node in
  let base := Path.basename (beforeQuery s) in
  let ext := Path.toLowerCase (Path.extname base) in
  if inExts IMAGE_EXTS ext || inExts VIDEO_EXTS ext then Some base else None.

(** [collectUrisDeep(node, out)]; the result is [out] after the call. *)
Fixpoint collectUrisDeep (node : json) (out : list string) : list string :=
  match node with
  | JNull | JBool _ | JNum _ => out
  | JArr elems => foldl (fun o v => collectUrisDeep v o) out elems
  | JObj fields => foldl (fun o kv => collectUrisDeep (snd kv) o) out fields
  | JStr s =>
      match uriOf s with
      | Some base => setAdd base out
      | None => out
      end
  end.

(* ===================================================================== *)
(** ** Command line, identifiers and the scan of the export *)
(* ===================================================================== *)

(** [args.indexOf(flag)]; [None] is [-1]. *)
Fixpoint indexOf (flag : string) (args : list string) : option nat :=
  match args with
  | [] => None
  | a :: rest => if String.eqb a flag then Some O else S <$> indexOf flag rest
  end.

(** [getArg(flag, def)]; [None] is [undefined]. *)
Definition getArg (args : list string) (flag : string) (def : option string)
    : option string :=
  match indexOf flag args with
  | Some i => args !! S i
  | None => def
  end.

(** [!IN_DIR || !OUT_DIR], upon which the script prints its usage and exits
    with code 1. *)
Definition missing (v : option string) : bool :=
  match v with
  | None => true
  | Some s => String.eqb s ""
  end.

Definition usageError (args : list string) : bool :=
  missing (getArg args "--in" None) || missing (getArg args "--out" None).

(** [slugify(s)] on ASCII strings, which [normalize("NFKD")] leaves as they
    are: [replace(/[^\w\s-]/g,"")], [trim()], [replace(/\s+/g,"-")],
    [toLowerCase()]. *)
Definition isWord (c : ascii) : bool :=
  let n := N_of_ascii c in
  (((48 <=? n) && (n <=? 57)) || ((65 <=? n) && (n <=? 90))
   || ((97 <=? n) && (n <=? 122)) || (n =? 95))%N.

Definition keptBySlug (c : ascii) : bool :=
  isWord c || isSpace c || Ascii.eqb c "-".

Fixpoint keepChars (p : ascii -> bool) (l : list ascii) : list ascii :=
  match l with
  | [] => []
  | c :: l' => if p c then c :: keepChars p l' else keepChars p l'
  end.

(** [inRun]: the character before was white space. *)
Fixpoint dashSpaces (inRun : bool) (l : list ascii) : list ascii :=
  match l with
  | [] => []
  | c :: l' =>
      if isSpace c
      then if inRun then dashSpaces true l' else "-"%char :: dashSpaces true l'
      else c :: dashSpaces false l'
  end.

Definition slugify (s : string) : string :=
  Path.toLowerCase
    (string_of_list_ascii
       (dashSpaces false
          (list_ascii_of_string
             (trim (string_of_list_ascii
                      (keepChars keptBySlug (list_ascii_of_string s))))))).

(** [s.includes(needle)] *)
Fixpoint includes (needle s : string) : bool :=
  match Path.stripPrefix needle s with
  | Some _ => true
  | None =>
      match s with
      | EmptyString => false
      | String _ s' => includes needle s'
      end
  end.

(** The test of [collectDiskMedia] on a walked path. *)
Definition isMediaFile (f : string) : bool :=
  negb (includes "/media/recently_deleted/" (Path.slashes f)) &&
  (let ext := Path.toLowerCase (Path.extname f) in
   inExts IMAGE_EXTS ext || inExts VIDEO_EXTS ext).

(** [collectDiskMedia()], given what [walk] yields for each of the roots
    [media/posts], [media/reels], [media/other] that exist, in this
    order. *)
Definition collectDiskMedia (walked : list (list string)) : list string :=
  filter (fun f => isMediaFile f = true) (concat walked).

(* ===================================================================== *)
(** ** The sort of the posts-only script *)
(* ===================================================================== *)

Module Posts.

(** An entry of [items] in [ingest-posts.js].  [p_date] is the time value
    whose ISO string the entry carries, [None] for [null]; the identifier is
    a slug followed by a hash, never empty. *)
Record item : Type := {
  p_id : string;
  p_type : kind;
  p_src : string;
  p_thumb : string;
  p_date : option Z;
  p_caption : string;
  p_hidden : bool;
}.

(** [a?.date ? Date.parse(a.date) : 0] *)
Definition dateKey (a : item) : Z :=
  match p_date a with
  | Some t => t
  | None => 0
  end.

(** The comparator of [items.sort]:
    [if (tb !== ta) return tb - ta;
     return String(b?.id || "").localeCompare(String(a?.id || ""))].
    The collation is a parameter. *)
Definition newestFirst (localeCompare : string -> string -> number)
    (a b : item) : number :=
  let ta := dateKey a in
  let tb := dateKey b in
  if negb (tb =? ta) then Finite (tb - ta)
  else localeCompare (p_id b) (p_id a).

End Posts.

(* ===================================================================== *)
(** ** The processors of the posts-only script *)
(* ===================================================================== *)

Module PostsIO.

Section Processors.

Variable T : tools.
Variable FORCE : bool.

(** [processVideo(src, outMp4, outPoster)] of [ingest-posts.js]: one
    transcode, then the poster from the transcoded file, in one [try]. *)
Definition processVideo (src outMp4 outPoster : string) : M bool :=
  haveMp4 ← existsSync outMp4;
  havePoster ← existsSync outPoster;
  if negb FORCE && haveMp4 && havePoster then ret true
  else
    r ← spawn T (CallTranscode src outMp4) outMp4 "ffmpeg encode failed";
    match r with
    | Some _ => ret false
    | None =>
        p ← spawn T (CallPoster outMp4 outPoster) outPoster "ffmpeg poster failed";
        match p with
        | Some _ => ret false
        | None => ret true
        end
    end.

End Processors.

End PostsIO.

(* ===================================================================== *)
(** * Vocabulary of the properties *)
(* ===================================================================== *)

(* --------------------------------------------------------------------- *)
(** ** Timestamp resolution *)
(* --------------------------------------------------------------------- *)

(** The entry that [buildMetaIndex] stores for a record. *)
Definition entryOfRecord (rec : jsonRecord) : entry :=
  Entry (rec_ts rec) (rec_caption rec).

(** The numeric tokens of the basenames of a record. *)
Definition recordTokens (rec : jsonRecord) : list string :=
  concat (extractNumericTokens <$> rec_uris rec).

(** What stage 1 of the cascade yields: the timestamp of the entry indexed
    under the basename. *)
Definition exactTs (idx : MetaIndex) (f : diskFile) : nullable :=
  match byBase idx !! Path.basename (abs f) with
  | Some e => e_ts e
  | None => None
  end.

(** The matched entry, if any, carries no plausible timestamp. *)
Definition noMetaTs (NOW : Z) (r : resolution) : Prop :=
  forall e, r_meta r = Some e -> plausible NOW (e_ts e) = false.

(** [Date.UTC(y, m-1, 15, 12, 0, 0)] is the instant [y-m-15T12:00:00Z] for
    the years of the folder pattern and a month 01..12. *)
Definition midMonthAgrees (y m : Z) : bool :=
  DateUtc.UTC y (m - 1) 15 12 0 0 =? DateUtc.isoInstant y m 15 12.

(** The second stage of the cascade as the specification words it: the
    token lookup runs whenever the exact lookup gave no plausible
    timestamp. *)
Definition fuzzy_after_implausible_exact : Prop :=
  forall NOW ff idx f,
    plausible NOW (exactTs idx f) = false ->
    r_fuzzyTried (resolve NOW ff idx f) = true.

(** The exact match as the specification words it: an exact entry always
    decides the timestamp. *)
Definition exact_entry_always_wins : Prop :=
  forall NOW ff idx f e,
    byBase idx !! Path.basename (abs f) = Some e ->
    e_ts e = Some (r_ts (resolve NOW ff idx f)).

(** The fallback as the specification words it, in two halves: without
    metadata match a dated folder always decides, and without dated folder
    the mtime always decides. *)
Definition folder_date_always : Prop :=
  forall NOW ff idx f y m,
    r_meta (resolve NOW ff idx f) = None ->
    folderMatch (Path.slashes (abs f)) = Some (y, m) ->
    1 <= m <= 12 ->
    r_ts (resolve NOW ff idx f) = Finite (DateUtc.isoInstant y m 15 12).

Definition mtime_without_folder : Prop :=
  forall NOW ff idx f,
    r_meta (resolve NOW ff idx f) = None ->
    folderMatch (Path.slashes (abs f)) = None ->
    r_ts (resolve NOW ff idx f) = Finite (mtimeMs f).

(* --------------------------------------------------------------------- *)
(** ** Processors and runs *)
(* --------------------------------------------------------------------- *)

(** The world grows: the trace and the skip log are only appended to. *)
Definition extends (w w' : world) (new : list event) (logs : list (string * string)) : Prop :=
  trace w' = trace w ++ new /\ skipLog w' = skipLog w ++ logs.

(** Poster events. *)
Definition isPosterEvent (ev : event) : Prop :=
  match ev with
  | Ran (CallPoster _ _) _ | Ran (CallSolidPoster _) _ => True
  | _ => False
  end.

Definition posterLine (src : string) : string * string :=
  (src, "poster failed; using solid placeholder").


(** The outcomes of the nested [try]/[catch]: what was run, whether
    [outMp4] was made, and what was written to the skip log. *)
Inductive chainOutcome (src out : string) :
  list event -> bool -> list (string * string) -> Prop :=
| chain_transcoded :
    chainOutcome src out [Ran (CallTranscode src out) Exit0] true []
| chain_remuxed r1 e1 :
    rejection "encode failed" r1 = Some e1 ->
    chainOutcome src out
      [Ran (CallTranscode src out) r1; Ran (CallRemux src out) Exit0] true []
| chain_synthed r1 r2 e1 e2 :
    rejection "encode failed" r1 = Some e1 ->
    rejection "remux failed" r2 = Some e2 ->
    chainOutcome src out
      [Ran (CallTranscode src out) r1; Ran (CallRemux src out) r2;
       Probed src true; Ran (CallSynth src out) Exit0] true []
| chain_no_audio r1 r2 e1 e2 :
    rejection "encode failed" r1 = Some e1 ->
    rejection "remux failed" r2 = Some e2 ->
    chainOutcome src out
      [Ran (CallTranscode src out) r1; Ran (CallRemux src out) r2;
       Probed src false] false
      [(src, videoFailed e1 e2 "no audio to synth")]
| chain_synth_failed r1 r2 r3 e1 e2 e3 :
    rejection "encode failed" r1 = Some e1 ->
    rejection "remux failed" r2 = Some e2 ->
    rejection "synth failed" r3 = Some e3 ->
    chainOutcome src out
      [Ran (CallTranscode src out) r1; Ran (CallRemux src out) r2;
       Probed src true; Ran (CallSynth src out) r3] false
      [(src, videoFailed e1 e2 e3)].

Inductive vstage : Type := VTranscode | VRemux | VSynth.

(** The attempt of a stage that an event records, with the message of its
    failure ([None] for a success).  The synth stage fails at its probe when
    the source has no audio, and at its ffmpeg run otherwise. *)
Definition attemptOf (ev : event) : option (vstage * option string) :=
  match ev with
  | Ran (CallTranscode _ _) r => Some (VTranscode, rejection "encode failed" r)
  | Ran (CallRemux _ _) r => Some (VRemux, rejection "remux failed" r)
  | Ran (CallSynth _ _) r => Some (VSynth, rejection "synth failed" r)
  | Probed _ false => Some (VSynth, Some "no audio to synth")
  | _ => None
  end.

Definition attempts (new : list event) : list (vstage * option string) :=
  omap attemptOf new.

(** The ways a video can go through [processVideo] when it is not skipped. *)
Inductive videoOutcome (src : string) :
  list (vstage * option string) -> bool -> list (string * string) -> Prop :=
| vo_transcoded logs :
    Forall (fun l => l = posterLine src) logs ->
    videoOutcome src [(VTranscode, None)] true logs
| vo_remuxed e1 logs :
    Forall (fun l => l = posterLine src) logs ->
    videoOutcome src [(VTranscode, Some e1); (VRemux, None)] true logs
| vo_synthed e1 e2 logs :
    Forall (fun l => l = posterLine src) logs ->
    videoOutcome src
      [(VTranscode, Some e1); (VRemux, Some e2); (VSynth, None)] true logs
| vo_failed e1 e2 e3 :
    videoOutcome src
      [(VTranscode, Some e1); (VRemux, Some e2); (VSynth, Some e3)] false
      [(src, videoFailed e1 e2 e3)].

(** Whether the two reads of the job succeed in a world. *)
Definition readable (T : tools) (f : diskFile) (w : world) : bool :=
  hashed T (trace w) (abs f) && statted T (trace w) (abs f).

(** The container-time query that the job of a file makes, if any. *)
Definition timeQuery (NOW : Z) (ff : bool) (idx : MetaIndex) (f : diskFile)
    : list event :=
  if r_probeCalled (resolve NOW ff idx f)
  then [ProbedTime (abs f) (probeTime f)]
  else [].

(** The world after that query. *)
Definition queried (NOW : Z) (ff : bool) (idx : MetaIndex) (f : diskFile)
    (w : world) : world :=
  {| disk := disk w; trace := trace w ++ timeQuery NOW ff idx f;
     skipLog := skipLog w |}.


(** The entry that the job of [f] pushes when its processor reports
    success. *)
Definition entryOf (NOW : Z) (ff : bool) (idx : MetaIndex) (f : diskFile) : option item :=
  let r := resolve NOW ff idx f in
  if negb (validTime (r_ts r)) then None
  else if isImage (abs f) then Some (mkItem Image f r)
  else if isVideo (abs f) then Some (mkItem Video f r)
  else None.

(** The calls that convert a file: the sharp pipeline and the ffmpeg runs.
    The two ffprobe queries only read. *)
Definition isConversion (ev : event) : bool :=
  match ev with
  | Ran _ _ | Sharped _ _ _ _ => true
  | Probed _ _ | ProbedTime _ _ => false
  end.

Definition conversions (tr : list event) : list event :=
  filter (fun ev => isConversion ev = true) tr.




(** The comparator of the sibling script [ingest-posts.js], read on the same
    entries: [tb !== ta ? tb - ta : String(b.id).localeCompare(String(a.id))].
    The collation is a parameter. *)
Definition byDateThenId (localeCompare : string -> string -> number)
    (a b : item) : number :=
  if negb (strictEq (it_ts b) (it_ts a)) then JS.sub (it_ts b) (it_ts a)
  else localeCompare (it_id b) (it_id a).

(* --------------------------------------------------------------------- *)
(** ** Sample export *)
(* --------------------------------------------------------------------- *)

Module Sample.

(** The run is made on 2023-11-14T22:13:20Z. *)
Definition NOW : Z := 1700000000000.

(** [posts_1.json]: a reel dated 2020-09-13, then a picture that shares
    its numeric id and carries no timestamp field, then a picture whose
    timestamp is one second after the epoch, then a picture dated four
    days after the run. *)
Definition posts_1 : list jsonRecord :=
  [ {| rec_ts := Some (Finite 1600000000000); rec_caption := "first";
       rec_uris := ["clip_17900000000000001.mp4"] |};
    {| rec_ts := None; rec_caption := "second";
       rec_uris := ["17900000000000001.jpg"] |};
    {| rec_ts := Some (Finite 1000); rec_caption := "old";
       rec_uris := ["holiday.jpg"] |};
    {| rec_ts := Some (Finite 1700345600000); rec_caption := "soon";
       rec_uris := ["scheduled.jpg"] |} ].

Definition index : MetaIndex := buildMetaIndex [posts_1].

(** Last modified 2017-07-14T02:40:00Z. *)
Definition picture : diskFile :=
  {| abs := "/export/media/other/17900000000000001.jpg";
     fid := "17900000000000001-0a1b2c3d";
     mtimeMs := 1500000000000;
     probeTime := None |}.

Definition holiday : diskFile :=
  {| abs := "/export/media/posts/202105/holiday.jpg";
     fid := "holiday-99887766";
     mtimeMs := 1500000000000;
     probeTime := None |}.

(** A reel without metadata whose container carries 2023-05-01T10:00:00Z. *)
Definition reel : diskFile :=
  {| abs := "/export/media/reels/202305/clip.mp4";
     fid := "clip-4d5e6f70";
     mtimeMs := 1500000000000;
     probeTime := Some (Finite 1682935200000) |}.

(** The reel of the first record, on disk under its indexed name. *)
Definition clip : diskFile :=
  {| abs := "/export/media/reels/202009/clip_17900000000000001.mp4";
     fid := "clip_17900000000000001-a0b1c2d3";
     mtimeMs := 1500000000000;
     probeTime := Some (Finite 1682935200000) |}.

(** A video outside the dated folders, same container time as [reel]. *)
Definition party : diskFile :=
  {| abs := "/export/media/other/party.mov";
     fid := "party-0f0e0d0c";
     mtimeMs := 1500000000000;
     probeTime := Some (Finite 1682935200000) |}.

(** A picture in a folder dated before 2010. *)
Definition early : diskFile :=
  {| abs := "/export/media/posts/200905/scan.jpg";
     fid := "scan-0badcafe";
     mtimeMs := 1500000000000;
     probeTime := None |}.


(** Two pictures without metadata in the same dated folder. *)
Definition beach : diskFile :=
  {| abs := "/export/media/posts/202305/beach.jpg";
     fid := "beach-aaaa1111";
     mtimeMs := 1500000000000;
     probeTime := None |}.

Definition city : diskFile :=
  {| abs := "/export/media/posts/202305/city.jpg";
     fid := "city-bbbb2222";
     mtimeMs := 1500000000000;
     probeTime := None |}.

Definition corrupt : diskFile :=
  {| abs := "/export/media/posts/202305/broken.jpg";
     fid := "broken-00112233";
     mtimeMs := 1500000000000;
     probeTime := None |}.

(** A world with no output yet. *)
Definition emptyWorld : world := {| disk := ∅; trace := []; skipLog := [] |}.

(** Tools that decode nothing: every ffmpeg run exits with an error, no
    stream is found, sharp rejects the input.  The files can be read. *)
Definition broken : tools :=
  {| run := fun _ _ => ExitFail;
     audio := fun _ _ => false;
     sharp := fun _ _ _ => Some "Input file contains unsupported image format";
     hashed := fun _ _ => true;
     statted := fun _ _ => true |}.

(** Tools that work, on files that can be read. *)
Definition working : tools :=
  {| run := fun _ _ => Exit0;
     audio := fun _ _ => true;
     sharp := fun _ _ _ => None;
     hashed := fun _ _ => true;
     statted := fun _ _ => true |}.

(** Tools that work, except that no frame can be taken from the transcoded
    file (it is shorter than the seek position, say). *)
Definition noFrameFromOutput : tools :=
  {| run := fun _ c =>
              match c with
              | CallPoster frameSrc _ =>
                  if String.eqb frameSrc (vidMp4 (fid reel)) then ExitFail else Exit0
              | _ => Exit0
              end;
     audio := fun _ _ => true;
     sharp := fun _ _ _ => None;
     hashed := fun _ _ => true;
     statted := fun _ _ => true |}.

End Sample.

(** Runs the definitions of the processors on the current world. *)
Ltac run_io :=
  unfold mbind, M_bind, bind, ret, existsSync, logSkip, spawn, sharpTo,
    probeStreams; simpl.

Ltac solve_grows :=
  first [ symmetry; apply app_nil_r
        | rewrite <- ?app_assoc; simpl; reflexivity ].

Ltac solve_extends :=
  unfold extends; simpl; split; solve_grows.


(* --------------------------------------------------------------------- *)
(** ** Names, records, identifiers and order *)
(* --------------------------------------------------------------------- *)

(* ===================================================================== *)
(** ** Vocabulary of the further properties *)
(* ===================================================================== *)

(** A string of decimal digits. *)
Definition allDigits (s : string) : Prop :=
  Forall (fun c => Path.isDigit c = true) (list_ascii_of_string s).

(** The path has a folder [/media/posts/20YYMM/] or [/media/reels/20YYMM/]
    (separators already normalised). *)
Definition hasDatedFolder (s : string) : Prop :=
  exists pre k a b c d rest,
    (k = "posts" \/ k = "reels") /\
    s = pre +:+ "/media/" +:+ k +:+ "/20"
          +:+ String a (String b (String c (String d ("/" +:+ rest)))) /\
    Path.isDigit a = true /\ Path.isDigit b = true /\
    Path.isDigit c = true /\ Path.isDigit d = true.

(** The folder dates that the pattern can produce stay inside the range of
    time values: checked for every year 2000..2099 and every two-digit month
    field. *)
Definition folderDateInRange (y m : Z) : bool :=
  let t := DateUtc.UTC y (m - 1) 15 12 0 0 in
  (DateUtc.isoInstant 1999 12 15 12 <=? t) && (t <=? DateUtc.isoInstant 2107 3 15 12)
  && validTime (Finite t).

(** The timestamp of an entry as an integer ([0] when it is not one). *)
Definition tsValue (it : item) : Z :=
  match it_ts it with
  | Finite z => z
  | _ => 0
  end.

#[global] Instance number_eq_dec : EqDecision number.
Proof. solve_decision. Defined.

(** The string values of a JSON value, at any depth, left to right. *)
Fixpoint stringLeaves (node : json) : list string :=
  match node with
  | JStr s => [s]
  | JArr elems => flat_map stringLeaves elems
  | JObj fields => flat_map (fun kv => stringLeaves (snd kv)) fields
  | _ => []
  end.

(** The record of the index that a JSON record stands for. *)
Definition describes (coerce : json -> number) (beyondDecimal : Z -> number)
    (rec : json) (r : jsonRecord) : Prop :=
  rec_ts r = getTsMs coerce beyondDecimal rec /\
  JStr (rec_caption r) = getCaption rec /\
  rec_uris r = collectUrisDeep rec [].

(** Induction on JSON values, through the arrays and the objects. *)
Section JsonInduction.
Variable P : json -> Prop.
Hypothesis Hnull : P JNull.
Hypothesis Hbool : forall b, P (JBool b).
Hypothesis Hnum : forall n, P (JNum n).
Hypothesis Hstr : forall s, P (JStr s).
Hypothesis Harr : forall elems, Forall P elems -> P (JArr elems).
Hypothesis Hobj : forall fields, Forall (fun kv => P (snd kv)) fields -> P (JObj fields).

Fixpoint json_induction (v : json) : P v :=
  match v with
  | JNull => Hnull
  | JBool b => Hbool b
  | JNum n => Hnum n
  | JStr s => Hstr s
  | JArr elems =>
      Harr elems
        ((fix go (l : list json) : Forall P l :=
            match l with
            | [] => @List.Forall_nil _ P
            | x :: r => @List.Forall_cons _ P x r (json_induction x) (go r)
            end) elems)
  | JObj fields =>
      Hobj fields
        ((fix go (l : list (string * json)) : Forall (fun kv => P (snd kv)) l :=
            match l with
            | [] => @List.Forall_nil _ (fun kv => P (snd kv))
            | kv :: r =>
                @List.Forall_cons _ (fun kv => P (snd kv)) kv r
                  (json_induction (snd kv)) (go r)
            end) fields)
  end.
End JsonInduction.

(** [v] follows the first occurrence of [flag] in [args]. *)
Definition follows (flag v : string) (args : list string) : Prop :=
  exists pre post, args = pre ++ flag :: v :: post /\ (flag ∉ pre).

Definition isAsciiString (s : string) : Prop :=
  Forall (fun c => (N_of_ascii c < 128)%N) (list_ascii_of_string s).

(** The characters of an identifier: [a-z], [0-9], [_] and [-]. *)
Definition isSlugChar (c : ascii) : bool :=
  let n := N_of_ascii c in
  (((48 <=? n) && (n <=? 57)) || ((97 <=? n) && (n <=? 122))
   || (n =? 95) || (n =? 45))%N.

Definition contains (needle s : string) : Prop :=
  exists pre post, s = pre +:+ needle +:+ post.

(** [localeCompare] orders the identifiers [ids] strictly and totally:
    read as "greater than", it is asymmetric and transitive, and tells any
    two different identifiers apart. *)
Definition ordersStrictly (localeCompare : string -> string -> number)
    (ids : list string) : Prop :=
  (forall x y, x ∈ ids -> y ∈ ids ->
     JS.positive (localeCompare x y) = true ->
     JS.positive (localeCompare y x) = false) /\
  (forall x y z, x ∈ ids -> y ∈ ids -> z ∈ ids ->
     JS.positive (localeCompare x y) = true ->
     JS.positive (localeCompare y z) = true ->
     JS.positive (localeCompare x z) = true) /\
  (forall x y, x ∈ ids -> y ∈ ids -> x <> y ->
     JS.positive (localeCompare x y) = true \/
     JS.positive (localeCompare y x) = true).

(** [a] is newer than [b], or as old with the greater identifier. *)
Definition newerOrGreaterId (localeCompare : string -> string -> number)
    (a b : Posts.item) : Prop :=
  Posts.dateKey b < Posts.dateKey a \/
  (Posts.dateKey b = Posts.dateKey a /\
   JS.positive (localeCompare (Posts.p_id a) (Posts.p_id b)) = true).

(** A collation for examples: the order of the character codes. *)
Definition codeOrder (x y : string) : number :=
  match String.compare x y with
  | Lt => Finite (-1)
  | Eq => Finite 0
  | Gt => Finite 1
  end.

(** A candidate timestamp that the run at [NOW1] rejects as lying in the
    future and the run at [NOW2] accepts. *)
Definition becomesPlausible (NOW1 NOW2 : Z) (t : nullable) : Prop :=
  exists z, t = Some (Finite z) /\ MAX_TS NOW1 < z <= MAX_TS NOW2.

(** The first conversion of the job of a file. *)
Definition firstConversion (f : diskFile) (ev : event) : Prop :=
  (isImage (abs f) = true /\
   exists err, ev = Sharped (abs f) (imgFull (fid f)) MAX_W err) \/
  (isImage (abs f) = false /\
   exists r, ev = Ran (CallTranscode (abs f) (vidMp4 (fid f))) r).

(* ===================================================================== *)
(** * Properties of the timestamp resolution *)
(* ===================================================================== *)

(** The constants and the string helpers, on examples. *)

Example MIN_TS_value : MIN_TS = 1262304000000.
Proof. reflexivity. Qed.

Example basename_ex : Path.basename "/x/media/posts/202311/abc123456789012.jpg" = "abc123456789012.jpg".
Proof. reflexivity. Qed.

Example extname_ex :
  map Path.extname ["/a/b.JPG"; "/a/.profile"; "/a.b/c"; ".."; "a."; "x.tar.gz"]
  = [".JPG"; ""; ""; ""; "."; ".gz"].
Proof. reflexivity. Qed.

Example tokens_ex :
  extractNumericTokens "12345_1791234567890123_99_0000000000.jpg"
  = ["1791234567890123"; "0000000000"].
Proof. reflexivity. Qed.

Example tsFromFolder_ex :
  map tsFromFolder ["/x/media/reels/202305/clip.mp4"; "C:\ig\media\posts\202311\a.jpg";
                    "/x/media/other/202305/a.jpg"; "/x/media/posts/202313/a.jpg"]
  = [Some (Finite 1684152000000); Some (Finite 1700049600000); None;
     Some (Finite 1705320000000)].
Proof. reflexivity. Qed.


Lemma MAX_TS_unfold NOW : MAX_TS NOW = NOW + 259200000.
Proof. unfold MAX_TS. lia. Qed.

Lemma plausible_spec NOW (t : nullable) :
  plausible NOW t = true <->
  exists z, t = Some (Finite z) /\ 1262304000000 <= z <= NOW + 259200000.
Proof.
  unfold plausible. rewrite <- MAX_TS_unfold. change 1262304000000 with MIN_TS.
  destruct t as [[z| | |]|]; simpl.
  - rewrite andb_true_iff, !Z.leb_le. split.
    + intros [? ?]. exists z. auto.
    + intros (z' & [= <-] & ? & ?). auto.
  - split; [discriminate | intros (? & [=] & _)].
  - split; [discriminate | intros (? & [=] & _)].
  - split; [discriminate | intros (? & [=] & _)].
  - split; [discriminate | intros (? & [=] & _)].
Qed.

Lemma keepPlausible_Some NOW t v :
  keepPlausible NOW t = Some v <-> t = Some v /\ plausible NOW t = true.
Proof.
  unfold keepPlausible. destruct (plausible NOW t) eqn:E.
  - split; [auto | tauto].
  - split; [discriminate | intros [_ [=]]].
Qed.

Lemma keepPlausible_None NOW t :
  keepPlausible NOW t = None <-> plausible NOW t = false.
Proof.
  unfold keepPlausible. destruct (plausible NOW t) eqn:E.
  - destruct t as [n|]; [split; discriminate|]. discriminate E.
  - tauto.
Qed.

(** A plausible value is truthy, so [!ts] tests [ts] for [null]. *)
Lemma falsy_keepPlausible NOW t :
  falsy (keepPlausible NOW t) = true <-> keepPlausible NOW t = None.
Proof.
  destruct (keepPlausible NOW t) as [v|] eqn:E; simpl; [|tauto].
  apply keepPlausible_Some in E as [-> Hp].
  apply plausible_spec in Hp as (z & [= ->] & Hz & _). simpl.
  split; [|discriminate]. intros H%Z.eqb_eq. lia.
Qed.

(** The token loop returns the entry of the first token, in the order of
    the list, that the map has. *)
Lemma firstToken_Some (m : gmap string entry) (toks : list string) (e : entry) :
  firstToken m toks = Some e <->
  exists i tok, toks !! i = Some tok /\ m !! tok = Some e /\
    forall j tok', (j < i)%nat -> toks !! j = Some tok' -> m !! tok' = None.
Proof.
  revert e. induction toks as [|t toks IH]; intros e; simpl.
  - split; [discriminate | intros (i & tok & H & _); destruct i; discriminate H].
  - destruct (m !! t) as [e0|] eqn:Ht.
    + split.
      * intros [= <-]. exists 0%nat, t. repeat split; auto. intros j ? Hj. lia.
      * intros ([|i] & tok & Hi & Hm & Hbefore).
        -- simpl in Hi. injection Hi as <-. congruence.
        -- specialize (Hbefore 0%nat t ltac:(lia) eq_refl). congruence.
    + rewrite IH. split.
      * intros (i & tok & Hi & Hm & Hbefore). exists (S i), tok.
        repeat split; auto. intros [|j] tok' Hj Hl; simpl in Hl.
        -- injection Hl as <-. exact Ht.
        -- eapply Hbefore; [|exact Hl]. lia.
      * intros ([|i] & tok & Hi & Hm & Hbefore); simpl in Hi.
        -- injection Hi as <-. congruence.
        -- exists i, tok. repeat split; auto. intros j tok' Hj Hl.
           apply (Hbefore (S j) tok'); [lia | exact Hl].
Qed.

Lemma firstToken_None (m : gmap string entry) (toks : list string) :
  firstToken m toks = None <-> forall tok, tok ∈ toks -> m !! tok = None.
Proof.
  induction toks as [|t toks IH]; simpl.
  - split; [intros _ tok H; inversion H | auto].
  - destruct (m !! t) as [e0|] eqn:Ht.
    + split; [discriminate|]. intros H. specialize (H t ltac:(left)). congruence.
    + rewrite IH. split.
      * intros H tok Hin. inversion Hin; subst; auto.
      * intros H tok Hin. apply H. by right.
Qed.

Lemma r_metaTs_None NOW ff idx f :
  r_metaTs (resolve NOW ff idx f) = None <-> noMetaTs NOW (resolve NOW ff idx f).
Proof.
  unfold noMetaTs. simpl. rewrite keepPlausible_None.
  destruct (match byBase idx !! Path.basename (abs f) with
            | Some e => Some e
            | None => firstToken (byNumericId idx)
                        (extractNumericTokens (Path.basename (abs f)))
            end) as [e|].
  - split; [intros H e' [= <-]; exact H | auto].
  - split; [intros _ e' [=] | reflexivity].
Qed.

(* --------------------------------------------------------------------- *)
(** ** The folder pattern and the mid-month instant *)
(* --------------------------------------------------------------------- *)

Lemma isDigit_digitVal c : Path.isDigit c = true -> 0 <= Path.digitVal c <= 9.
Proof.
  unfold Path.isDigit, Path.digitVal.
  rewrite andb_true_iff, !N.leb_le. lia.
Qed.

Lemma append_nil (r : string) : "" +:+ r = r.
Proof. reflexivity. Qed.

Lemma append_cons (a : ascii) (p r : string) : String a p +:+ r = String a (p +:+ r).
Proof. reflexivity. Qed.

Lemma stripPrefix_Some p s r : Path.stripPrefix p s = Some r <-> s = p +:+ r.
Proof.
  revert s. induction p as [|a p IH]; intros s; simpl.
  - rewrite append_nil. split; congruence.
  - rewrite append_cons. destruct s as [|b s]; [split; discriminate|].
    destruct (Ascii.eqb a b) eqn:E.
    + apply Ascii.eqb_eq in E as ->. rewrite IH. split; congruence.
    + apply Ascii.eqb_neq in E. split; [discriminate | congruence].
Qed.

(** A match at the start of [s] reads a folder [/media/posts/20YYMM/] or
    [/media/reels/20YYMM/] there; the year is 2000..2099 and the month
    field any two digits. *)
Lemma folderMatchAt_Some s y m :
  folderMatchAt s = Some (y, m) <->
  exists k a b c d rest,
    (k = "posts" \/ k = "reels") /\
    s = "/media/" +:+ k +:+ "/20" +:+ String a (String b (String c (String d ("/" +:+ rest)))) /\
    Path.isDigit a = true /\ Path.isDigit b = true /\
    Path.isDigit c = true /\ Path.isDigit d = true /\
    y = 2000 + 10 * Path.digitVal a + Path.digitVal b /\
    m = 10 * Path.digitVal c + Path.digitVal d.
Proof.
  unfold folderMatchAt. split.
  - destruct (Path.stripPrefix "/media/" s) as [r|] eqn:E1; [|discriminate].
    apply stripPrefix_Some in E1.
    set (after := match Path.stripPrefix "posts" r with
                  | Some r' => Some r'
                  | None => Path.stripPrefix "reels" r
                  end).
    assert (Hafter : forall r1, after = Some r1 ->
              exists k, (k = "posts" \/ k = "reels") /\ r = k +:+ r1).
    { intros r1. unfold after.
      destruct (Path.stripPrefix "posts" r) as [r'|] eqn:E2.
      - intros [= ->]. apply stripPrefix_Some in E2. eauto.
      - intros E3. apply stripPrefix_Some in E3. eauto. }
    destruct after as [r1|]; [|discriminate].
    destruct (Hafter r1 eq_refl) as (k & Hk & ->).
    destruct (Path.stripPrefix "/20" r1) as [r2|] eqn:E4; [|discriminate].
    apply stripPrefix_Some in E4.
    destruct r2 as [|a [|b [|c [|d [|sl rest]]]]]; try discriminate.
    destruct (Path.isDigit a) eqn:Da; [|discriminate].
    destruct (Path.isDigit b) eqn:Db; [|discriminate].
    destruct (Path.isDigit c) eqn:Dc; [|discriminate].
    destruct (Path.isDigit d) eqn:Dd; [|discriminate].
    destruct (Path.isSlash sl) eqn:Dsl; [|discriminate].
    apply Ascii.eqb_eq in Dsl as ->.
    simpl. intros [= <- <-]. exists k, a, b, c, d, rest.
    subst s r1. destruct Hk as [-> | ->]; repeat split; auto.
  - intros (k & a & b & c & d & rest & Hk & -> & Da & Db & Dc & Dd & -> & ->).
    destruct Hk as [-> | ->]; simpl; rewrite Da, Db, Dc, Dd; reflexivity.
Qed.

(** [folderMatch] finds a match exactly when some suffix of the path starts
    with the pattern, and then reports one of them (the leftmost). *)
Lemma folderMatch_Some s ym :
  folderMatch s = Some ym ->
  exists pre post, s = pre +:+ post /\ folderMatchAt post = Some ym.
Proof.
  induction s as [|c s IH]; simpl.
  - discriminate.
  - destruct (folderMatchAt (String c s)) eqn:E.
    + intros [= <-]. exists "", (String c s). auto.
    + intros H. destruct (IH H) as (pre & post & -> & Hm).
      exists (String c pre), post. auto.
Qed.

Lemma folderMatch_None s :
  folderMatch s = None <->
  forall pre post, s = pre +:+ post -> folderMatchAt post = None.
Proof.
  induction s as [|c s IH]; simpl.
  - split; [|reflexivity]. intros _ [|a pre] post; [|discriminate].
    rewrite append_nil. intros <-. reflexivity.
  - destruct (folderMatchAt (String c s)) eqn:E.
    + split; [discriminate|]. intros H. specialize (H "" (String c s) eq_refl). congruence.
    + rewrite IH. split.
      * intros H [|a pre] post.
        -- rewrite append_nil. intros <-. exact E.
        -- rewrite append_cons. intros [= <- ->]. apply (H pre post eq_refl).
      * intros H pre post ->. apply (H (String c pre) post eq_refl).
Qed.

Lemma folderMatch_range s y m :
  folderMatch s = Some (y, m) -> 2000 <= y <= 2099 /\ 0 <= m <= 99.
Proof.
  intros H. apply folderMatch_Some in H as (pre & post & _ & H).
  apply folderMatchAt_Some in H
    as (k & a & b & c & d & rest & _ & _ & Da & Db & Dc & Dd & -> & ->).
  apply isDigit_digitVal in Da, Db, Dc, Dd. lia.
Qed.

Lemma midMonth_table :
  forallb (fun y => forallb (midMonthAgrees y) (seqZ 1 12)) (seqZ 2000 100) = true.
Proof. vm_compute. reflexivity. Qed.

Lemma UTC_mid_month y m :
  2000 <= y <= 2099 -> 1 <= m <= 12 ->
  DateUtc.UTC y (m - 1) 15 12 0 0 = DateUtc.isoInstant y m 15 12.
Proof.
  intros Hy Hm. pose proof midMonth_table as Ht.
  rewrite forallb_forall in Ht.
  specialize (Ht y). rewrite forallb_forall in Ht.
  apply Z.eqb_eq. apply Ht.
  - apply list_elem_of_In, elem_of_seqZ. lia.
  - apply list_elem_of_In, elem_of_seqZ. lia.
Qed.

(** Outside 01..12 the month carries into the year: folder [202313] gives
    15 January 2024, folder [202300] gives 15 December 2022. *)
Example UTC_month_overflow :
  DateUtc.UTC 2023 (13 - 1) 15 12 0 0 = DateUtc.isoInstant 2024 1 15 12 /\
  DateUtc.UTC 2023 (0 - 1) 15 12 0 0 = DateUtc.isoInstant 2022 12 15 12.
Proof. split; reflexivity. Qed.

(* --------------------------------------------------------------------- *)
(** ** The index keeps the first record seen *)
(* --------------------------------------------------------------------- *)

Lemma setIfAbsent_lookup k e (m : gmap string entry) k' :
  setIfAbsent k e m !! k' =
  match m !! k' with
  | Some x => Some x
  | None => if decide (k' = k) then Some e else None
  end.
Proof.
  unfold setIfAbsent. destruct (m !! k) as [x|] eqn:Ek.
  - destruct (m !! k') as [x'|] eqn:Ek'; [reflexivity|].
    destruct (decide (k' = k)) as [->|]; [congruence | reflexivity].
  - destruct (decide (k' = k)) as [->|Hne].
    + rewrite lookup_insert_eq, Ek. reflexivity.
    + rewrite lookup_insert_ne by congruence. by destruct (m !! k').
Qed.

Lemma fold_setIfAbsent_lookup e ks (m : gmap string entry) k' :
  foldl (fun m k => setIfAbsent k e m) m ks !! k' =
  match m !! k' with
  | Some x => Some x
  | None => if decide (k' ∈ ks) then Some e else None
  end.
Proof.
  revert m. induction ks as [|k ks IH]; intros m; simpl.
  - destruct (m !! k'); [reflexivity|].
    destruct (decide (k' ∈ [])) as [H|]; [by apply elem_of_nil in H | reflexivity].
  - rewrite IH, setIfAbsent_lookup. destruct (m !! k'); [reflexivity|].
    destruct (decide (k' = k)) as [->|Hne].
    + destruct (decide (k ∈ k :: ks)) as [|Hn]; [reflexivity|].
      exfalso. apply Hn. left.
    + destruct (decide (k' ∈ ks)) as [Hin|Hnin];
        destruct (decide (k' ∈ k :: ks)) as [Hin'|Hnin']; try reflexivity.
      * exfalso. apply Hnin'. by right.
      * exfalso. apply elem_of_cons in Hin' as [?|?]; contradiction.
Qed.

Lemma indexRecord_byBase idx rec b :
  byBase (indexRecord idx rec) !! b =
  match byBase idx !! b with
  | Some x => Some x
  | None => if decide (b ∈ rec_uris rec) then Some (entryOfRecord rec) else None
  end.
Proof.
  unfold indexRecord. fold (entryOfRecord rec).
  generalize (entryOfRecord rec). intros e.
  revert idx. induction (rec_uris rec) as [|u us IH]; intros idx; simpl.
  - destruct (byBase idx !! b); [reflexivity|].
    destruct (decide (b ∈ [])) as [H|]; [by apply elem_of_nil in H | reflexivity].
  - rewrite IH. simpl. rewrite setIfAbsent_lookup.
    destruct (byBase idx !! b); [reflexivity|].
    destruct (decide (b = u)) as [->|Hne].
    + destruct (decide (u ∈ u :: us)) as [|Hn]; [reflexivity|].
      exfalso. apply Hn. left.
    + destruct (decide (b ∈ us)) as [Hin|Hnin];
        destruct (decide (b ∈ u :: us)) as [Hin'|Hnin']; try reflexivity.
      * exfalso. apply Hnin'. by right.
      * exfalso. apply elem_of_cons in Hin' as [?|?]; contradiction.
Qed.

Lemma indexRecord_byNumericId idx rec tok :
  byNumericId (indexRecord idx rec) !! tok =
  match byNumericId idx !! tok with
  | Some x => Some x
  | None => if decide (tok ∈ recordTokens rec) then Some (entryOfRecord rec) else None
  end.
Proof.
  unfold indexRecord, recordTokens. fold (entryOfRecord rec).
  generalize (entryOfRecord rec). intros e.
  revert idx. induction (rec_uris rec) as [|u us IH]; intros idx; simpl.
  - destruct (byNumericId idx !! tok); [reflexivity|].
    destruct (decide (tok ∈ [])) as [H|]; [by apply elem_of_nil in H | reflexivity].
  - rewrite IH. simpl. rewrite fold_setIfAbsent_lookup.
    destruct (byNumericId idx !! tok); [reflexivity|].
    destruct (decide (tok ∈ extractNumericTokens u)) as [Hu|Hu].
    + destruct (decide (tok ∈ _ ++ _)) as [|Hn]; [reflexivity|].
      exfalso. apply Hn, elem_of_app. by left.
    + destruct (decide (tok ∈ concat (extractNumericTokens <$> us))) as [Hin|Hnin];
        destruct (decide (tok ∈ _ ++ _)) as [Hin'|Hnin']; try reflexivity.
      * exfalso. apply Hnin', elem_of_app. by right.
      * exfalso. apply elem_of_app in Hin' as [?|?]; contradiction.
Qed.

Lemma foldl_concat {A B} (g : A -> B -> A) (a : A) (ls : list (list B)) :
  foldl (foldl g) a ls = foldl g a (concat ls).
Proof.
  revert a. induction ls as [|l ls IH]; intros a; simpl; [reflexivity|].
  by rewrite IH, foldl_app.
Qed.

(** Indexing records on top of an index: what was there stays, a new key
    gets the first of the records that brings it. *)
Lemma foldl_indexRecord_lookup recs idx :
  (forall b, byBase (foldl indexRecord idx recs) !! b =
     match byBase idx !! b with
     | Some x => Some x
     | None => entryOfRecord <$> head (filter (fun rec => b ∈ rec_uris rec) recs)
     end) /\
  (forall tok, byNumericId (foldl indexRecord idx recs) !! tok =
     match byNumericId idx !! tok with
     | Some x => Some x
     | None => entryOfRecord <$> head (filter (fun rec => tok ∈ recordTokens rec) recs)
     end).
Proof.
  revert idx. induction recs as [|rec recs IH]; intros idx; simpl.
  - split; intros k; [destruct (byBase idx !! k) | destruct (byNumericId idx !! k)];
      reflexivity.
  - destruct (IH (indexRecord idx rec)) as [IHb IHn]. split.
    + intros b. rewrite IHb, indexRecord_byBase, filter_cons.
      destruct (byBase idx !! b); [reflexivity|].
      destruct (decide (b ∈ rec_uris rec)); reflexivity.
    + intros tok. rewrite IHn, indexRecord_byNumericId, filter_cons.
      destruct (byNumericId idx !! tok); [reflexivity|].
      destruct (decide (tok ∈ recordTokens rec)); reflexivity.
Qed.

(** X5.  First seen wins: a basename is indexed with the timestamp and
    caption of the first record, in the order of the files and of their
    records, that refers to it; a numeric token with those of the first
    record one of whose basenames contains it. *)
Lemma buildMetaIndex_first_seen files :
  (forall b,
     byBase (buildMetaIndex files) !! b
     = entryOfRecord <$> head (filter (fun rec => b ∈ rec_uris rec) (concat files))) /\
  (forall tok,
     byNumericId (buildMetaIndex files) !! tok
     = entryOfRecord <$> head (filter (fun rec => tok ∈ recordTokens rec) (concat files))).
Proof.
  unfold buildMetaIndex. rewrite foldl_concat.
  destruct (foldl_indexRecord_lookup (concat files) emptyIndex) as [Hb Hn]. split.
  - intros b. rewrite Hb. simpl. by rewrite lookup_empty.
  - intros tok. rewrite Hn. simpl. by rewrite lookup_empty.
Qed.

(* --------------------------------------------------------------------- *)
(** ** The fields of a resolution in terms of the inputs *)
(* --------------------------------------------------------------------- *)

Section ResolveFacts.

Variable NOW : Z.
Variable ff : bool.
Variable idx : MetaIndex.
Variable f : diskFile.

Local Abbreviation r := (resolve NOW ff idx f).
Local Abbreviation base := (Path.basename (abs f)).

Lemma r_meta_eq :
  r_meta r = match byBase idx !! base with
             | Some e => Some e
             | None => firstToken (byNumericId idx) (extractNumericTokens base)
             end.
Proof. reflexivity. Qed.

Lemma r_fuzzyTried_true : r_fuzzyTried r = true <-> byBase idx !! base = None.
Proof.
  simpl. destruct (byBase idx !! Path.basename (abs f)).
  - split; discriminate.
  - tauto.
Qed.

Lemma r_metaTs_eq :
  r_metaTs r = keepPlausible NOW (match r_meta r with
                                  | Some e => e_ts e
                                  | None => None
                                  end).
Proof. reflexivity. Qed.

Lemma r_probeCalled_eq :
  r_probeCalled r = falsy (r_metaTs r) && isVideo (abs f) && ff.
Proof. reflexivity. Qed.

Lemma r_probeCalled_true :
  r_probeCalled r = true <->
  r_metaTs r = None /\ isVideo (abs f) = true /\ ff = true.
Proof.
  rewrite r_probeCalled_eq, !andb_true_iff, r_metaTs_eq, falsy_keepPlausible.
  tauto.
Qed.

Lemma r_probeTs_eq :
  r_probeTs r = if r_probeCalled r then keepPlausible NOW (probeTime f) else None.
Proof. reflexivity. Qed.

Lemma r_folderTs_eq : r_folderTs r = keepPlausible NOW (tsFromFolder (abs f)).
Proof. reflexivity. Qed.

Lemma r_ts_eq :
  r_ts r = match r_metaTs r, r_probeTs r, r_folderTs r with
           | Some t, _, _ => t
           | None, Some t, _ => t
           | None, None, Some t => t
           | None, None, None => Finite (mtimeMs f)
           end.
Proof.
  change (r_ts r) with
    (default (Finite (mtimeMs f))
       (coalesce (r_metaTs r) (coalesce (r_probeTs r) (r_folderTs r)))).
  destruct (r_metaTs r), (r_probeTs r), (r_folderTs r); reflexivity.
Qed.

Lemma r_caption_eq :
  r_caption r = match r_meta r with Some e => e_caption e | None => "" end.
Proof. reflexivity. Qed.

(** The probe contributes exactly when it is called and answers a
    plausible time. *)
Lemma r_probeTs_Some t :
  r_probeTs r = Some t <->
  r_probeCalled r = true /\ probeTime f = Some t /\ plausible NOW (probeTime f) = true.
Proof.
  rewrite r_probeTs_eq. destruct (r_probeCalled r).
  - rewrite keepPlausible_Some. tauto.
  - split; [discriminate | intros [[=] _]].
Qed.

Lemma r_probeTs_None :
  r_probeTs r = None <->
  r_probeCalled r = false \/ plausible NOW (probeTime f) = false.
Proof.
  rewrite r_probeTs_eq. destruct (r_probeCalled r).
  - rewrite keepPlausible_None. split; [auto | intros [[=] | ?]; auto].
  - split; auto.
Qed.

End ResolveFacts.

(* --------------------------------------------------------------------- *)
(** ** The cascade *)
(* --------------------------------------------------------------------- *)

Lemma r_metaTs_Some NOW ff idx f t :
  r_metaTs (resolve NOW ff idx f) = Some t <->
  exists e, r_meta (resolve NOW ff idx f) = Some e /\
            e_ts e = Some t /\ plausible NOW (e_ts e) = true.
Proof.
  rewrite r_metaTs_eq, keepPlausible_Some.
  destruct (r_meta (resolve NOW ff idx f)) as [e|].
  - split; [intros [? ?]; eauto | intros (e' & [= <-] & ? & ?); auto].
  - split; [intros [[=] _] | intros (e' & [=] & _)].
Qed.

(** C1, refuted as stated.  In the sample export the picture
    [17900000000000001.jpg] has an exact entry without timestamp; its numeric
    token is indexed with a plausible timestamp (2020-09-13), yet the token
    lookup does not run and the picture gets its mtime. *)
Lemma cascade_skips_fuzzy_counterexample :
  let r := resolve Sample.NOW true Sample.index Sample.picture in
  plausible Sample.NOW (exactTs Sample.index Sample.picture) = false /\
  firstToken (byNumericId Sample.index)
    (extractNumericTokens (Path.basename (abs Sample.picture)))
    = Some (Entry (Some (Finite 1600000000000)) "first") /\
  plausible Sample.NOW (Some (Finite 1600000000000)) = true /\
  r_fuzzyTried r = false /\
  r_ts r = Finite (mtimeMs Sample.picture) /\
  ~ fuzzy_after_implausible_exact.
Proof.
  assert (H1 : plausible Sample.NOW (exactTs Sample.index Sample.picture) = false)
    by (vm_compute; reflexivity).
  assert (H2 : r_fuzzyTried (resolve Sample.NOW true Sample.index Sample.picture) = false)
    by (vm_compute; reflexivity).
  split; [exact H1|].
  split; [vm_compute; reflexivity|].
  split; [vm_compute; reflexivity|].
  split; [exact H2|].
  split; [vm_compute; reflexivity|].
  intros H. specialize (H Sample.NOW true Sample.index Sample.picture H1).
  rewrite H2 in H. discriminate H.
Qed.

(** C1, amended.  The exact lookup always runs.  The token lookup runs
    exactly when the basename has no entry at all, and then takes the entry
    of the first token, in the order of the basename, that is indexed.  The
    probe is called exactly when the matched entry (if any) has no plausible
    timestamp, the file is a video and ffprobe is present.  The value
    selected is that of the first stage, in the order exact, token, probe,
    folder, that gave a plausible timestamp, and the mtime when none did. *)
Theorem cascade_order NOW ff idx f :
  let r := resolve NOW ff idx f in
  let base := Path.basename (abs f) in
  let toks := extractNumericTokens base in
  (r_fuzzyTried r = true <-> byBase idx !! base = None) /\
  (forall e, byBase idx !! base = None ->
     (r_meta r = Some e <->
      exists i tok, toks !! i = Some tok /\ byNumericId idx !! tok = Some e /\
        forall j tok', (j < i)%nat -> toks !! j = Some tok' ->
                       byNumericId idx !! tok' = None)) /\
  (r_probeCalled r = true <->
     noMetaTs NOW r /\ isVideo (abs f) = true /\ ff = true) /\
  match source r with
  | StExact =>
      exists e, byBase idx !! base = Some e /\
                plausible NOW (e_ts e) = true /\ e_ts e = Some (r_ts r)
  | StFuzzy =>
      byBase idx !! base = None /\
      exists e, firstToken (byNumericId idx) toks = Some e /\
                plausible NOW (e_ts e) = true /\ e_ts e = Some (r_ts r)
  | StProbe =>
      noMetaTs NOW r /\ r_probeCalled r = true /\
      plausible NOW (probeTime f) = true /\ probeTime f = Some (r_ts r)
  | StFolder =>
      noMetaTs NOW r /\
      (r_probeCalled r = false \/ plausible NOW (probeTime f) = false) /\
      plausible NOW (tsFromFolder (abs f)) = true /\
      tsFromFolder (abs f) = Some (r_ts r)
  | StMtime =>
      noMetaTs NOW r /\
      (r_probeCalled r = false \/ plausible NOW (probeTime f) = false) /\
      plausible NOW (tsFromFolder (abs f)) = false /\
      r_ts r = Finite (mtimeMs f)
  end.
Proof.
  intros r base toks.
  split; [apply r_fuzzyTried_true|].
  split.
  { intros e Hnone. subst r. rewrite r_meta_eq. fold base. rewrite Hnone.
    apply firstToken_Some. }
  split.
  { subst r. rewrite r_probeCalled_true, r_metaTs_None. tauto. }
  unfold source. subst r. rewrite r_ts_eq.
  destruct (r_metaTs (resolve NOW ff idx f)) as [t|] eqn:Em.
  - apply r_metaTs_Some in Em as (e & He & Hts & Hp).
    rewrite r_meta_eq in He. fold base in He.
    destruct (r_fuzzyTried (resolve NOW ff idx f)) eqn:Ef.
    + apply r_fuzzyTried_true in Ef. fold base in Ef. rewrite Ef in He. eauto.
    + destruct (byBase idx !! base) as [e'|] eqn:Eb.
      * injection He as ->. eauto.
      * assert (r_fuzzyTried (resolve NOW ff idx f) = true)
          by (apply r_fuzzyTried_true; exact Eb).
        congruence.
  - pose proof Em as Hno. apply r_metaTs_None in Hno.
    destruct (r_probeTs (resolve NOW ff idx f)) as [t|] eqn:Ep.
    + apply r_probeTs_Some in Ep as (Hc & Ht & Hp). auto.
    + apply r_probeTs_None in Ep.
      destruct (r_folderTs (resolve NOW ff idx f)) as [t|] eqn:Efo;
        rewrite r_folderTs_eq in Efo.
      * apply keepPlausible_Some in Efo as [? ?]. auto.
      * apply keepPlausible_None in Efo. auto.
Qed.

(* --------------------------------------------------------------------- *)
(** ** Plausibility of what the stages contribute *)
(* --------------------------------------------------------------------- *)

Lemma keepPlausible_ok NOW t :
  keepPlausible NOW t = None \/ plausible NOW (keepPlausible NOW t) = true.
Proof.
  unfold keepPlausible. destruct (plausible NOW t) eqn:E; auto.
Qed.

(** C2.  After the three filters every candidate of the stages before the
    mtime is [null] or plausible; the resolved timestamp is therefore either
    the mtime of the file, taken because all of them are [null], or a finite
    number between 2010-01-01T00:00:00Z and three days after the run.  So a
    resolved timestamp that is 0, before 2010 or more than three days ahead
    is the mtime. *)
Theorem resolved_plausible_unless_mtime NOW ff idx f :
  let r := resolve NOW ff idx f in
  Forall (fun c => c = None \/ plausible NOW c = true)
         [r_metaTs r; r_probeTs r; r_folderTs r] /\
  ((source r = StMtime /\ r_ts r = Finite (mtimeMs f)) \/
   (source r <> StMtime /\
    exists z, r_ts r = Finite z /\ 1262304000000 <= z <= NOW + 259200000)) /\
  (plausible NOW (Some (r_ts r)) = true \/
   (source r = StMtime /\ r_ts r = Finite (mtimeMs f))).
Proof.
  intros r.
  assert (Hm : r_metaTs r = None \/ plausible NOW (r_metaTs r) = true).
  { subst r. rewrite r_metaTs_eq. apply keepPlausible_ok. }
  assert (Hp : r_probeTs r = None \/ plausible NOW (r_probeTs r) = true).
  { subst r. rewrite r_probeTs_eq. destruct (r_probeCalled _); auto.
    apply keepPlausible_ok. }
  assert (Hf : r_folderTs r = None \/ plausible NOW (r_folderTs r) = true).
  { subst r. rewrite r_folderTs_eq. apply keepPlausible_ok. }
  split.
  { constructor; [exact Hm|]. constructor; [exact Hp|].
    constructor; [exact Hf|]. constructor. }
  assert (Hcases :
    (source r = StMtime /\ r_ts r = Finite (mtimeMs f)) \/
    (source r <> StMtime /\ plausible NOW (Some (r_ts r)) = true)).
  { unfold source. subst r. rewrite r_ts_eq.
    destruct (r_metaTs _) as [t|].
    - right. destruct Hm as [[=]|Hm]. split; [|exact Hm].
      destruct (r_fuzzyTried _); discriminate.
    - destruct (r_probeTs _) as [t|].
      + right. destruct Hp as [[=]|Hp]. split; [discriminate | exact Hp].
      + destruct (r_folderTs _) as [t|].
        * right. destruct Hf as [[=]|Hf]. split; [discriminate | exact Hf].
        * left. auto. }
  split.
  - destruct Hcases as [?|[Hs Hpl]]; [left; assumption|right].
    split; [exact Hs|].
    apply plausible_spec in Hpl as (z & [= Hz] & Hb). eauto.
  - destruct Hcases as [?|[_ Hpl]]; [right; assumption | left; exact Hpl].
Qed.

(** The mtime itself is not filtered: a file without metadata, outside the
    dated folders, whose mtime is the epoch, resolves to 0. *)
Example mtime_not_filtered :
  let f := {| abs := "/export/media/other/scan.png"; fid := "scan-01020304";
              mtimeMs := 0; probeTime := None |} in
  r_ts (resolve Sample.NOW true Sample.index f) = Finite 0 /\
  source (resolve Sample.NOW true Sample.index f) = StMtime.
Proof. vm_compute. split; reflexivity. Qed.

(* --------------------------------------------------------------------- *)
(** ** Exact basename match *)
(* --------------------------------------------------------------------- *)

(** C3, refuted as stated.  [holiday.jpg] has an exact entry dated
    1970-01-01T00:00:01Z; the filter rejects it and the picture is dated by
    its folder, 2021-05-15T12:00:00Z. *)
Lemma exact_entry_rejected_counterexample :
  byBase Sample.index !! Path.basename (abs Sample.holiday)
    = Some (Entry (Some (Finite 1000)) "old") /\
  r_ts (resolve Sample.NOW true Sample.index Sample.holiday)
    = Finite (DateUtc.isoInstant 2021 5 15 12) /\
  ~ exact_entry_always_wins.
Proof.
  assert (H1 : byBase Sample.index !! Path.basename (abs Sample.holiday)
               = Some (Entry (Some (Finite 1000)) "old"))
    by (vm_compute; reflexivity).
  assert (H2 : r_ts (resolve Sample.NOW true Sample.index Sample.holiday)
               = Finite (DateUtc.isoInstant 2021 5 15 12))
    by (vm_compute; reflexivity).
  split; [exact H1|]. split; [exact H2|].
  intros H. specialize (H Sample.NOW true Sample.index Sample.holiday _ H1).
  rewrite H2 in H. vm_compute in H. discriminate H.
Qed.

(** C3, amended.  When the basename has an exact entry whose timestamp is
    plausible, the resolved timestamp is that timestamp: the token lookup and
    the probe do not run, and every file with the same basename, whatever
    its folder, probe answer and mtime, resolves to the same value. *)
Theorem exact_plausible_entry_wins NOW ff idx f e :
  byBase idx !! Path.basename (abs f) = Some e ->
  plausible NOW (e_ts e) = true ->
  let r := resolve NOW ff idx f in
  e_ts e = Some (r_ts r) /\
  source r = StExact /\
  r_fuzzyTried r = false /\
  r_probeCalled r = false /\
  forall f', Path.basename (abs f') = Path.basename (abs f) ->
             r_ts (resolve NOW ff idx f') = r_ts r.
Proof.
  intros Hb Hp r.
  assert (Hgen : forall g, Path.basename (abs g) = Path.basename (abs f) ->
            r_metaTs (resolve NOW ff idx g) = e_ts e /\
            r_fuzzyTried (resolve NOW ff idx g) = false).
  { intros g Hg. split.
    - rewrite r_metaTs_eq, r_meta_eq, Hg, Hb. unfold keepPlausible. by rewrite Hp.
    - destruct (r_fuzzyTried (resolve NOW ff idx g)) eqn:E; [|reflexivity].
      apply r_fuzzyTried_true in E. rewrite Hg in E. congruence. }
  apply plausible_spec in Hp as (z & Hz & Hlo & _).
  assert (Hts : forall g, Path.basename (abs g) = Path.basename (abs f) ->
            r_ts (resolve NOW ff idx g) = Finite z).
  { intros g Hg. destruct (Hgen g Hg) as [Hm _].
    rewrite r_ts_eq, Hm, Hz. reflexivity. }
  destruct (Hgen f eq_refl) as [Hm Hfz].
  subst r. repeat split.
  - rewrite (Hts f eq_refl). exact Hz.
  - unfold source. rewrite Hm, Hz, Hfz. reflexivity.
  - exact Hfz.
  - rewrite r_probeCalled_eq, Hm, Hz. simpl.
    destruct (z =? 0) eqn:E; [|reflexivity].
    apply Z.eqb_eq in E. lia.
  - intros f' Hf'. rewrite (Hts f' Hf'), (Hts f eq_refl). reflexivity.
Qed.

(** C3, at the sample: the reel [clip_17900000000000001.mp4] has an exact
    entry dated 2020-09-13T12:26:40Z. *)
Lemma exact_plausible_entry_wins_witness :
  let r := resolve Sample.NOW true Sample.index Sample.clip in
  e_ts (Entry (Some (Finite 1600000000000)) "first") = Some (r_ts r) /\
  source r = StExact /\
  r_fuzzyTried r = false /\
  r_probeCalled r = false /\
  forall f', Path.basename (abs f') = Path.basename (abs Sample.clip) ->
             r_ts (resolve Sample.NOW true Sample.index f') = r_ts r.
Proof.
  apply (exact_plausible_entry_wins Sample.NOW true Sample.index Sample.clip
           (Entry (Some (Finite 1600000000000)) "first")).
  - vm_compute. reflexivity.
  - vm_compute. reflexivity.
Defined.

(* --------------------------------------------------------------------- *)
(** ** Folder-derived date and mtime *)
(* --------------------------------------------------------------------- *)

(** C4, refuted as stated.  The reel in [media/reels/202305/] has no
    metadata match and is dated by its container (2023-05-01T10:00:00Z), not
    by the folder; the picture in [media/posts/200905/] is dated by its
    mtime because the folder date is before 2010; the video in
    [media/other/] is dated by its container, not by its mtime. *)
Lemma folder_date_counterexample :
  r_meta (resolve Sample.NOW true Sample.index Sample.reel) = None /\
  folderMatch (Path.slashes (abs Sample.reel)) = Some (2023, 5) /\
  r_ts (resolve Sample.NOW true Sample.index Sample.reel) = Finite 1682935200000 /\
  DateUtc.isoInstant 2023 5 15 12 = 1684152000000 /\
  r_meta (resolve Sample.NOW true Sample.index Sample.early) = None /\
  folderMatch (Path.slashes (abs Sample.early)) = Some (2009, 5) /\
  r_ts (resolve Sample.NOW true Sample.index Sample.early)
    = Finite (mtimeMs Sample.early) /\
  ~ folder_date_always /\
  ~ mtime_without_folder.
Proof.
  assert (R1 : r_meta (resolve Sample.NOW true Sample.index Sample.reel) = None)
    by (vm_compute; reflexivity).
  assert (R2 : folderMatch (Path.slashes (abs Sample.reel)) = Some (2023, 5))
    by (vm_compute; reflexivity).
  assert (R3 : r_ts (resolve Sample.NOW true Sample.index Sample.reel)
               = Finite 1682935200000) by (vm_compute; reflexivity).
  split; [exact R1|]. split; [exact R2|]. split; [exact R3|].
  split; [vm_compute; reflexivity|].
  split; [vm_compute; reflexivity|].
  split; [vm_compute; reflexivity|].
  split; [vm_compute; reflexivity|].
  split.
  - intros H.
    specialize (H Sample.NOW true Sample.index Sample.reel 2023 5 R1 R2 ltac:(lia)).
    rewrite R3 in H. vm_compute in H. discriminate H.
  - intros H.
    assert (P1 : r_meta (resolve Sample.NOW true Sample.index Sample.party) = None)
      by (vm_compute; reflexivity).
    assert (P2 : folderMatch (Path.slashes (abs Sample.party)) = None)
      by (vm_compute; reflexivity).
    specialize (H Sample.NOW true Sample.index Sample.party P1 P2).
    vm_compute in H. discriminate H.
Qed.

Lemma tsFromFolder_eq absPath :
  tsFromFolder absPath =
  match folderMatch (Path.slashes absPath) with
  | Some (y, m) => Some (Finite (DateUtc.UTC y (m - 1) 15 12 0 0))
  | None => None
  end.
Proof.
  unfold tsFromFolder. destruct (folderMatch _) as [[y m]|]; reflexivity.
Qed.

(** C4, amended.  Take a file with no metadata match for which the probe
    contributes nothing (it is an image, ffprobe is absent, or the container
    time is missing or implausible).  If its path has a folder
    [media/posts/20YYMM/] or [media/reels/20YYMM/], then for the first such
    folder and a month 01..12: when the instant 20YY-MM-15T12:00:00Z is
    plausible the resolved timestamp is exactly that instant, otherwise it
    is the mtime.  If the path has no such folder, it is the mtime. *)
Theorem folder_date_fallback NOW ff idx f :
  byBase idx !! Path.basename (abs f) = None ->
  (forall tok, tok ∈ extractNumericTokens (Path.basename (abs f)) ->
               byNumericId idx !! tok = None) ->
  isVideo (abs f) && ff && plausible NOW (probeTime f) = false ->
  let r := resolve NOW ff idx f in
  match folderMatch (Path.slashes (abs f)) with
  | Some (y, m) =>
      1 <= m <= 12 ->
      if plausible NOW (Some (Finite (DateUtc.isoInstant y m 15 12)))
      then r_ts r = Finite (DateUtc.isoInstant y m 15 12) /\ source r = StFolder
      else r_ts r = Finite (mtimeMs f) /\ source r = StMtime
  | None => r_ts r = Finite (mtimeMs f) /\ source r = StMtime
  end.
Proof.
  intros Hb Htok Hprobe r.
  assert (Hmeta : r_meta r = None).
  { subst r. rewrite r_meta_eq, Hb. by apply firstToken_None. }
  assert (Hm : r_metaTs r = None).
  { subst r. rewrite r_metaTs_eq, Hmeta. reflexivity. }
  assert (Hp : r_probeTs r = None).
  { subst r. apply r_probeTs_None.
    rewrite r_probeCalled_eq, Hm. simpl.
    rewrite !andb_false_iff in Hprobe. rewrite andb_false_iff. tauto. }
  assert (Hts : r_ts r = default (Finite (mtimeMs f)) (r_folderTs r)).
  { subst r. rewrite r_ts_eq, Hm, Hp. by destruct (r_folderTs _). }
  assert (Hsrc : source r = match r_folderTs r with
                            | Some _ => StFolder
                            | None => StMtime
                            end).
  { unfold source. rewrite Hm, Hp. reflexivity. }
  assert (Hfo : r_folderTs r = keepPlausible NOW (tsFromFolder (abs f)))
    by reflexivity.
  rewrite tsFromFolder_eq in Hfo.
  destruct (folderMatch (Path.slashes (abs f))) as [[y m]|] eqn:Ematch.
  - intros Hmonth.
    destruct (folderMatch_range _ _ _ Ematch) as [Hy _].
    rewrite (UTC_mid_month y m Hy Hmonth) in Hfo.
    unfold keepPlausible in Hfo.
    destruct (plausible NOW (Some (Finite (DateUtc.isoInstant y m 15 12))));
      rewrite Hts, Hsrc, Hfo; auto.
  - rewrite Hts, Hsrc, Hfo. auto.
Qed.

(** C4, at the sample: a picture without metadata in [media/posts/202305/]
    is dated 2023-05-15T12:00:00Z. *)
Lemma folder_date_fallback_witness :
  r_ts (resolve Sample.NOW true Sample.index Sample.corrupt)
    = Finite (DateUtc.isoInstant 2023 5 15 12) /\
  source (resolve Sample.NOW true Sample.index Sample.corrupt) = StFolder.
Proof.
  assert (Hmonth : 1 <= 5 <= 12) by lia.
  revert Hmonth.
  apply (folder_date_fallback Sample.NOW true Sample.index Sample.corrupt).
  - vm_compute. reflexivity.
  - intros tok Htok. vm_compute in Htok. inversion Htok.
  - vm_compute. reflexivity.
Defined.

(* --------------------------------------------------------------------- *)
(** ** Caption *)
(* --------------------------------------------------------------------- *)

(** The job: nothing when a read fails, else the conversion after the
    container-time query. *)
Lemma task_eq T FORCE NOW ff idx f w :
  task T FORCE NOW ff idx f w
  = if readable T f w
    then convert T FORCE f (resolve NOW ff idx f) (queried NOW ff idx f w)
    else (None, w).
Proof.
  unfold task, readable, queried, timeQuery, mbind, M_bind, bind, ret,
    hashFile, stat, ffprobeCreationTime.
  destruct (hashed T (trace w) (abs f)); [|reflexivity].
  cbn [negb andb]. cbv beta.
  destruct (statted T (trace w) (abs f)); [|reflexivity].
  cbn [negb]. cbv beta.
  destruct (r_probeCalled (resolve NOW ff idx f)); [reflexivity|].
  rewrite app_nil_r. by destruct w.
Qed.

Lemma convert_item T FORCE f r w it w' :
  convert T FORCE f r w = (Some it, w') ->
  validTime (r_ts r) = true /\
  ((isImage (abs f) = true /\ it = mkItem Image f r) \/
   (isImage (abs f) = false /\ isVideo (abs f) = true /\
    it = mkItem Video f r)).
Proof.
  unfold convert. intros H.
  destruct (validTime (r_ts r)); cbn [negb] in H; [|discriminate H].
  split; [reflexivity|].
  unfold mbind, M_bind, bind, ret in H.
  destruct (isImage (abs f)).
  - destruct (processImage T FORCE (abs f) (imgFull (fid f)) (imgThumb (fid f)) w)
      as [[] w1]; [|discriminate H].
    injection H as <- <-. auto.
  - destruct (isVideo (abs f)); [|discriminate H].
    destruct (processVideo T FORCE (abs f) (vidMp4 (fid f)) (vidPoster (fid f)) w)
      as [[] w1]; [|discriminate H].
    injection H as <- <-. auto.
Qed.

(** Whatever a job pushes is the entry built from the resolution. *)
Lemma task_item T FORCE NOW ff idx f w it w' :
  task T FORCE NOW ff idx f w = (Some it, w') ->
  validTime (r_ts (resolve NOW ff idx f)) = true /\
  ((isImage (abs f) = true /\ it = mkItem Image f (resolve NOW ff idx f)) \/
   (isImage (abs f) = false /\ isVideo (abs f) = true /\
    it = mkItem Video f (resolve NOW ff idx f))).
Proof.
  rewrite task_eq. destruct (readable T f w); [|discriminate].
  apply convert_item.
Qed.


(** C10.  When the basename has an exact entry, or has none and one of its
    numeric tokens is indexed (the first such token decides), the caption of
    the file and of the manifest entry pushed for it is the caption of that
    entry.  This holds also when the timestamp of the entry is not plausible;
    the timestamp then comes from the probe, the folder or the mtime. *)
Theorem caption_from_matched_entry NOW ff idx f e :
  (byBase idx !! Path.basename (abs f) = Some e \/
   (byBase idx !! Path.basename (abs f) = None /\
    firstToken (byNumericId idx)
      (extractNumericTokens (Path.basename (abs f))) = Some e)) ->
  let r := resolve NOW ff idx f in
  r_caption r = e_caption e /\
  (forall T FORCE w it w',
     task T FORCE NOW ff idx f w = (Some it, w') ->
     it_caption it = e_caption e /\ it_ts it = r_ts r) /\
  (plausible NOW (e_ts e) = false ->
   r_metaTs r = None /\
   (source r = StProbe \/ source r = StFolder \/ source r = StMtime)).
Proof.
  intros Hmatch r.
  assert (Hmeta : r_meta r = Some e).
  { subst r. rewrite r_meta_eq.
    destruct Hmatch as [-> | [-> ->]]; reflexivity. }
  assert (Hcap : r_caption r = e_caption e).
  { subst r. rewrite r_caption_eq, Hmeta. reflexivity. }
  split; [exact Hcap|]. split.
  - intros T FORCE w it w' Ht.
    apply task_item in Ht as [_ [[_ ->] | (_ & _ & ->)]]; simpl; auto.
  - intros Himp.
    assert (Hm : r_metaTs r = None).
    { subst r. rewrite r_metaTs_eq, Hmeta. by apply keepPlausible_None. }
    split; [exact Hm|]. unfold source. rewrite Hm.
    destruct (r_probeTs r), (r_folderTs r); auto.
Qed.

(** C10, at the sample: [holiday.jpg] takes the caption of its entry, dated
    1970, and the date of its folder. *)
Lemma caption_from_matched_entry_witness :
  let r := resolve Sample.NOW true Sample.index Sample.holiday in
  plausible Sample.NOW (Some (Finite 1000)) = false /\
  r_caption r = "old" /\
  source r = StFolder /\
  (forall T FORCE w it w',
     task T FORCE Sample.NOW true Sample.index Sample.holiday w = (Some it, w') ->
     it_caption it = "old" /\ it_ts it = r_ts r).
Proof.
  pose proof (caption_from_matched_entry Sample.NOW true Sample.index
                Sample.holiday (Entry (Some (Finite 1000)) "old")) as H.
  assert (Hmatch : byBase Sample.index !! Path.basename (abs Sample.holiday)
                   = Some (Entry (Some (Finite 1000)) "old"))
    by (vm_compute; reflexivity).
  destruct (H (or_introl Hmatch)) as (Hcap & Htask & _).
  cbv zeta.
  split; [vm_compute; reflexivity|].
  split; [exact Hcap|].
  split; [vm_compute; reflexivity|].
  exact Htask.
Defined.

(* ===================================================================== *)
(** * Properties of the processors *)
(* ===================================================================== *)

Lemma rejection_None msg r : rejection msg r = None <-> r = Exit0.
Proof. destruct r; simpl; split; congruence. Qed.

Lemma extends_refl w : extends w w [] [].
Proof. unfold extends. by rewrite !app_nil_r. Qed.

Lemma extends_trans w1 w2 w3 n1 n2 l1 l2 :
  extends w1 w2 n1 l1 -> extends w2 w3 n2 l2 -> extends w1 w3 (n1 ++ n2) (l1 ++ l2).
Proof.
  unfold extends. intros [-> ->] [-> ->]. by rewrite !app_assoc.
Qed.

Section ProcessorFacts.

Variable T : tools.
Variable FORCE : bool.

Lemma tryMakePoster_spec frameSrc jpg w :
  exists b w' new,
    tryMakePoster T frameSrc jpg w = (b, w') /\
    extends w w' new [] /\ Forall isPosterEvent new /\
    disk w ⊆ disk w' /\
    (b = true -> jpg ∈ disk w').
Proof.
  unfold tryMakePoster, ffmpegPoster, makeSolidPoster. run_io.
  destruct (run T (trace w) (CallPoster frameSrc jpg)) eqn:R1; simpl;
    [|destruct (run T _ (CallSolidPoster jpg)) eqn:R2; simpl ..];
    eexists _, _, _; (split; [reflexivity|]); (split; [solve_extends|]);
    (split; [simpl; repeat constructor|]); simpl;
    (split; [set_solver|]); try discriminate; intros _; set_solver.
Qed.

Lemma videoChain_outcome src out w :
  exists ok w' new logs,
    videoChain T src out w = (ok, w') /\
    extends w w' new logs /\
    chainOutcome src out new ok logs /\
    disk w ⊆ disk w' /\
    (ok = true -> out ∈ disk w').
Proof.
  unfold videoChain, transcode, remux, synth. run_io.
  destruct (run T (trace w) (CallTranscode src out)) eqn:R1; simpl;
    [|destruct (run T _ (CallRemux src out)) eqn:R2; simpl;
      [|destruct (audio T _ src) eqn:A; simpl;
        [destruct (run T _ (CallSynth src out)) eqn:R3; simpl|] ..] ..];
    eexists _, _, _, _; (split; [reflexivity|]); (split; [solve_extends|]);
    (split; [econstructor; reflexivity|]); simpl;
    (split; [set_solver|]); try discriminate; intros _; set_solver.
Qed.

Lemma posterStep_spec src outMp4 outPoster w :
  exists w' new logs,
    posterStep T src outMp4 outPoster w = (tt, w') /\
    extends w w' new logs /\
    Forall isPosterEvent new /\
    Forall (fun l => l = posterLine src) logs /\
    disk w ⊆ disk w'.
Proof.
  unfold posterStep, mbind, M_bind, bind.
  destruct (tryMakePoster_spec outMp4 outPoster w)
    as (b1 & w1 & n1 & E1 & X1 & P1 & D1 & _).
  rewrite E1. destruct b1.
  - unfold ret. simpl. exists w1, n1, []. repeat split; try apply X1; auto.
  - destruct (tryMakePoster_spec src outPoster w1)
      as (b2 & w2 & n2 & E2 & X2 & P2 & D2 & _).
    rewrite E2. pose proof (extends_trans _ _ _ _ _ _ _ X1 X2) as X12.
    destruct b2; simpl.
    + unfold ret. exists w2, (n1 ++ n2), ([] ++ []).
      repeat split; try apply X12; auto.
      * by apply Forall_app.
      * set_solver.
    + unfold makeSolidPoster. run_io.
      eexists _, (n1 ++ n2 ++ [_]), [_]. split; [reflexivity|].
      destruct X12 as [Xt Xl]. simpl in Xl. rewrite app_nil_r in Xl.
      split; [|split; [|split]].
      * unfold extends. simpl. rewrite Xt, Xl, <- !app_assoc. split; reflexivity.
      * apply Forall_app. split; [exact P1|]. apply Forall_app. split; [exact P2|].
        repeat constructor.
      * repeat constructor.
      * simpl. destruct (run T _ _); set_solver.
Qed.

End ProcessorFacts.

(* --------------------------------------------------------------------- *)
(** ** The video fallback chain *)
(* --------------------------------------------------------------------- *)

Lemma attempts_app n1 n2 : attempts (n1 ++ n2) = attempts n1 ++ attempts n2.
Proof. apply omap_app. Qed.

Lemma attempts_poster new : Forall isPosterEvent new -> attempts new = [].
Proof.
  induction 1 as [|ev new Hev _ IH]; [reflexivity|].
  destruct ev as [[] ?| | |]; simpl in Hev; try contradiction; exact IH.
Qed.

Lemma no_audio_not_poster src new :
  Forall isPosterEvent new -> Probed src false ∉ new.
Proof.
  intros H Hin. rewrite Forall_forall in H. apply (H _ Hin).
Qed.

Lemma chainOutcome_made_audio src out new logs :
  chainOutcome src out new true logs -> Probed src false ∉ new.
Proof.
  intros C. remember true as ok eqn:Hok.
  destruct C; try discriminate Hok; intros Hin;
    repeat (apply elem_of_cons in Hin as [Hin|Hin]; [discriminate Hin|]);
    by apply elem_of_nil in Hin.
Qed.

Lemma processVideo_outcome T FORCE src outMp4 outPoster w :
  exists ok w' new logs,
    processVideo T FORCE src outMp4 outPoster w = (ok, w') /\
    extends w w' new logs /\
    ((FORCE = false /\ outMp4 ∈ disk w /\ outPoster ∈ disk w /\
      ok = true /\ w' = w /\ new = [] /\ logs = []) \/
     ((FORCE = true \/ outMp4 ∉ disk w \/ outPoster ∉ disk w) /\
      videoOutcome src (attempts new) ok logs /\
      (Probed src false ∈ new -> ok = false))).
Proof.
  unfold processVideo, mbind, M_bind, bind, existsSync.
  destruct (negb FORCE && bool_decide (outMp4 ∈ disk w)
            && bool_decide (outPoster ∈ disk w)) eqn:Eskip.
  - apply andb_true_iff in Eskip as [Eskip H3].
    apply andb_true_iff in Eskip as [H1 H2].
    apply negb_true_iff in H1. apply bool_decide_eq_true in H2, H3.
    exists true, w, [], []. split; [reflexivity|]. split; [apply extends_refl|].
    left. repeat split; auto.
  - assert (Hno : FORCE = true \/ outMp4 ∉ disk w \/ outPoster ∉ disk w).
    { rewrite !andb_false_iff, negb_false_iff, !bool_decide_eq_false in Eskip.
      tauto. }
    destruct (videoChain_outcome T src outMp4 w)
      as (ok & w1 & n1 & l1 & E1 & X1 & C1 & _ & _).
    rewrite E1. destruct ok; simpl.
    + destruct (posterStep_spec T src outMp4 outPoster w1)
        as (w2 & n2 & l2 & E2 & X2 & P2 & L2 & _).
      rewrite E2. unfold ret.
      exists true, w2, (n1 ++ n2), (l1 ++ l2). split; [reflexivity|].
      split; [eapply extends_trans; eassumption|]. right.
      split; [exact Hno|]. rewrite attempts_app, (attempts_poster _ P2), app_nil_r.
      split.
      * inversion C1; subst; simpl;
          repeat match goal with
                 | H : rejection _ _ = Some _ |- _ => rewrite H
                 end; constructor; exact L2.
      * intros Hin. apply elem_of_app in Hin as [Hin|Hin].
        -- by apply chainOutcome_made_audio in C1.
        -- by apply no_audio_not_poster in Hin.
    + unfold ret. exists false, w1, n1, l1. split; [reflexivity|].
      split; [exact X1|]. right. split; [exact Hno|]. split; [|reflexivity].
      inversion C1; subst; simpl;
        repeat match goal with
               | H : rejection _ _ = Some _ |- _ => rewrite H
               end; constructor.
Qed.

(** The two extension sets are disjoint. *)
Lemma isVideo_not_image p : isVideo p = true -> isImage p = false.
Proof.
  unfold isVideo, isImage, inExts.
  generalize (Path.toLowerCase (Path.extname p)). intros e. simpl.
  rewrite !orb_false_r, !orb_true_iff, !String.eqb_eq.
  intros [H|[H|[H|H]]]; subst e; reflexivity.
Qed.


Lemma extends_queried NOW ff idx f w :
  extends w (queried NOW ff idx f w) (timeQuery NOW ff idx f) [].
Proof. unfold extends, queried. simpl. by rewrite app_nil_r. Qed.


(** The scenario of a corrupt reel without audio stream: after the
    container-time query the three stages run in order and fail, one line
    goes to the skip log, nothing is pushed. *)
Example corrupt_reel_skipped :
  task Sample.broken false Sample.NOW true Sample.index Sample.reel Sample.emptyWorld
  = (None,
     {| disk := ∅;
        trace := [ProbedTime (abs Sample.reel) (probeTime Sample.reel);
                  Ran (CallTranscode (abs Sample.reel) (vidMp4 (fid Sample.reel))) ExitFail;
                  Ran (CallRemux (abs Sample.reel) (vidMp4 (fid Sample.reel))) ExitFail;
                  Probed (abs Sample.reel) false];
        skipLog := [(abs Sample.reel,
                     "video failed: transcode -> encode failed; remux -> remux failed; synth -> no audio to synth")] |}).
Proof. vm_compute. reflexivity. Qed.


(* --------------------------------------------------------------------- *)
(** ** The poster *)
(* --------------------------------------------------------------------- *)

(** What one [tryMakePoster] runs: the frame extraction, and the solid
    placeholder right after it when the extraction failed. *)
Lemma tryMakePoster_shape T frameSrc jpg w :
  exists b w' new,
    tryMakePoster T frameSrc jpg w = (b, w') /\
    extends w w' new [] /\
    ((b = true /\ new = [Ran (CallPoster frameSrc jpg) Exit0]) \/
     (exists r1, r1 <> Exit0 /\ b = true /\
        new = [Ran (CallPoster frameSrc jpg) r1; Ran (CallSolidPoster jpg) Exit0]) \/
     (exists r1 r2, r1 <> Exit0 /\ r2 <> Exit0 /\ b = false /\
        new = [Ran (CallPoster frameSrc jpg) r1; Ran (CallSolidPoster jpg) r2])).
Proof.
  unfold tryMakePoster, ffmpegPoster, makeSolidPoster. run_io.
  destruct (run T (trace w) (CallPoster frameSrc jpg)) eqn:R1; simpl;
    [|destruct (run T _ (CallSolidPoster jpg)) eqn:R2; simpl ..];
    eexists _, _, _; (split; [reflexivity|]); (split; [solve_extends|]); simpl.
  - left. auto.
  - right. left. eexists. split; [|split; reflexivity]. discriminate.
  - right. right. eexists _, _. split; [|split; [|split; reflexivity]]; discriminate.
  - right. right. eexists _, _. split; [|split; [|split; reflexivity]]; discriminate.
  - right. left. eexists. split; [|split; reflexivity]. discriminate.
  - right. right. eexists _, _. split; [|split; [|split; reflexivity]]; discriminate.
  - right. right. eexists _, _. split; [|split; [|split; reflexivity]]; discriminate.
Qed.

(** X23.  In every run of the poster step the first call extracts a frame
    from the transcoded file; if anything follows, the second call is the
    solid placeholder, and the extraction from the original source runs
    only as third call, after that placeholder failed. *)
Lemma posterStep_order T src outMp4 outPoster w :
  exists w' new logs,
    posterStep T src outMp4 outPoster w = (tt, w') /\
    extends w w' new logs /\
    (new = [Ran (CallPoster outMp4 outPoster) Exit0] \/
     (exists r1, r1 <> Exit0 /\
        new = [Ran (CallPoster outMp4 outPoster) r1;
               Ran (CallSolidPoster outPoster) Exit0]) \/
     (exists r1 r2 rest, r1 <> Exit0 /\ r2 <> Exit0 /\
        new = Ran (CallPoster outMp4 outPoster) r1
              :: Ran (CallSolidPoster outPoster) r2
              :: rest /\
        exists r3 rest', rest = Ran (CallPoster src outPoster) r3 :: rest')).
Proof.
  unfold posterStep, mbind, M_bind, bind.
  destruct (tryMakePoster_shape T outMp4 outPoster w)
    as (b1 & w1 & n1 & E1 & X1 & S1).
  rewrite E1.
  destruct S1 as [[-> ->]|[(r1 & Hr1 & -> & ->)|(r1 & r2 & Hr1 & Hr2 & -> & ->)]].
  - unfold ret. simpl. eexists w1, _, []. split; [reflexivity|]. split; [exact X1|].
    left. reflexivity.
  - unfold ret. simpl. eexists w1, _, []. split; [reflexivity|]. split; [exact X1|].
    right. left. eauto.
  - destruct (tryMakePoster_shape T src outPoster w1)
      as (b2 & w2 & n2 & E2 & X2 & S2).
    rewrite E2. pose proof (extends_trans _ _ _ _ _ _ _ X1 X2) as X12.
    assert (Hn2 : exists r3 rest', n2 = Ran (CallPoster src outPoster) r3 :: rest').
    { destruct S2 as [[_ ->]|[(? & _ & _ & ->)|(? & ? & _ & _ & _ & ->)]]; eauto. }
    destruct Hn2 as (r3 & rest' & ->).
    destruct b2; simpl.
    + unfold ret. eexists w2, _, _. split; [reflexivity|]. split; [exact X12|].
      right. right. exists r1, r2, (Ran (CallPoster src outPoster) r3 :: rest').
      repeat split; eauto.
    + unfold makeSolidPoster. run_io.
      destruct X12 as [Xt Xl]. simpl in Xl. rewrite app_nil_r in Xl.
      eexists _, _, [_]. split; [reflexivity|]. split.
      * unfold extends. simpl. rewrite Xt, Xl. simpl.
        rewrite <- !app_assoc. simpl. split; reflexivity.
      * right. right. eexists r1, r2, _. repeat split; eauto.
Qed.

(** C8, the defect at a concrete input: the transcode of the sample reel
    succeeds, no frame can be taken from the transcoded file, a frame could
    be taken from the source.  The poster is the solid placeholder; frame
    extraction from the source is never attempted. *)
Lemma poster_placeholder_before_source :
  let src := abs Sample.reel in
  let mp4 := vidMp4 (fid Sample.reel) in
  let jpg := vidPoster (fid Sample.reel) in
  let '(ok, w') := processVideo Sample.noFrameFromOutput false src mp4 jpg
                     Sample.emptyWorld in
  ok = true /\
  trace w' = [Ran (CallTranscode src mp4) Exit0;
              Ran (CallPoster mp4 jpg) ExitFail;
              Ran (CallSolidPoster jpg) Exit0] /\
  skipLog w' = [] /\
  run Sample.noFrameFromOutput (trace w') (CallPoster src jpg) = Exit0.
Proof. vm_compute. repeat split; reflexivity. Qed.

(* --------------------------------------------------------------------- *)
(** ** Running again over existing outputs *)
(* --------------------------------------------------------------------- *)







Lemma conversions_timeQuery NOW ff idx f :
  conversions (timeQuery NOW ff idx f) = [].
Proof. unfold timeQuery. by destruct (r_probeCalled _). Qed.









(* ===================================================================== *)
(** * Properties of the manifest *)
(* ===================================================================== *)

(* --------------------------------------------------------------------- *)
(** ** De-duplication *)
(* --------------------------------------------------------------------- *)

(** The string key separates kind and path. *)
Lemma key_inj a b :
  key a = key b <-> it_type a = it_type b /\ it_src a = it_src b.
Proof.
  unfold key. split.
  - destruct (it_type a), (it_type b); unfold kindName;
      rewrite ?append_cons, ?append_nil; intros [=]; auto.
  - intros [-> ->]. reflexivity.
Qed.

Lemma dedupe_elem seen items it :
  it ∈ dedupe seen items -> (key it ∉ seen) /\ it ∈ items.
Proof.
  revert seen. induction items as [|x items IH]; intros seen; simpl.
  - intros H. by apply elem_of_nil in H.
  - destruct (bool_decide (key x ∈ seen)) eqn:E.
    + intros H. destruct (IH _ H). split; [assumption | by right].
    + apply bool_decide_eq_false in E. intros H.
      apply elem_of_cons in H as [->|H].
      { split; [exact E | left]. }
      destruct (IH _ H) as [Hk Hin]. split; [|by right].
      intros Hs. apply Hk, elem_of_union. by right.
Qed.

Lemma dedupe_NoDup seen items : NoDup (key <$> dedupe seen items).
Proof.
  revert seen. induction items as [|x items IH]; intros seen; simpl.
  - constructor.
  - destruct (bool_decide (key x ∈ seen)); [apply IH|].
    rewrite fmap_cons. constructor; [|apply IH].
    intros Hin. apply list_elem_of_fmap in Hin as (y & Hy & Hin).
    apply dedupe_elem in Hin as [Hk _]. rewrite <- Hy in Hk.
    apply Hk, elem_of_union. left. by apply elem_of_singleton.
Qed.

(** An entry survives exactly at its first position, when its key is new. *)
Lemma dedupe_first seen items it :
  it ∈ dedupe seen items <->
  exists i, items !! i = Some it /\ (key it ∉ seen) /\
    forall j it', (j < i)%nat -> items !! j = Some it' -> key it' <> key it.
Proof.
  revert seen. induction items as [|x items IH]; intros seen; simpl.
  - split; [intros H; by apply elem_of_nil in H|].
    intros (i & Hi & _). destruct i; discriminate Hi.
  - destruct (bool_decide (key x ∈ seen)) eqn:E.
    + apply bool_decide_eq_true in E. rewrite IH. split.
      * intros (i & Hi & Hk & Hfirst). exists (S i). split; [exact Hi|].
        split; [exact Hk|]. intros [|j] it' Hj Hl; simpl in Hl.
        -- injection Hl as <-. intros Heq. rewrite Heq in E. contradiction.
        -- apply (Hfirst j); [lia | exact Hl].
      * intros ([|i] & Hi & Hk & Hfirst); simpl in Hi.
        -- injection Hi as <-. contradiction.
        -- exists i. split; [exact Hi|]. split; [exact Hk|].
           intros j it' Hj Hl. apply (Hfirst (S j)); [lia | exact Hl].
    + apply bool_decide_eq_false in E. rewrite elem_of_cons, IH. split.
      * intros [->|(i & Hi & Hk & Hfirst)].
        -- exists 0%nat. split; [reflexivity|]. split; [exact E|].
           intros j it' Hj. lia.
        -- exists (S i). split; [exact Hi|].
           split; [intros Hs; apply Hk, elem_of_union; by right|].
           intros [|j] it' Hj Hl; simpl in Hl.
           ++ injection Hl as <-. intros Heq. apply Hk, elem_of_union. left.
              by apply elem_of_singleton.
           ++ apply (Hfirst j); [lia | exact Hl].
      * intros ([|i] & Hi & Hk & Hfirst); simpl in Hi.
        -- injection Hi as <-. by left.
        -- right. exists i. split; [exact Hi|]. split.
           ++ specialize (Hfirst 0%nat x ltac:(lia) eq_refl).
              intros Hs. apply elem_of_union in Hs as [Hs|Hs]; [|contradiction].
              apply elem_of_singleton in Hs. congruence.
           ++ intros j it' Hj Hl. apply (Hfirst (S j)); [lia | exact Hl].
Qed.

(* --------------------------------------------------------------------- *)
(** ** Sort *)
(* --------------------------------------------------------------------- *)

Lemma insertSorted_perm {A} (cmp : A -> A -> number) x l :
  insertSorted cmp x l ≡ₚ x :: l.
Proof.
  induction l as [|y l IH]; simpl; [reflexivity|].
  destruct (JS.positive (cmp x y)); [|reflexivity].
  rewrite IH. apply Permutation_swap.
Qed.

Lemma sortBy_perm {A} (cmp : A -> A -> number) l : sortBy cmp l ≡ₚ l.
Proof.
  induction l as [|x l IH]; simpl; [reflexivity|].
  rewrite insertSorted_perm. by constructor.
Qed.

(** The sort never leaves [a] in front of [b] when the comparator is
    positive on [(a, b)], provided the comparator is never positive both
    ways. *)
Lemma insertSorted_sorted {A} (cmp : A -> A -> number) x l :
  (forall a b, JS.positive (cmp a b) = true -> JS.positive (cmp b a) = false) ->
  Sorted (fun a b => JS.positive (cmp a b) = false) l ->
  Sorted (fun a b => JS.positive (cmp a b) = false) (insertSorted cmp x l).
Proof.
  intros Hasym. induction 1 as [|y l Hs IH Hhd]; simpl.
  - repeat constructor.
  - destruct (JS.positive (cmp x y)) eqn:E.
    + constructor; [exact IH|].
      destruct l as [|z l]; simpl.
      * constructor. by apply Hasym.
      * destruct (JS.positive (cmp x z)); constructor.
        -- by inversion Hhd.
        -- by apply Hasym.
    + constructor; [by constructor|]. by constructor.
Qed.

Lemma sortBy_sorted {A} (cmp : A -> A -> number) l :
  (forall a b, JS.positive (cmp a b) = true -> JS.positive (cmp b a) = false) ->
  Sorted (fun a b => JS.positive (cmp a b) = false) (sortBy cmp l).
Proof.
  intros Hasym. induction l as [|x l IH]; simpl; [constructor|].
  by apply insertSorted_sorted.
Qed.

Lemma byTsDesc_asym a b :
  JS.positive (byTsDesc a b) = true -> JS.positive (byTsDesc b a) = false.
Proof.
  unfold byTsDesc.
  destruct (it_ts a) as [x| | |], (it_ts b) as [y| | |]; simpl;
    repeat match goal with
           | |- context [if ?c then _ else _] => destruct c eqn:?
           end; simpl; try discriminate; try reflexivity;
    rewrite ?Z.ltb_lt, ?Z.ltb_ge, ?Z.eqb_eq in *; lia.
Qed.

(** Newest first: in the manifest no entry is followed by one with a larger
    timestamp. *)
Lemma manifest_newest_first items :
  Sorted (fun a b => JS.positive (byTsDesc a b) = false) (manifest items).
Proof. apply sortBy_sorted, byTsDesc_asym. Qed.

Lemma byTsDesc_finite a b x y :
  it_ts a = Finite x -> it_ts b = Finite y ->
  (JS.positive (byTsDesc a b) = false <-> y <= x).
Proof.
  unfold byTsDesc. intros -> ->. simpl.
  destruct (y =? 0) eqn:Ey, (x =? 0) eqn:Ex; simpl;
    rewrite ?Z.ltb_ge, ?Z.eqb_eq, ?Z.eqb_neq in *; lia.
Qed.

(* --------------------------------------------------------------------- *)
(** ** Uniqueness and order of the manifest *)
(* --------------------------------------------------------------------- *)

(** C6.  No two entries of the manifest have the same kind and the same
    output path, and the entries of the manifest are exactly the entries
    that no earlier pushed entry shares kind and path with: of several
    entries with one kind and path the first pushed is kept as it is, the
    later ones are dropped. *)
Theorem manifest_unique_first_kept items :
  NoDup (map (fun it => (it_type it, it_src it)) (manifest items)) /\
  forall it,
    it ∈ manifest items <->
    exists i, items !! i = Some it /\
      forall j it', (j < i)%nat -> items !! j = Some it' ->
        (it_type it', it_src it') <> (it_type it, it_src it).
Proof.
  unfold manifest. split.
  - assert (Hk : NoDup (key <$> sortBy byTsDesc (dedupe ∅ items))).
    { rewrite (sortBy_perm byTsDesc). apply dedupe_NoDup. }
    revert Hk. generalize (sortBy byTsDesc (dedupe ∅ items)). intros l.
    induction l as [|x l IH]; simpl; [constructor|].
    rewrite !NoDup_cons. intros [Hx Hl]. split; [|by apply IH].
    intros Hin. apply Hx.
    apply list_elem_of_fmap in Hin as (y & Hy & Hin).
    apply list_elem_of_fmap. exists y. split; [|exact Hin].
    apply key_inj. by injection Hy.
  - intros it. rewrite (sortBy_perm byTsDesc), dedupe_first. split.
    + intros (i & Hi & _ & Hfirst). exists i. split; [exact Hi|].
      intros j it' Hj Hl [= Ht Hs]. apply (Hfirst j it' Hj Hl).
      by apply key_inj.
    + intros (i & Hi & Hfirst). exists i. split; [exact Hi|].
      split; [apply not_elem_of_empty|].
      intros j it' Hj Hl Hkey. apply key_inj in Hkey as [Ht Hs].
      apply (Hfirst j it' Hj Hl). by rewrite Ht, Hs.
Qed.

(** C5, the defect at a concrete input.  Two pictures without metadata in
    the folder [media/posts/202305/] both resolve to 2023-05-15T12:00:00Z;
    their identifiers are [beach-aaaa1111] and [city-bbbb2222].  The manifest
    lists them in the order in which their jobs completed, whichever that
    is: the comparator looks at the timestamp only. *)
Lemma equal_timestamps_keep_push_order :
  let run files :=
    (runTasks Sample.working false Sample.NOW true Sample.index files
       Sample.emptyWorld).1 in
  map it_ts (run [Sample.beach; Sample.city])
    = [Finite 1684152000000; Finite 1684152000000] /\
  map it_id (manifest (run [Sample.beach; Sample.city]))
    = ["beach-aaaa1111"; "city-bbbb2222"] /\
  map it_id (manifest (run [Sample.city; Sample.beach]))
    = ["city-bbbb2222"; "beach-aaaa1111"].
Proof. vm_compute. repeat split; reflexivity. Qed.

(** There the two pictures come out in one order, whatever the order in
    which they were pushed. *)
Lemma sibling_breaks_ties (localeCompare : string -> string -> number) a b :
  it_ts a = it_ts b ->
  strictEq (it_ts a) (it_ts a) = true ->
  JS.positive (localeCompare (it_id b) (it_id a)) = true ->
  JS.positive (localeCompare (it_id a) (it_id b)) = false ->
  sortBy (byDateThenId localeCompare) [a; b] = [b; a] /\
  sortBy (byDateThenId localeCompare) [b; a] = [b; a].
Proof.
  intros Hts Hfin Hba Hab. unfold sortBy, byDateThenId. simpl.
  rewrite <- Hts, Hfin. simpl. rewrite Hba, Hab. auto.
Qed.

(* ===================================================================== *)
(** * Further properties: names and paths *)
(* ===================================================================== *)

Lemma string_of_list_ascii_length l :
  String.length (string_of_list_ascii l) = length l.
Proof. induction l; simpl; congruence. Qed.

Lemma flushRun_sound cur t :
  Forall (fun c => Path.isDigit c = true) cur ->
  t ∈ flushRun cur -> (10 <= String.length t)%nat /\ allDigits t.
Proof.
  unfold flushRun. intros Hcur.
  destruct (10 <=? length cur)%nat eqn:E; intros Hin.
  - apply list_elem_of_singleton in Hin as ->. apply Nat.leb_le in E.
    unfold allDigits.
    rewrite string_of_list_ascii_length, list_ascii_of_string_of_list_ascii, length_rev.
    split; [exact E|]. by apply Forall_rev.
  - by apply elem_of_nil in Hin.
Qed.

Lemma digitRuns_sound s cur t :
  Forall (fun c => Path.isDigit c = true) cur ->
  t ∈ digitRuns s cur -> (10 <= String.length t)%nat /\ allDigits t.
Proof.
  revert cur. induction s as [|c s IH]; intros cur Hcur; simpl.
  - by apply flushRun_sound.
  - destruct (Path.isDigit c) eqn:Ec.
    + apply IH. by constructor.
    + intros Hin. apply elem_of_app in Hin as [Hin|Hin].
      * by apply (flushRun_sound cur).
      * by apply (IH []).
Qed.

(** X1.  Every token that [extractNumericTokens] returns consists of decimal
    digits only and is at least ten characters long, whatever the name; a
    name shorter than ten characters has no token. *)
Theorem tokens_are_long_digit_runs name :
  Forall (fun t => (10 <= String.length t)%nat /\ allDigits t)
         (extractNumericTokens name) /\
  ((String.length name < 10)%nat -> extractNumericTokens name = []).
Proof.
  split.
  - apply Forall_forall. intros t Ht. by apply (digitRuns_sound name []).
  - unfold extractNumericTokens.
    assert (Hgen : forall s cur, (String.length s + length cur < 10)%nat ->
                                 digitRuns s cur = []).
    { induction s as [|c s IH]; intros cur Hlen; simpl in *.
      - unfold flushRun. destruct (10 <=? length cur)%nat eqn:E; [|reflexivity].
        apply Nat.leb_le in E. lia.
      - destruct (Path.isDigit c).
        + apply IH. simpl. lia.
        + rewrite (IH []) by (simpl; lia). unfold flushRun.
          destruct (10 <=? length cur)%nat eqn:E; [|reflexivity].
          apply Nat.leb_le in E. lia. }
    intros Hlen. apply Hgen. simpl. lia.
Qed.

Lemma digitRuns_split pre sep rest cur :
  Path.isDigit sep = false ->
  digitRuns (pre +:+ String sep rest) cur
  = digitRuns pre cur ++ digitRuns rest [].
Proof.
  intros Hsep. revert cur. induction pre as [|c pre IH]; intros cur.
  - rewrite append_nil. simpl. by rewrite Hsep.
  - rewrite append_cons. simpl. destruct (Path.isDigit c).
    + apply IH.
    + rewrite IH. by rewrite app_assoc.
Qed.

Lemma digitRuns_digits d cur :
  allDigits d ->
  digitRuns d cur = flushRun (rev (list_ascii_of_string d) ++ cur).
Proof.
  unfold allDigits. revert cur. induction d as [|c d IH]; intros cur Hd; simpl.
  - reflexivity.
  - inversion Hd as [|? ? Hc Hd']; subst. rewrite Hc, IH by assumption.
    by rewrite <- app_assoc.
Qed.

(** X2.  A run of at least ten digits that stands between two characters
    that are not digits is a token of the name, and the tokens of the name
    are those before it, the run, and those after it, in this order. *)
Theorem tokens_of_embedded_id pre a d b post :
  Path.isDigit a = false ->
  Path.isDigit b = false ->
  allDigits d ->
  (10 <= String.length d)%nat ->
  extractNumericTokens (pre +:+ String a (d +:+ String b post))
  = extractNumericTokens pre ++ d :: extractNumericTokens post.
Proof.
  intros Ha Hb Hd Hlen. unfold extractNumericTokens.
  rewrite (digitRuns_split pre a _ [] Ha), (digitRuns_split d b post [] Hb).
  rewrite (digitRuns_digits d [] Hd), app_nil_r. unfold flushRun.
  rewrite length_rev.
  assert (Hl : length (list_ascii_of_string d) = String.length d).
  { clear. induction d; simpl; congruence. }
  rewrite Hl. apply Nat.leb_le in Hlen. rewrite Hlen.
  by rewrite rev_involutive, string_of_list_ascii_of_string.
Qed.

(** X2, on a name of the export. *)
Lemma tokens_of_embedded_id_witness :
  extractNumericTokens ("IMG" +:+ String "_" ("17912345678901234" +:+ String "_" "n.jpg"))
  = extractNumericTokens "IMG" ++ "17912345678901234" :: extractNumericTokens "n.jpg".
Proof.
  apply tokens_of_embedded_id.
  - reflexivity.
  - reflexivity.
  - unfold allDigits. simpl. repeat constructor.
  - simpl. lia.
Defined.

Lemma slashes_idempotent s : Path.slashes (Path.slashes s) = Path.slashes s.
Proof.
  induction s as [|c s IH]; simpl; [reflexivity|]. rewrite IH. f_equal.
  destruct (Ascii.eqb c "\") eqn:E; [reflexivity|]. by rewrite E.
Qed.

(** X3.  [tsFromFolder] answers a date exactly when the path, with
    backslashes read as slashes, has a folder [/media/posts/20YYMM/] or
    [/media/reels/20YYMM/] with four digits after [20]; folders of
    [media/other], years outside 20YY and a missing trailing separator give
    [null].  A path written with backslashes gets the date of the same path
    written with slashes. *)
Theorem tsFromFolder_dated_folder absPath :
  (tsFromFolder absPath <> None <-> hasDatedFolder (Path.slashes absPath)) /\
  tsFromFolder (Path.slashes absPath) = tsFromFolder absPath.
Proof.
  split.
  - rewrite tsFromFolder_eq. split.
    + destruct (folderMatch (Path.slashes absPath)) as [[y m]|] eqn:E; [|congruence].
      intros _. apply folderMatch_Some in E as (pre & post & Hs & Hm).
      apply folderMatchAt_Some in Hm
        as (k & a & b & c & d & rest & Hk & -> & Da & Db & Dc & Dd & _ & _).
      exists pre, k, a, b, c, d, rest. repeat split; assumption.
    + intros (pre & k & a & b & c & d & rest & Hk & Hs & Da & Db & Dc & Dd).
      destruct (folderMatch (Path.slashes absPath)) as [[y m]|] eqn:E; [discriminate|].
      exfalso. pose proof (proj1 (folderMatch_None _) E pre _ Hs) as Hnone.
      assert (Hsome : folderMatchAt
                ("/media/" +:+ k +:+ "/20"
                 +:+ String a (String b (String c (String d ("/" +:+ rest)))))
              = Some (2000 + 10 * Path.digitVal a + Path.digitVal b,
                      10 * Path.digitVal c + Path.digitVal d)).
      { apply folderMatchAt_Some. exists k, a, b, c, d, rest.
        repeat split; assumption || reflexivity. }
      congruence.
  - unfold tsFromFolder. by rewrite slashes_idempotent.
Qed.

Lemma folderDate_table :
  forallb (fun y => forallb (folderDateInRange y) (seqZ 0 100)) (seqZ 2000 100) = true.
Proof. vm_compute. reflexivity. Qed.

(** X4.  Whatever the path, a date that [tsFromFolder] answers is a finite
    number between 1999-12-15T12:00:00Z and 2107-03-15T12:00:00Z (a month
    field 00 or 13..99 is carried into the neighbouring years), so it is a
    valid time value for [toISOString]; it is never [NaN]. *)
Theorem tsFromFolder_valid_date absPath :
  tsFromFolder absPath = None \/
  exists z, tsFromFolder absPath = Some (Finite z) /\
            DateUtc.isoInstant 1999 12 15 12 <= z <= DateUtc.isoInstant 2107 3 15 12 /\
            validTime (Finite z) = true.
Proof.
  rewrite tsFromFolder_eq.
  destruct (folderMatch (Path.slashes absPath)) as [[y m]|] eqn:E; [right | by left].
  apply folderMatch_range in E as [Hy Hm].
  pose proof folderDate_table as Ht. rewrite forallb_forall in Ht.
  specialize (Ht y). rewrite forallb_forall in Ht.
  assert (Hr : folderDateInRange y m = true).
  { apply Ht; apply list_elem_of_In, elem_of_seqZ; lia. }
  unfold folderDateInRange in Hr.
  apply andb_true_iff in Hr as [Hr Hv]. apply andb_true_iff in Hr as [Hlo Hhi].
  apply Z.leb_le in Hlo, Hhi. eexists. split; [reflexivity|]. auto.
Qed.

(* ===================================================================== *)
(** * Further properties: the metadata index *)
(* ===================================================================== *)

Lemma buildMetaIndex_app files more :
  buildMetaIndex (files ++ more)
  = foldl indexRecord (buildMetaIndex files) (concat more).
Proof.
  unfold buildMetaIndex. by rewrite foldl_app, (foldl_concat indexRecord _ more).
Qed.

(** X6.  Indexing further files never changes an entry: a basename or a
    numeric token that the index of [files] has keeps its timestamp and
    caption when more files follow. *)
Theorem index_never_overwrites files more :
  (forall b e, byBase (buildMetaIndex files) !! b = Some e ->
               byBase (buildMetaIndex (files ++ more)) !! b = Some e) /\
  (forall tok e, byNumericId (buildMetaIndex files) !! tok = Some e ->
                 byNumericId (buildMetaIndex (files ++ more)) !! tok = Some e).
Proof.
  rewrite buildMetaIndex_app.
  destruct (foldl_indexRecord_lookup (concat more) (buildMetaIndex files)) as [Hb Hn].
  split.
  - intros b e H. by rewrite Hb, H.
  - intros tok e H. by rewrite Hn, H.
Qed.

Lemma head_filter_is_Some {A} (P : A -> Prop) `{!forall x, Decision (P x)} (l : list A) x :
  x ∈ l -> P x -> is_Some (head (filter P l)).
Proof.
  intros Hin HP. assert (Hx : x ∈ filter P l) by (by apply list_elem_of_filter).
  destruct (filter P l); [by apply elem_of_nil in Hx | by eexists].
Qed.

(** X7.  A file on disk is matched whenever the export refers to it: if
    some record of the metadata files has a basename [u], then a file with
    that basename gets an entry without any token lookup, and a file whose
    basename shares a numeric token with [u] gets an entry too. *)
Theorem referenced_files_are_matched NOW ff files rec u f :
  rec ∈ concat files ->
  u ∈ rec_uris rec ->
  let r := resolve NOW ff (buildMetaIndex files) f in
  (Path.basename (abs f) = u ->
   is_Some (r_meta r) /\ r_fuzzyTried r = false) /\
  (forall tok, tok ∈ extractNumericTokens u ->
               tok ∈ extractNumericTokens (Path.basename (abs f)) ->
               is_Some (r_meta r)).
Proof.
  intros Hrec Hu r.
  destruct (foldl_indexRecord_lookup (concat files) emptyIndex) as [Hb Hn].
  assert (Hidx : buildMetaIndex files = foldl indexRecord emptyIndex (concat files)).
  { unfold buildMetaIndex. apply foldl_concat. }
  split.
  - intros Hbase.
    assert (Hsome : is_Some (byBase (buildMetaIndex files) !! Path.basename (abs f))).
    { rewrite Hidx, Hb. simpl. rewrite lookup_empty, Hbase.
      apply fmap_is_Some.
      by apply (head_filter_is_Some (fun rec => u ∈ rec_uris rec) _ rec). }
    destruct Hsome as [e He]. subst r. rewrite r_meta_eq, He. split; [by eexists|].
    destruct (r_fuzzyTried _) eqn:E; [|reflexivity].
    apply r_fuzzyTried_true in E. congruence.
  - intros tok Htu Htf. subst r. rewrite r_meta_eq.
    destruct (byBase (buildMetaIndex files) !! Path.basename (abs f)); [by eexists|].
    destruct (firstToken _ _) eqn:E; [by eexists|]. exfalso.
    pose proof (proj1 (firstToken_None _ _) E tok Htf) as Hnone.
    rewrite Hidx, Hn in Hnone. simpl in Hnone. rewrite lookup_empty in Hnone.
    assert (Hs : is_Some (head (filter (fun rec => tok ∈ recordTokens rec) (concat files)))).
    { apply (head_filter_is_Some _ _ rec); [exact Hrec|].
      unfold recordTokens. apply list_elem_of_In, in_concat.
      exists (extractNumericTokens u). split; [|by apply list_elem_of_In].
      apply list_elem_of_In, list_elem_of_fmap. by exists u. }
    destruct Hs as [x Hx]. rewrite Hx in Hnone. discriminate Hnone.
Qed.

(** X7, at the sample export: the reel [clip_17900000000000001.mp4] is
    referred to by the first record. *)
Lemma referenced_files_are_matched_witness :
  let r := resolve Sample.NOW true (buildMetaIndex [Sample.posts_1]) Sample.clip in
  is_Some (r_meta r) /\ r_fuzzyTried r = false.
Proof.
  assert (Hrec : {| rec_ts := Some (Finite 1600000000000); rec_caption := "first";
                    rec_uris := ["clip_17900000000000001.mp4"] |}
                 ∈ concat [Sample.posts_1]) by (simpl; left).
  assert (Hu : "clip_17900000000000001.mp4"
               ∈ rec_uris {| rec_ts := Some (Finite 1600000000000);
                             rec_caption := "first";
                             rec_uris := ["clip_17900000000000001.mp4"] |})
    by (simpl; left).
  apply (referenced_files_are_matched Sample.NOW true [Sample.posts_1] _ _
           Sample.clip Hrec Hu).
  vm_compute. reflexivity.
Defined.

(* ===================================================================== *)
(** * Further properties: the processors and the run *)
(* ===================================================================== *)

(** The ways through [processImage]: the skip, both conversions, a failure
    of the first, a failure of the second. *)
Lemma processImage_cases T FORCE src outFull outThumb w :
  exists ok w' new logs,
    processImage T FORCE src outFull outThumb w = (ok, w') /\
    extends w w' new logs /\
    ((FORCE = false /\ outFull ∈ disk w /\ outThumb ∈ disk w /\
      ok = true /\ w' = w /\ new = [] /\ logs = []) \/
     ((FORCE = true \/ outFull ∉ disk w \/ outThumb ∉ disk w) /\
      ((ok = true /\ logs = [] /\
        new = [Sharped src outFull MAX_W None; Sharped src outThumb THUMB_W None] /\
        disk w' = {[outThumb]} ∪ ({[outFull]} ∪ disk w)) \/
       (exists e, ok = false /\ logs = [(src, "image process failed: " +:+ e)] /\
                  new = [Sharped src outFull MAX_W (Some e)] /\
                  disk w' = disk w) \/
       (exists e, ok = false /\ logs = [(src, "image process failed: " +:+ e)] /\
                  new = [Sharped src outFull MAX_W None;
                         Sharped src outThumb THUMB_W (Some e)] /\
                  disk w' = {[outFull]} ∪ disk w)))).
Proof.
  unfold processImage, mbind, M_bind, bind, existsSync.
  destruct (negb FORCE && bool_decide (outFull ∈ disk w)
            && bool_decide (outThumb ∈ disk w)) eqn:Eskip.
  - apply andb_true_iff in Eskip as [Eskip H3].
    apply andb_true_iff in Eskip as [H1 H2].
    apply negb_true_iff in H1. apply bool_decide_eq_true in H2, H3.
    exists true, w, [], []. split; [reflexivity|]. split; [apply extends_refl|].
    left. repeat split; auto.
  - assert (Hno : FORCE = true \/ outFull ∉ disk w \/ outThumb ∉ disk w).
    { rewrite !andb_false_iff, negb_false_iff, !bool_decide_eq_false in Eskip.
      tauto. }
    run_io.
    destruct (sharp T (trace w) src MAX_W) as [e|] eqn:S1; simpl.
    + eexists _, _, _, _. split; [reflexivity|]. split; [solve_extends|].
      right. split; [exact Hno|]. right. left. exists e. auto.
    + destruct (sharp T (trace w ++ _) src THUMB_W) as [e|] eqn:S2; simpl.
      * eexists _, _, _, _. split; [reflexivity|]. split; [solve_extends|].
        right. split; [exact Hno|]. right. right. exists e. auto.
      * eexists _, _, _, _. split; [reflexivity|]. split; [solve_extends|].
        right. split; [exact Hno|]. left. auto.
Qed.

(** X8.  [processImage] either skips (FORCE off, both outputs on disk:
    no call, nothing written) or runs the full-size conversion and then
    the thumbnail conversion.  It reports failure exactly when a
    conversion threw; the skip log then receives one line with the
    message of that conversion, and no line otherwise.  The thumbnail is
    not attempted after the full-size conversion threw; when the
    thumbnail conversion throws, the full-size file has been written;
    after a success both files have been written. *)
Theorem processImage_outcome T FORCE src outFull outThumb w :
  exists ok w' new logs,
    processImage T FORCE src outFull outThumb w = (ok, w') /\
    extends w w' new logs /\
    ((FORCE = false /\ outFull ∈ disk w /\ outThumb ∈ disk w /\
      ok = true /\ w' = w /\ new = [] /\ logs = []) \/
     ((FORCE = true \/ outFull ∉ disk w \/ outThumb ∉ disk w) /\
      ((ok = true /\ logs = [] /\
        new = [Sharped src outFull MAX_W None; Sharped src outThumb THUMB_W None] /\
        disk w' = {[outThumb]} ∪ ({[outFull]} ∪ disk w)) \/
       (exists e, ok = false /\ logs = [(src, "image process failed: " +:+ e)] /\
                  new = [Sharped src outFull MAX_W (Some e)] /\
                  disk w' = disk w) \/
       (exists e, ok = false /\ logs = [(src, "image process failed: " +:+ e)] /\
                  new = [Sharped src outFull MAX_W None;
                         Sharped src outThumb THUMB_W (Some e)] /\
                  disk w' = {[outFull]} ∪ disk w)))) /\
    (ok = false <->
     exists out width e, Sharped src out width (Some e) ∈ new) /\
    (forall out width e,
       Sharped src out width (Some e) ∈ new ->
       logs = [(src, "image process failed: " +:+ e)]) /\
    (logs = [] <-> ok = true).
Proof.
  destruct (processImage_cases T FORCE src outFull outThumb w)
    as (ok & w' & new & logs & E & X & H).
  exists ok, w', new, logs. split; [exact E|]. split; [exact X|].
  split; [exact H|].
  destruct H as [(Hf & H1 & H2 & -> & -> & -> & ->)
                |(Hno & [(-> & -> & -> & D)|[(e & -> & -> & -> & D)|(e & -> & -> & -> & D)]])].
  - split; [|split].
    + split; [discriminate|]. intros (o & wd & e & Hin). by apply elem_of_nil in Hin.
    + intros o wd e Hin. by apply elem_of_nil in Hin.
    + tauto.
  - split; [|split].
    + split; [discriminate|]. intros (o & wd & e & Hin).
      apply elem_of_cons in Hin as [Hin|Hin]; [discriminate Hin|].
      apply list_elem_of_singleton in Hin. discriminate Hin.
    + intros o wd e Hin.
      apply elem_of_cons in Hin as [Hin|Hin]; [discriminate Hin|].
      apply list_elem_of_singleton in Hin. discriminate Hin.
    + tauto.
  - split; [|split].
    + split; [|reflexivity]. intros _. exists outFull, MAX_W, e. left.
    + intros o wd e' Hin. apply list_elem_of_singleton in Hin.
      by injection Hin as _ _ <-.
    + split; discriminate.
  - split; [|split].
    + split; [|reflexivity]. intros _. exists outThumb, THUMB_W, e. right. left.
    + intros o wd e' Hin.
      apply elem_of_cons in Hin as [Hin|Hin]; [discriminate Hin|].
      apply list_elem_of_singleton in Hin. by injection Hin as _ _ <-.
    + split; discriminate.
Qed.

Lemma processImage_disk T FORCE src outFull outThumb w :
  disk w ⊆ disk (processImage T FORCE src outFull outThumb w).2 /\
  ((processImage T FORCE src outFull outThumb w).1 = true ->
   outFull ∈ disk (processImage T FORCE src outFull outThumb w).2 /\
   outThumb ∈ disk (processImage T FORCE src outFull outThumb w).2).
Proof.
  destruct (processImage_cases T FORCE src outFull outThumb w)
    as (ok & w' & new & logs & E & _ & H).
  rewrite E. simpl.
  destruct H as [(_ & H1 & H2 & _ & -> & _)
                |(_ & [(-> & _ & _ & D)|[(e & -> & _ & _ & D)|(e & -> & _ & _ & D)]])].
  - auto.
  - rewrite D. split.
    + intros x Hx. apply elem_of_union. right. apply elem_of_union. by right.
    + intros _. split; apply elem_of_union; [right; apply elem_of_union|];
        left; by apply elem_of_singleton.
  - rewrite D. split; [done|discriminate].
  - rewrite D. split; [|discriminate].
    intros x Hx. apply elem_of_union. by right.
Qed.

Lemma processVideo_disk T FORCE src outMp4 outPoster w :
  disk w ⊆ disk (processVideo T FORCE src outMp4 outPoster w).2 /\
  ((processVideo T FORCE src outMp4 outPoster w).1 = true ->
   outMp4 ∈ disk (processVideo T FORCE src outMp4 outPoster w).2).
Proof.
  unfold processVideo, mbind, M_bind, bind, existsSync.
  destruct (negb FORCE && bool_decide (outMp4 ∈ disk w)
            && bool_decide (outPoster ∈ disk w)) eqn:Eskip.
  - apply andb_true_iff in Eskip as [Eskip _].
    apply andb_true_iff in Eskip as [_ H2]. apply bool_decide_eq_true in H2.
    simpl. auto.
  - destruct (videoChain_outcome T src outMp4 w)
      as (ok & w1 & n1 & l1 & E1 & _ & _ & D1 & O1).
    rewrite E1. destruct ok; simpl.
    + destruct (posterStep_spec T src outMp4 outPoster w1)
        as (w2 & n2 & l2 & E2 & _ & _ & _ & D2).
      rewrite E2. simpl. split; [by etrans|]. intros _.
      apply D2, O1. reflexivity.
    + split; [exact D1|]. discriminate.
Qed.

Lemma convert_disk T FORCE f r w :
  disk w ⊆ disk (convert T FORCE f r w).2 /\
  (forall it, (convert T FORCE f r w).1 = Some it ->
     it_src it ∈ disk (convert T FORCE f r w).2 /\
     (it_type it = Image -> it_thumb it ∈ disk (convert T FORCE f r w).2)).
Proof.
  unfold convert.
  destruct (negb (validTime _)); [simpl; split; [done|discriminate]|].
  unfold mbind, M_bind, bind, ret.
  destruct (isImage (abs f)).
  - destruct (processImage_disk T FORCE (abs f) (imgFull (fid f)) (imgThumb (fid f)) w)
      as [D O].
    destruct (processImage T FORCE _ _ _ w) as [[] w']; simpl in *.
    + split; [exact D|]. intros it [= <-]. simpl. destruct O; auto.
    + split; [exact D|]. discriminate.
  - destruct (isVideo (abs f)); [|simpl; split; [done|discriminate]].
    destruct (processVideo_disk T FORCE (abs f) (vidMp4 (fid f)) (vidPoster (fid f)) w)
      as [D O].
    destruct (processVideo T FORCE _ _ _ w) as [[] w']; simpl in *.
    + split; [exact D|]. intros it [= <-]. simpl. split; [auto|discriminate].
    + split; [exact D|]. discriminate.
Qed.

(** The outputs of the entry that a job pushes are on disk after the job,
    the poster of a video apart, and a job removes nothing. *)
Lemma task_disk T FORCE NOW ff idx f w :
  disk w ⊆ disk (task T FORCE NOW ff idx f w).2 /\
  (forall it, (task T FORCE NOW ff idx f w).1 = Some it ->
     it_src it ∈ disk (task T FORCE NOW ff idx f w).2 /\
     (it_type it = Image -> it_thumb it ∈ disk (task T FORCE NOW ff idx f w).2)).
Proof.
  rewrite task_eq. destruct (readable T f w); [|simpl; split; [done|discriminate]].
  apply (convert_disk T FORCE f (resolve NOW ff idx f) (queried NOW ff idx f w)).
Qed.

Lemma runTasks_disk T FORCE NOW ff idx files w :
  disk w ⊆ disk (runTasks T FORCE NOW ff idx files w).2 /\
  (forall it, it ∈ (runTasks T FORCE NOW ff idx files w).1 ->
     it_src it ∈ disk (runTasks T FORCE NOW ff idx files w).2 /\
     (it_type it = Image ->
      it_thumb it ∈ disk (runTasks T FORCE NOW ff idx files w).2)).
Proof.
  revert w. induction files as [|f files IH]; intros w.
  - simpl. split; [done|]. intros it Hin. by apply elem_of_nil in Hin.
  - simpl runTasks. unfold mbind, M_bind, bind, ret.
    destruct (task_disk T FORCE NOW ff idx f w) as [D1 O1].
    destruct (task T FORCE NOW ff idx f w) as [o w1]. simpl in D1, O1.
    destruct (IH w1) as [D2 O2].
    destruct (runTasks T FORCE NOW ff idx files w1) as [its w2]. simpl in *.
    split; [by etrans|].
    intros it Hin. apply elem_of_app in Hin as [Hin|Hin].
    + destruct o as [it'|]; simpl in Hin; [|by apply elem_of_nil in Hin].
      apply list_elem_of_singleton in Hin as ->.
      destruct (O1 it' eq_refl) as [H1 H2]. split; [by apply D2|].
      intros Hk. by apply D2, H2.
    + by apply O2.
Qed.

(** X9.  Taking an ffmpeg run that exits with 0 to have written its
    output: after a run, the file named by [src] of every entry of the
    manifest is on disk, and so is the thumbnail of every image entry; the
    run removes no file. *)
Theorem manifest_sources_on_disk T FORCE NOW ff idx files w :
  let run := runTasks T FORCE NOW ff idx files w in
  disk w ⊆ disk run.2 /\
  forall it, it ∈ manifest run.1 ->
    it_src it ∈ disk run.2 /\ (it_type it = Image -> it_thumb it ∈ disk run.2).
Proof.
  intros run. subst run.
  destruct (runTasks_disk T FORCE NOW ff idx files w) as [D O].
  split; [exact D|]. intros it Hin. apply O.
  unfold manifest in Hin. rewrite sortBy_perm in Hin.
  by apply dedupe_elem in Hin as [_ Hin].
Qed.

(** X10.  Every image or video file is accounted for, unless its job is
    rejected before the conversion.  When [hashFile] or [fsp.stat]
    rejects, or the resolved timestamp is not a valid time value, the job
    pushes nothing, logs nothing and converts nothing.  Otherwise it
    either pushes the entry of the file, with nothing but poster notices
    written to the skip log, or pushes nothing and writes exactly one
    line about the file to the skip log. *)
Theorem job_pushes_or_logs T FORCE NOW ff idx f w :
  isImage (abs f) || isVideo (abs f) = true ->
  exists o w' new logs,
    task T FORCE NOW ff idx f w = (o, w') /\
    extends w w' new logs /\
    (((readable T f w = false \/
       validTime (r_ts (resolve NOW ff idx f)) = false) /\
      o = None /\ logs = [] /\ conversions new = [] /\ disk w' = disk w) \/
     (readable T f w = true /\
      validTime (r_ts (resolve NOW ff idx f)) = true /\
      ((o = entryOf NOW ff idx f /\ is_Some o /\
        Forall (fun l => l = posterLine (abs f)) logs) \/
       (o = None /\ exists reason, logs = [(abs f, reason)])))).
Proof.
  intros Hmedia. rewrite task_eq.
  destruct (readable T f w) eqn:Hread.
  2: { exists None, w, [], []. split; [reflexivity|].
       split; [apply extends_refl|]. left. repeat split; auto. }
  pose proof (extends_queried NOW ff idx f w) as Xq.
  unfold convert, entryOf.
  destruct (validTime (r_ts (resolve NOW ff idx f))) eqn:Hvalid; cbn [negb].
  2: { exists None, (queried NOW ff idx f w), (timeQuery NOW ff idx f), [].
       split; [reflexivity|]. split; [exact Xq|]. left.
       split; [by right|]. split; [reflexivity|]. split; [reflexivity|].
       split; [apply conversions_timeQuery | reflexivity]. }
  unfold mbind, M_bind, bind, ret.
  destruct (isImage (abs f)) eqn:Himg.
  - destruct (processImage_cases T FORCE (abs f) (imgFull (fid f)) (imgThumb (fid f))
                (queried NOW ff idx f w))
      as (ok & w' & new & logs & E & X & H).
    rewrite E. exists (if ok then Some (mkItem Image f (resolve NOW ff idx f)) else None),
                 w', (timeQuery NOW ff idx f ++ new), logs.
    split; [reflexivity|].
    split; [exact (extends_trans _ _ _ _ _ _ _ Xq X)|]. right.
    split; [reflexivity|]. split; [reflexivity|].
    destruct H as [(_ & _ & _ & -> & _ & _ & ->)
                  |(_ & [(-> & -> & _)|[(e & -> & -> & _)|(e & -> & -> & _)]])].
    + left. split; [reflexivity|]. split; [by eexists|constructor].
    + left. split; [reflexivity|]. split; [by eexists|constructor].
    + right. split; [reflexivity|]. by eexists.
    + right. split; [reflexivity|]. by eexists.
  - simpl in Hmedia. rewrite Hmedia.
    destruct (processVideo_outcome T FORCE (abs f) (vidMp4 (fid f)) (vidPoster (fid f))
                (queried NOW ff idx f w))
      as (ok & w' & new & logs & E & X & H).
    rewrite E. exists (if ok then Some (mkItem Video f (resolve NOW ff idx f)) else None),
                 w', (timeQuery NOW ff idx f ++ new), logs.
    split; [reflexivity|].
    split; [exact (extends_trans _ _ _ _ _ _ _ Xq X)|]. right.
    split; [reflexivity|]. split; [reflexivity|].
    destruct H as [(_ & _ & _ & -> & _ & _ & ->)|(_ & V & _)].
    + left. split; [reflexivity|]. split; [by eexists|constructor].
    + inversion V; subst.
      * left. split; [reflexivity|]. split; [by eexists|assumption].
      * left. split; [reflexivity|]. split; [by eexists|assumption].
      * left. split; [reflexivity|]. split; [by eexists|assumption].
      * right. split; [reflexivity|]. by eexists.
Qed.

(** X10, for a picture that sharp cannot decode. *)
Lemma job_pushes_or_logs_witness :
  exists o w' new logs,
    task Sample.broken false Sample.NOW true Sample.index Sample.corrupt
         Sample.emptyWorld = (o, w') /\
    extends Sample.emptyWorld w' new logs /\
    (((readable Sample.broken Sample.corrupt Sample.emptyWorld = false \/
       validTime (r_ts (resolve Sample.NOW true Sample.index Sample.corrupt)) = false) /\
      o = None /\ logs = [] /\ conversions new = [] /\
      disk w' = disk Sample.emptyWorld) \/
     (readable Sample.broken Sample.corrupt Sample.emptyWorld = true /\
      validTime (r_ts (resolve Sample.NOW true Sample.index Sample.corrupt)) = true /\
      ((o = entryOf Sample.NOW true Sample.index Sample.corrupt /\ is_Some o /\
        Forall (fun l => l = posterLine (abs Sample.corrupt)) logs) \/
       (o = None /\ exists reason, logs = [(abs Sample.corrupt, reason)])))).
Proof.
  apply (job_pushes_or_logs Sample.broken false Sample.NOW true Sample.index
           Sample.corrupt Sample.emptyWorld); vm_compute; reflexivity.
Defined.

(* ===================================================================== *)
(** * Further properties: the manifest *)
(* ===================================================================== *)

Lemma runTasks_valid T FORCE NOW ff idx files w :
  Forall (fun it => validTime (it_ts it) = true)
         (runTasks T FORCE NOW ff idx files w).1.
Proof.
  revert w. induction files as [|f files IH]; intros w; [constructor|].
  simpl runTasks. unfold mbind, M_bind, bind, ret.
  destruct (task T FORCE NOW ff idx f w) as [o w1] eqn:E.
  specialize (IH w1).
  destruct (runTasks T FORCE NOW ff idx files w1) as [its w2]. simpl in *.
  destruct o as [it|]; simpl; [|exact IH].
  constructor; [|exact IH].
  apply task_item in E as [Hv [[_ ->]|(_ & _ & ->)]]; exact Hv.
Qed.

Lemma validTime_finite t : validTime t = true -> exists z, t = Finite z.
Proof. destruct t; try discriminate. by eexists. Qed.

Lemma sorted_by_value (l : list item) :
  Forall (fun it => validTime (it_ts it) = true) l ->
  Sorted (fun a b => JS.positive (byTsDesc a b) = false) l ->
  StronglySorted (fun a b => tsValue b <= tsValue a) l.
Proof.
  intros Hv Hs. apply Sorted_StronglySorted.
  { intros a b c. lia. }
  induction Hs as [|x l Hs IH Hhd]; [constructor|].
  apply Forall_cons in Hv as [Hx Hl]. constructor; [by apply IH|].
  destruct Hhd as [|y l Hxy]; constructor.
  apply Forall_cons in Hl as [Hy _].
  apply validTime_finite in Hx as [zx Ex], Hy as [zy Ey].
  unfold tsValue. rewrite Ex, Ey.
  by apply (byTsDesc_finite x y zx zy Ex Ey).
Qed.

Lemma sorted_by_difference (l : list item) :
  Forall (fun it => validTime (it_ts it) = true) l ->
  StronglySorted (fun a b => tsValue b <= tsValue a) l ->
  StronglySorted (fun a b => JS.positive (JS.sub (it_ts b) (it_ts a)) = false) l.
Proof.
  intros Hv Hs. induction Hs as [|a l Hs IH Ha]; [constructor|].
  apply Forall_cons in Hv as [Va Vl]. constructor; [by apply IH|].
  apply Forall_forall. intros b Hb.
  pose proof (proj1 (Forall_forall _ _) Ha b Hb) as Hab.
  pose proof (proj1 (Forall_forall _ _) Vl b Hb) as Vb. simpl in Hab, Vb.
  apply validTime_finite in Va as [x Ex], Vb as [y Ey].
  unfold tsValue in Hab. rewrite Ex, Ey in Hab |- *. simpl.
  apply Z.ltb_ge. lia.
Qed.

(** X11.  The manifest of a run is in descending order of time: the
    timestamp of every entry is a valid time value, and no entry comes
    before an entry with a larger timestamp: for an entry [a] and any
    later entry [b], [b.ts - a.ts] is not positive.  (File times are read
    in whole milliseconds.) *)
Theorem run_manifest_descending T FORCE NOW ff idx files w :
  let out := manifest (runTasks T FORCE NOW ff idx files w).1 in
  Forall (fun it => validTime (it_ts it) = true) out /\
  StronglySorted
    (fun a b => JS.positive (JS.sub (it_ts b) (it_ts a)) = false) out.
Proof.
  intros out.
  assert (Hv : Forall (fun it => validTime (it_ts it) = true) out).
  { subst out. apply Forall_forall. intros it Hin.
    unfold manifest in Hin. rewrite sortBy_perm in Hin.
    apply dedupe_elem in Hin as [_ Hin].
    exact (proj1 (Forall_forall _ _) (runTasks_valid T FORCE NOW ff idx files w) it Hin). }
  split; [exact Hv|]. apply sorted_by_difference; [exact Hv|].
  apply sorted_by_value; [exact Hv|]. apply manifest_newest_first.
Qed.

Lemma insertSorted_filter {A} (cmp : A -> A -> number) (P : A -> Prop)
    `{!forall x, Decision (P x)} x l :
  (forall y, P x -> P y -> JS.positive (cmp x y) = false) ->
  filter P (insertSorted cmp x l) = filter P (x :: l).
Proof.
  intros Hcmp. induction l as [|y l IH]; simpl; [reflexivity|].
  destruct (JS.positive (cmp x y)) eqn:E; [|reflexivity].
  rewrite (filter_cons _ y), IH, !(filter_cons _ x), (filter_cons _ y).
  destruct (decide (P x)) as [Hx|Hx]; [|reflexivity].
  destruct (decide (P y)) as [Hy|Hy]; [|reflexivity].
  rewrite (Hcmp y Hx Hy) in E. discriminate E.
Qed.

Lemma sortBy_filter {A} (cmp : A -> A -> number) (P : A -> Prop)
    `{!forall x, Decision (P x)} l :
  (forall x y, P x -> P y -> JS.positive (cmp x y) = false) ->
  filter P (sortBy cmp l) = filter P l.
Proof.
  intros Hcmp. induction l as [|x l IH]; simpl; [reflexivity|].
  rewrite insertSorted_filter by (intros y; apply Hcmp).
  by rewrite !filter_cons, IH.
Qed.

Lemma dedupe_sublist seen items : dedupe seen items `sublist_of` items.
Proof.
  revert seen. induction items as [|x items IH]; intros seen; simpl.
  - constructor.
  - destruct (bool_decide (key x ∈ seen)).
    + apply sublist_cons, IH.
    + apply sublist_skip, IH.
Qed.

(** X12.  The sort is stable on equal timestamps: the entries of the
    manifest that carry one timestamp are the entries with that timestamp
    that the de-duplication kept, in the order in which they were pushed. *)
Theorem equal_timestamps_stay_in_push_order items (t : number) :
  filter (fun it => it_ts it = t) (manifest items)
  = filter (fun it => it_ts it = t) (dedupe ∅ items) /\
  filter (fun it => it_ts it = t) (manifest items) `sublist_of` items.
Proof.
  assert (H : filter (fun it => it_ts it = t) (manifest items)
              = filter (fun it => it_ts it = t) (dedupe ∅ items)).
  { unfold manifest. apply sortBy_filter.
    intros x y Hx Hy. unfold byTsDesc. rewrite Hx, Hy.
    destruct t as [z| | |]; simpl; try reflexivity.
    destruct (z =? 0); simpl; rewrite ?Z.sub_diag; reflexivity. }
  split; [exact H|]. rewrite H.
  etrans; [apply sublist_filter|apply dedupe_sublist].
Qed.

Lemma dedupe_NoDup_id seen items :
  NoDup (key <$> items) ->
  (forall it, it ∈ items -> key it ∉ seen) ->
  dedupe seen items = items.
Proof.
  revert seen. induction items as [|x items IH]; intros seen Hnd Hnew; simpl;
    [reflexivity|].
  rewrite fmap_cons in Hnd. apply NoDup_cons in Hnd as [Hx Hnd].
  rewrite bool_decide_eq_false_2 by (apply Hnew; left).
  f_equal. apply IH; [exact Hnd|].
  intros it Hin Hs. apply elem_of_union in Hs as [Hs|Hs].
  - apply elem_of_singleton in Hs. apply Hx. rewrite <- Hs.
    apply list_elem_of_fmap. by exists it.
  - apply (Hnew it); [by right | exact Hs].
Qed.

Lemma sortBy_sorted_id {A} (cmp : A -> A -> number) l :
  Sorted (fun a b => JS.positive (cmp a b) = false) l -> sortBy cmp l = l.
Proof.
  induction 1 as [|x l Hs IH Hhd]; [reflexivity|].
  change (sortBy cmp (x :: l)) with (insertSorted cmp x (sortBy cmp l)).
  rewrite IH.
  destruct Hhd as [|y l Hxy]; simpl; [reflexivity|]. by rewrite Hxy.
Qed.

(** X13.  De-duplication and sort are idempotent: the manifest of a
    manifest is that manifest, so that entries read back from
    [media.json] come out as they went in. *)
Theorem manifest_idempotent items : manifest (manifest items) = manifest items.
Proof.
  unfold manifest at 1.
  rewrite dedupe_NoDup_id.
  - apply sortBy_sorted_id, manifest_newest_first.
  - unfold manifest. rewrite (sortBy_perm byTsDesc). apply dedupe_NoDup.
  - intros it _. apply not_elem_of_empty.
Qed.

(** X14.  When no two pushed entries have the same kind and output path,
    the manifest holds the pushed entries, each once: none is lost and
    none is added. *)
Theorem manifest_keeps_distinct_entries items :
  NoDup (key <$> items) ->
  manifest items ≡ₚ items /\ length (manifest items) = length items.
Proof.
  intros Hnd.
  assert (H : manifest items ≡ₚ items).
  { unfold manifest. rewrite sortBy_perm, dedupe_NoDup_id; [reflexivity|exact Hnd|].
    intros it _. apply not_elem_of_empty. }
  split; [exact H|]. by rewrite H.
Qed.

(** X14, for the entries of two pictures. *)
Lemma manifest_keeps_distinct_entries_witness :
  let items :=
    (runTasks Sample.working false Sample.NOW true Sample.index
       [Sample.beach; Sample.holiday] Sample.emptyWorld).1 in
  manifest items ≡ₚ items /\ length (manifest items) = length items.
Proof.
  intros items. apply manifest_keeps_distinct_entries.
  subst items. vm_compute.
  repeat (constructor; [rewrite ?list_elem_of_In; simpl; intuition discriminate|]).
  constructor.
Defined.

(* ===================================================================== *)
(** * Further properties: the records of the export *)
(* ===================================================================== *)

Lemma digitCount_pos fuel a : (1 <= digitCount fuel a)%nat.
Proof. destruct fuel; simpl; [lia|]. destruct (a <? 10); lia. Qed.

Lemma digitCount_le fuel : forall (n : nat) a,
  0 <= a -> (1 <= n <= fuel)%nat ->
  ((digitCount fuel a <= n)%nat <-> a < 10 ^ Z.of_nat n).
Proof.
  induction fuel as [|fuel IH]; intros n a Ha Hn; [lia|].
  simpl. destruct (a <? 10) eqn:E.
  - apply Z.ltb_lt in E. split; [intros _|lia].
    assert (10 ^ 1 <= 10 ^ Z.of_nat n) by (apply Z.pow_le_mono_r; lia). lia.
  - apply Z.ltb_ge in E. destruct n as [|[|n]]; [lia| |].
    + pose proof (digitCount_pos fuel (a / 10)). simpl. lia.
    + assert (Hdiv : 0 <= a / 10) by (apply Z.div_pos; lia).
      specialize (IH (S n) (a / 10) Hdiv ltac:(lia)).
      replace (Z.of_nat (S (S n))) with (Z.succ (Z.of_nat (S n))) by lia.
      rewrite Z.pow_succ_r by lia.
      split.
      * intros H. assert (H' : a / 10 < 10 ^ Z.of_nat (S n)) by (apply IH; lia).
        pose proof (Z.div_mod a 10 ltac:(lia)).
        pose proof (Z.mod_pos_bound a 10 ltac:(lia)). lia.
      * intros H. assert (H' : a / 10 < 10 ^ Z.of_nat (S n))
          by (apply Z.div_lt_upper_bound; lia).
        apply IH in H'. lia.
Qed.

(** [String(n).length < 13] on the integers. *)
Lemma decimalLength_short z :
  (decimalLength z <? 13)%nat = (- 10 ^ 11 <? z) && (z <? 10 ^ 12).
Proof.
  unfold decimalLength. destruct (z <? 0) eqn:E.
  - apply Z.ltb_lt in E.
    pose proof (digitCount_le 21 11 (Z.abs z) ltac:(lia) ltac:(lia)) as H.
    change (Z.of_nat 11) with 11 in H.
    destruct (1 + digitCount 21 (Z.abs z) <? 13)%nat eqn:L.
    + apply Nat.ltb_lt in L. symmetry. apply andb_true_iff.
      rewrite !Z.ltb_lt. lia.
    + apply Nat.ltb_ge in L. symmetry. apply andb_false_iff. left.
      apply Z.ltb_ge. lia.
  - apply Z.ltb_ge in E.
    pose proof (digitCount_le 21 12 (Z.abs z) ltac:(lia) ltac:(lia)) as H.
    change (Z.of_nat 12) with 12 in H.
    destruct (0 + digitCount 21 (Z.abs z) <? 13)%nat eqn:L.
    + apply Nat.ltb_lt in L. symmetry. apply andb_true_iff.
      rewrite !Z.ltb_lt. lia.
    + apply Nat.ltb_ge in L. symmetry. apply andb_false_iff. right.
      apply Z.ltb_ge. lia.
Qed.

(** X15.  Seconds and milliseconds: when the first present timestamp field
    of a record is a non-zero integer [n], the record is dated [n * 1000]
    if [n] lies strictly between [-10^11] and [10^12] (fewer than 13
    characters in decimal, the sign counted) and [n] otherwise. *)
Theorem getTsMs_units coerce beyondDecimal rec n :
  candidate rec = Some (JNum (Finite n)) ->
  n <> 0 ->
  Z.abs n < 10 ^ 21 ->
  getTsMs coerce beyondDecimal rec
  = Some (Finite (if (- 10 ^ 11 <? n) && (n <? 10 ^ 12) then n * 1000 else n)).
Proof.
  intros Hc Hn Hb. unfold getTsMs. rewrite Hc. simpl.
  apply Z.eqb_neq in Hn. rewrite Hn. simpl.
  apply Z.ltb_lt in Hb. rewrite Hb. by rewrite decimalLength_short.
Qed.

(** X15, for a record with [creation_timestamp: 1700000000]. *)
Lemma getTsMs_units_witness :
  getTsMs (fun _ => NaN) (fun _ => NaN)
    (JObj [("creation_timestamp", JNum (Finite 1700000000))])
  = Some (Finite 1700000000000).
Proof.
  apply (getTsMs_units (fun _ => NaN) (fun _ => NaN)
           (JObj [("creation_timestamp", JNum (Finite 1700000000))]) 1700000000).
  - reflexivity.
  - lia.
  - reflexivity.
Defined.

(** X16.  The fields [taken_at], [taken_at_timestamp] and [created_at] are
    read only when [creation_timestamp] is absent or null: two records
    with the same non-null [creation_timestamp] and the same first media
    element get the same timestamp, also when that field cannot be used (a
    zero, say) and another field could. *)
Theorem later_fields_are_not_read coerce beyondDecimal rec rec' v :
  prop rec "creation_timestamp" = Some v ->
  prop rec' "creation_timestamp" = Some v ->
  v <> JNull ->
  firstMediaStamp rec = firstMediaStamp rec' ->
  getTsMs coerce beyondDecimal rec = getTsMs coerce beyondDecimal rec'.
Proof.
  intros H1 H2 Hv Hm.
  assert (Hc : forall r, prop r "creation_timestamp" = Some v -> candidate r = Some v).
  { intros r Hr. unfold candidate, orElse. rewrite Hr.
    destruct v; try reflexivity. contradiction. }
  unfold getTsMs. by rewrite (Hc rec H1), (Hc rec' H2), Hm.
Qed.

(** X16, for a record whose [creation_timestamp] is 0 and whose [taken_at]
    is a date of 2023: it gets no timestamp, like the record without
    [taken_at]. *)
Lemma later_fields_are_not_read_witness :
  getTsMs (fun _ => NaN) (fun _ => NaN)
    (JObj [("creation_timestamp", JNum (Finite 0));
           ("taken_at", JNum (Finite 1700000000))])
  = getTsMs (fun _ => NaN) (fun _ => NaN)
      (JObj [("creation_timestamp", JNum (Finite 0))]).
Proof.
  apply (later_fields_are_not_read (fun _ => NaN) (fun _ => NaN) _ _
           (JNum (Finite 0))).
  - reflexivity.
  - reflexivity.
  - discriminate.
  - reflexivity.
Defined.

(* --------------------------------------------------------------------- *)
(** ** The media files that a record refers to *)
(* --------------------------------------------------------------------- *)

Lemma takeWhile_Forall (p : ascii -> bool) l :
  Forall (fun c => p c = true) (Path.takeWhile p l).
Proof.
  induction l as [|c l IH]; simpl; [constructor|].
  destruct (p c) eqn:E; constructor; assumption.
Qed.

Lemma takeWhile_all (p : ascii -> bool) l :
  Forall (fun c => p c = true) l -> Path.takeWhile p l = l.
Proof.
  induction 1 as [|c l Hc _ IH]; simpl; [reflexivity|]. by rewrite Hc, IH.
Qed.

Lemma dropWhile_none (p : ascii -> bool) l :
  Forall (fun c => p c = false) l -> Path.dropWhile p l = l.
Proof. destruct 1 as [|c l Hc _]; simpl; [reflexivity|]. by rewrite Hc. Qed.

Lemma list_ascii_of_string_of_list l :
  list_ascii_of_string (string_of_list_ascii l) = l.
Proof. induction l as [|c l IH]; simpl; [reflexivity|]. by rewrite IH. Qed.

(** A basename holds no separator, and is its own basename. *)
Lemma basename_no_slash p :
  Forall (fun c => Path.isSlash c = false) (list_ascii_of_string (Path.basename p)).
Proof.
  unfold Path.basename. rewrite list_ascii_of_string_of_list.
  apply Forall_rev.
  eapply Forall_impl; [apply takeWhile_Forall|].
  intros c Hc. simpl in Hc. by apply negb_true_iff in Hc.
Qed.

Lemma basename_of_name s :
  Forall (fun c => Path.isSlash c = false) (list_ascii_of_string s) ->
  Path.basename s = s.
Proof.
  intros H. unfold Path.basename.
  rewrite dropWhile_none by (by apply Forall_rev).
  rewrite takeWhile_all.
  - by rewrite rev_involutive, string_of_list_ascii_of_string.
  - apply Forall_rev. eapply Forall_impl; [exact H|].
    intros c Hc. simpl. by rewrite Hc.
Qed.

Lemma basename_idem p : Path.basename (Path.basename p) = Path.basename p.
Proof. apply basename_of_name, basename_no_slash. Qed.

Lemma uriOf_Some s b :
  uriOf s = Some b -> Path.basename b = b /\ isImage b || isVideo b = true.
Proof.
  unfold uriOf, isImage, isVideo.
  destruct (inExts IMAGE_EXTS _ || inExts VIDEO_EXTS _) eqn:E; [|discriminate].
  intros [= <-]. split; [apply basename_idem | exact E].
Qed.

Lemma setAdd_elem x out b : b ∈ setAdd x out <-> b ∈ out \/ b = x.
Proof.
  unfold setAdd. destruct (bool_decide (x ∈ out)) eqn:E.
  - apply bool_decide_eq_true in E. split; [auto|]. intros [H| ->]; assumption.
  - rewrite elem_of_app, list_elem_of_singleton. tauto.
Qed.

Lemma setAdd_NoDup x out : NoDup out -> NoDup (setAdd x out).
Proof.
  unfold setAdd. destruct (bool_decide (x ∈ out)) eqn:E; [auto|].
  apply bool_decide_eq_false in E. intros H. apply NoDup_app. split; [exact H|].
  split; [|apply NoDup_singleton].
  intros y Hy Hx. apply list_elem_of_singleton in Hx. by subst y.
Qed.

Lemma collectUrisDeep_spec node : forall out,
  (NoDup out -> NoDup (collectUrisDeep node out)) /\
  (forall b, b ∈ collectUrisDeep node out <->
             b ∈ out \/ exists s, s ∈ stringLeaves node /\ uriOf s = Some b).
Proof.
  induction node as [|flag|num|s|elems IH|fields IH] using json_induction;
    intros out;
    cbn [collectUrisDeep stringLeaves].
  1-3: split; [auto|]; intros b; split; [auto|];
       intros [H|(s & Hs & _)]; [exact H | by apply elem_of_nil in Hs].
  - destruct (uriOf s) as [base|] eqn:E.
    + split; [apply setAdd_NoDup|]. intros b. rewrite setAdd_elem. split.
      * intros [H| ->]; [by left|]. right. exists s. split; [left|exact E].
      * intros [H|(s' & Hs & Hu)]; [by left|].
        apply list_elem_of_singleton in Hs as ->. right. congruence.
    + split; [auto|]. intros b. split; [auto|].
      intros [H|(s' & Hs & Hu)]; [exact H|].
      apply list_elem_of_singleton in Hs as ->. congruence.
  - revert out. induction IH as [|x l Hx _ IHl]; intros out;
      cbn [foldl flat_map].
    + split; [auto|]. intros b. split; [auto|].
      intros [H|(s & Hs & _)]; [exact H | by apply elem_of_nil in Hs].
    + destruct (Hx out) as [Nx Ex]. destruct (IHl (collectUrisDeep x out)) as [Nl El].
      split; [auto|]. intros b'. rewrite El, Ex. split.
      * intros [[H|(s & Hs & Hu)]|(s & Hs & Hu)]; [by left| |];
          right; exists s; (split; [|exact Hu]); apply elem_of_app; auto.
      * intros [H|(s & Hs & Hu)]; [by left; left|].
        apply elem_of_app in Hs as [Hs|Hs]; [left; right|right]; by exists s.
  - revert out. induction IH as [|x l Hx _ IHl]; intros out;
      cbn [foldl flat_map].
    + split; [auto|]. intros b. split; [auto|].
      intros [H|(s & Hs & _)]; [exact H | by apply elem_of_nil in Hs].
    + destruct (Hx out) as [Nx Ex].
      destruct (IHl (collectUrisDeep (snd x) out)) as [Nl El].
      split; [auto|]. intros b'. rewrite El, Ex. split.
      * intros [[H|(s & Hs & Hu)]|(s & Hs & Hu)]; [by left| |];
          right; exists s; (split; [|exact Hu]); apply elem_of_app; auto.
      * intros [H|(s & Hs & Hu)]; [by left; left|].
        apply elem_of_app in Hs as [Hs|Hs]; [left; right|right]; by exists s.
Qed.

(** X17.  For a record whose string values are ASCII, [collectUrisDeep]
    finds the media files the record refers to at any depth and under any
    key: the set it fills holds, each once, the basenames of the string
    values of the record that name a file with an image or video
    extension (after trimming and without the query part), and nothing
    else.  Each is a bare file name. *)
Theorem collectUrisDeep_finds_all node :
  Forall isAsciiString (stringLeaves node) ->
  NoDup (collectUrisDeep node []) /\
  (forall b, b ∈ collectUrisDeep node [] <->
             exists s, s ∈ stringLeaves node /\ uriOf s = Some b) /\
  (forall b, b ∈ collectUrisDeep node [] ->
             Path.basename b = b /\ isImage b || isVideo b = true).
Proof.
  intros _.
  destruct (collectUrisDeep_spec node []) as [Hnd Hel].
  split; [apply Hnd; constructor|].
  assert (H : forall b, b ∈ collectUrisDeep node [] <->
                        exists s, s ∈ stringLeaves node /\ uriOf s = Some b).
  { intros b. rewrite Hel. split; [|auto].
    intros [H|H]; [by apply elem_of_nil in H | exact H]. }
  split; [exact H|].
  intros b Hb. apply H in Hb as (s & _ & Hu). by apply uriOf_Some in Hu.
Qed.

(** X17, for a record with a uri two levels down, one with a query part,
    and a title. *)
Lemma collectUrisDeep_finds_all_witness :
  let node :=
    JObj [("media", JArr [JObj [("uri", JStr " media/posts/202311/a.jpg ")];
                          JObj [("uri", JStr "media/reels/b.MP4?x=1")]]);
          ("title", JStr "hello")] in
  collectUrisDeep node [] = ["a.jpg"; "b.MP4"] /\
  NoDup (collectUrisDeep node []) /\
  (forall b, b ∈ collectUrisDeep node [] <->
             exists s, s ∈ stringLeaves node /\ uriOf s = Some b).
Proof.
  intros node. split; [vm_compute; reflexivity|].
  destruct (collectUrisDeep_finds_all node) as (Hnd & Hel & _).
  - subst node. unfold isAsciiString. simpl.
    repeat (constructor; [repeat (constructor; [reflexivity|]); constructor|]).
    constructor.
  - split; [exact Hnd | exact Hel].
Defined.

(* --------------------------------------------------------------------- *)
(** ** From a record of the export to the date of a file *)
(* --------------------------------------------------------------------- *)

Lemma head_filter_first {A} (P : A -> Prop) `{!forall x, Decision (P x)}
    (before after : list A) x :
  Forall (fun y => ~ P y) before -> P x ->
  head (filter P (before ++ x :: after)) = Some x.
Proof.
  induction 1 as [|y l Hy _ IH]; intros Hx; simpl.
  - by rewrite filter_cons_True.
  - rewrite filter_cons_False by exact Hy. by apply IH.
Qed.

(** X18.  From the export to the manifest date: a file on disk whose
    basename is named by a string value of a record with ASCII string
    values, anywhere in it, is dated by that record when no earlier record
    names it.  With a first timestamp field of [n] seconds ([n] below
    [10^12]) the resolved timestamp is [n * 1000] if that is plausible,
    whatever the probe, the folder and the mtime say, and the caption is
    that of the record. *)
Theorem record_dates_its_file coerce beyondDecimal NOW ff files before rec r after f n :
  concat files = before ++ r :: after ->
  Forall (fun r' => Path.basename (abs f) ∉ rec_uris r') before ->
  Forall isAsciiString (stringLeaves rec) ->
  describes coerce beyondDecimal rec r ->
  (exists s, s ∈ stringLeaves rec /\ uriOf s = Some (Path.basename (abs f))) ->
  candidate rec = Some (JNum (Finite n)) ->
  n < 10 ^ 12 ->
  plausible NOW (Some (Finite (n * 1000))) = true ->
  let res := resolve NOW ff (buildMetaIndex files) f in
  r_ts res = Finite (n * 1000) /\ r_caption res = rec_caption r.
Proof.
  intros Hfiles Hbefore _ (Hts & _ & Huris) Hleaf Hcand Hn Hpl res.
  apply plausible_spec in Hpl as Hz. destruct Hz as (z & [= <-] & Hlo & _).
  assert (Hget : rec_ts r = Some (Finite (n * 1000))).
  { rewrite Hts. unfold getTsMs. rewrite Hcand. simpl.
    assert (E0 : (n =? 0) = false) by (apply Z.eqb_neq; lia). rewrite E0. simpl.
    assert (Eb : (Z.abs n <? 10 ^ 21) = true) by (apply Z.ltb_lt; lia). rewrite Eb.
    rewrite decimalLength_short.
    assert (E1 : (- 10 ^ 11 <? n) = true) by (apply Z.ltb_lt; lia).
    assert (E2 : (n <? 10 ^ 12) = true) by (apply Z.ltb_lt; lia).
    by rewrite E1, E2. }
  assert (Hin : Path.basename (abs f) ∈ rec_uris r).
  { rewrite Huris. apply (proj2 (collectUrisDeep_spec rec [])). by right. }
  assert (Hlook : byBase (buildMetaIndex files) !! Path.basename (abs f)
                  = Some (entryOfRecord r)).
  { unfold buildMetaIndex. rewrite foldl_concat, Hfiles.
    rewrite (proj1 (foldl_indexRecord_lookup _ emptyIndex)). simpl.
    rewrite lookup_empty.
    by rewrite (head_filter_first (fun r' => Path.basename (abs f) ∈ rec_uris r')). }
  assert (Hmeta : r_meta res = Some (entryOfRecord r)).
  { subst res. by rewrite r_meta_eq, Hlook. }
  assert (HmetaTs : r_metaTs res = Some (Finite (n * 1000))).
  { subst res. rewrite r_metaTs_eq, Hmeta. simpl. rewrite Hget.
    apply keepPlausible_Some. auto. }
  split.
  - subst res. by rewrite r_ts_eq, HmetaTs.
  - subst res. by rewrite r_caption_eq, Hmeta.
Qed.

(** X18, for the record of the specification's scenario:
    [creation_timestamp: 1700000000] and a media element with the uri
    [media/posts/202311/abc123456789012.jpg], the file being on disk. *)
Lemma record_dates_its_file_witness :
  let f := {| abs := "/export/media/posts/202311/abc123456789012.jpg";
              fid := "abc123456789012-0a1b2c3d";
              mtimeMs := 1500000000000;
              probeTime := None |} in
  let r := {| rec_ts := Some (Finite 1700000000000); rec_caption := "";
              rec_uris := ["abc123456789012.jpg"] |} in
  let res := resolve 1700000000000 true (buildMetaIndex [[r]]) f in
  r_ts res = Finite (1700000000 * 1000) /\ r_caption res = rec_caption r.
Proof.
  intros f r.
  apply (record_dates_its_file (fun _ => NaN) (fun _ => NaN) 1700000000000 true
           [[r]] []
           (JObj [("creation_timestamp", JNum (Finite 1700000000));
                  ("media", JArr [JObj [("uri",
                      JStr "media/posts/202311/abc123456789012.jpg")]])])
           r [] f 1700000000).
  - reflexivity.
  - constructor.
  - unfold isAsciiString. simpl.
    repeat (constructor; [repeat (constructor; [reflexivity|]); constructor|]).
    constructor.
  - vm_compute. repeat split; reflexivity.
  - exists "media/posts/202311/abc123456789012.jpg". split.
    + vm_compute. left.
    + vm_compute. reflexivity.
  - reflexivity.
  - lia.
  - vm_compute. reflexivity.
Defined.

(* ===================================================================== *)
(** * Further properties: command line, identifiers and the scan *)
(* ===================================================================== *)

Lemma indexOf_Some flag args i :
  indexOf flag args = Some i <->
  exists pre post, args = pre ++ flag :: post /\ (flag ∉ pre) /\ length pre = i.
Proof.
  revert i. induction args as [|a rest IH]; intros i; simpl.
  - split; [discriminate|]. intros (pre & post & H & _). by destruct pre.
  - destruct (String.eqb a flag) eqn:E.
    + apply String.eqb_eq in E as ->. split.
      * intros [= <-]. exists [], rest. split; [reflexivity|].
        split; [apply not_elem_of_nil | reflexivity].
      * intros (pre & post & H & Hn & <-). destruct pre as [|x pre]; [reflexivity|].
        injection H as <- _. exfalso. apply Hn. left.
    + apply String.eqb_neq in E. destruct (indexOf flag rest) as [j|]; simpl.
      * split.
        -- intros [= <-]. destruct (proj1 (IH j) eq_refl) as (pre & post & -> & Hn & <-).
           exists (a :: pre), post. split; [reflexivity|]. split; [|reflexivity].
           intros Hin. apply elem_of_cons in Hin as [->|Hin]; [by apply E | by apply Hn].
        -- intros (pre & post & H & Hn & <-). destruct pre as [|x pre].
           { injection H as -> _. by contradiction E. }
           injection H as <- ->. f_equal. simpl.
           assert (Hj : Some j = Some (length pre)); [|injection Hj as ->; reflexivity].
           apply IH. exists pre, post. split; [reflexivity|]. split; [|reflexivity].
           intros Hin. apply Hn. by right.
      * split; [discriminate|].
        intros (pre & post & H & Hn & <-). destruct pre as [|x pre].
        { injection H as -> _. by contradiction E. }
        injection H as <- ->. exfalso.
        assert (Hj : None = Some (length pre)); [|discriminate Hj].
        apply IH. exists pre, post. split; [reflexivity|]. split; [|reflexivity].
        intros Hin. apply Hn. by right.
Qed.

Lemma getArg_Some args flag v :
  getArg args flag None = Some v <-> follows flag v args.
Proof.
  unfold getArg, follows. destruct (indexOf flag args) as [i|] eqn:E.
  - apply indexOf_Some in E as (pre & post & -> & Hn & <-).
    replace (S (length pre)) with (length (pre ++ [flag])%list)
      by (rewrite length_app; simpl; lia).
    replace (pre ++ flag :: post) with ((pre ++ [flag]) ++ post)
      by (by rewrite <- app_assoc).
    rewrite lookup_app_r by lia. rewrite Nat.sub_diag. split.
    + destruct post as [|x post]; [discriminate|]. intros [= ->].
      exists pre, post. split; [by rewrite <- app_assoc | exact Hn].
    + intros (pre' & post' & H & Hn').
      rewrite <- app_assoc in H. simpl in H.
      assert (Hpre : pre = pre').
      { clear -H Hn Hn'. revert pre' H Hn'.
        induction pre as [|x pre IH]; intros [|y pre'] H Hn'; simpl in H.
        - reflexivity.
        - injection H as <- _. exfalso. apply Hn'. left.
        - injection H as -> _. exfalso. apply Hn. left.
        - injection H as <- H. f_equal. apply IH.
          + intros Hin. apply Hn. by right.
          + exact H.
          + intros Hin. apply Hn'. by right. }
      subst pre'. apply app_inv_head in H. injection H as ->. reflexivity.
  - split; [discriminate|]. intros (pre & post & -> & Hn).
    assert (H : indexOf flag (pre ++ flag :: v :: post) = Some (length pre)).
    { apply indexOf_Some. by exists pre, (v :: post). }
    congruence.
Qed.

(** X19.  The script gets past its usage check exactly when both [--in]
    and [--out] occur among the arguments and the first occurrence of each
    is followed by a non-empty argument, which becomes the directory, be
    it another flag.  A flag that comes last counts as missing. *)
Theorem usage_check args :
  (usageError args = false <->
   exists i o, i <> "" /\ o <> "" /\
               follows "--in" i args /\ follows "--out" o args) /\
  (forall flag pre, flag ∉ pre -> getArg (pre ++ [flag]) flag None = None).
Proof.
  split.
  - unfold usageError. rewrite orb_false_iff. split.
    + intros [Hi Ho].
      destruct (getArg args "--in" None) as [i|] eqn:Ei; [|discriminate Hi].
      destruct (getArg args "--out" None) as [o|] eqn:Eo; [|discriminate Ho].
      simpl in Hi, Ho. apply String.eqb_neq in Hi, Ho.
      apply getArg_Some in Ei, Eo. by exists i, o.
    + intros (i & o & Hi & Ho & Fi & Fo).
      apply getArg_Some in Fi, Fo. rewrite Fi, Fo. simpl.
      split; by apply String.eqb_neq.
  - intros flag pre Hn. unfold getArg.
    assert (H : indexOf flag (pre ++ [flag]) = Some (length pre)).
    { apply indexOf_Some. by exists pre, []. }
    rewrite H. apply lookup_ge_None. rewrite length_app. simpl. lia.
Qed.

(* --------------------------------------------------------------------- *)
(** ** Identifiers *)
(* --------------------------------------------------------------------- *)

Lemma lowerChar_slug c :
  isWord c || Ascii.eqb c "-" = true -> isSlugChar (Path.lowerChar c) = true.
Proof.
  destruct c as [[] [] [] [] [] [] [] []]; vm_compute; intros H;
    first [reflexivity | discriminate H].
Qed.

Lemma slugChar_fixed c :
  isSlugChar c = true ->
  Path.lowerChar c = c /\ keptBySlug c = true /\ isSpace c = false.
Proof.
  destruct c as [[] [] [] [] [] [] [] []]; vm_compute; intros H;
    first [discriminate H | repeat split].
Qed.

Lemma keepChars_Forall p l : Forall (fun c => p c = true) (keepChars p l).
Proof.
  induction l as [|c l IH]; simpl; [constructor|].
  destruct (p c) eqn:E; [constructor|]; assumption.
Qed.

Lemma dropWhile_Forall (P : ascii -> Prop) p l :
  Forall P l -> Forall P (Path.dropWhile p l).
Proof.
  induction 1 as [|c l Hc Hl IH]; simpl; [constructor|].
  destruct (p c); [exact IH | by constructor].
Qed.

Lemma dashSpaces_Forall inRun l :
  Forall (fun c => keptBySlug c = true) l ->
  Forall (fun c => isWord c || Ascii.eqb c "-" = true) (dashSpaces inRun l).
Proof.
  intros H. revert inRun. induction H as [|c l Hc _ IH]; intros inRun; simpl;
    [constructor|].
  destruct (isSpace c) eqn:E.
  - destruct inRun; [apply IH|]. constructor; [reflexivity | apply IH].
  - constructor; [|apply IH]. unfold keptBySlug in Hc. rewrite E in Hc.
    by rewrite orb_false_r in Hc.
Qed.

Lemma toLowerCase_list s :
  list_ascii_of_string (Path.toLowerCase s)
  = map Path.lowerChar (list_ascii_of_string s).
Proof. induction s as [|c s IH]; simpl; [reflexivity|]. by rewrite IH. Qed.

Lemma slugify_chars s :
  Forall (fun c => isSlugChar c = true) (list_ascii_of_string (slugify s)).
Proof.
  unfold slugify. rewrite toLowerCase_list, list_ascii_of_string_of_list.
  apply Forall_map. eapply Forall_impl.
  - apply dashSpaces_Forall. unfold trim.
    rewrite !list_ascii_of_string_of_list.
    apply Forall_rev, dropWhile_Forall, Forall_rev, dropWhile_Forall,
      keepChars_Forall.
  - intros c Hc. by apply lowerChar_slug.
Qed.

Lemma keepChars_all p l : Forall (fun c => p c = true) l -> keepChars p l = l.
Proof. induction 1 as [|c l Hc _ IH]; simpl; [reflexivity|]. by rewrite Hc, IH. Qed.

Lemma dashSpaces_none inRun l :
  Forall (fun c => isSpace c = false) l -> dashSpaces inRun l = l.
Proof.
  intros H. revert inRun. induction H as [|c l Hc _ IH]; intros inRun; simpl;
    [reflexivity|]. by rewrite Hc, IH.
Qed.

Lemma slugify_fixed s :
  Forall (fun c => isSlugChar c = true) (list_ascii_of_string s) ->
  slugify s = s.
Proof.
  intros H. unfold slugify, trim.
  assert (Hk : Forall (fun c => keptBySlug c = true) (list_ascii_of_string s)).
  { eapply Forall_impl; [exact H|]. intros c Hc.
    by destruct (slugChar_fixed c Hc) as (_ & ? & _). }
  assert (Hs : Forall (fun c => isSpace c = false) (list_ascii_of_string s)).
  { eapply Forall_impl; [exact H|]. intros c Hc.
    by destruct (slugChar_fixed c Hc) as (_ & _ & ?). }
  rewrite (keepChars_all _ _ Hk), !list_ascii_of_string_of_list.
  rewrite (dropWhile_none _ _ Hs).
  rewrite (dropWhile_none _ (rev _)) by (by apply Forall_rev).
  rewrite rev_involutive.
  rewrite (dashSpaces_none _ _ Hs), string_of_list_ascii_of_string.
  clear Hk Hs. induction s as [|c s IH]; simpl; [reflexivity|].
  simpl in H. apply Forall_cons in H as [Hc H].
  apply slugChar_fixed in Hc as [-> _]. by rewrite IH.
Qed.

(** X20.  The slug of an ASCII name holds only lower-case letters, digits,
    [_] and [-]: no separator, no dot, no space.  A slug is its own
    slug. *)
Theorem slugify_charset s :
  isAsciiString s ->
  Forall (fun c => isSlugChar c = true) (list_ascii_of_string (slugify s)) /\
  slugify (slugify s) = slugify s.
Proof.
  intros _. split; [apply slugify_chars|]. apply slugify_fixed, slugify_chars.
Qed.

(** X20, for the stem [IMG 2023_Holiday (1)]. *)
Lemma slugify_charset_witness :
  Forall (fun c => isSlugChar c = true)
         (list_ascii_of_string (slugify "IMG 2023_Holiday  (1)")) /\
  slugify (slugify "IMG 2023_Holiday  (1)") = slugify "IMG 2023_Holiday  (1)".
Proof.
  apply slugify_charset. unfold isAsciiString. simpl.
  repeat (constructor; [reflexivity|]). constructor.
Defined.

(* --------------------------------------------------------------------- *)
(** ** The scan *)
(* --------------------------------------------------------------------- *)

Lemma includes_spec needle s : includes needle s = true <-> contains needle s.
Proof.
  unfold contains. induction s as [|c s IH]; simpl.
  - destruct (Path.stripPrefix needle "") as [r|] eqn:E.
    + apply stripPrefix_Some in E. split; [intros _|reflexivity].
      exists "", r. by rewrite append_nil.
    + split; [discriminate|]. intros (pre & post & H).
      destruct pre as [|a pre]; [|rewrite append_cons in H; discriminate H].
      rewrite append_nil in H.
      assert (E' : Path.stripPrefix needle "" = Some post)
        by (by apply stripPrefix_Some).
      congruence.
  - destruct (Path.stripPrefix needle (String c s)) as [r|] eqn:E.
    + apply stripPrefix_Some in E. split; [intros _|reflexivity].
      exists "", r. by rewrite append_nil.
    + rewrite IH. split.
      * intros (pre & post & ->). exists (String c pre), post.
        by rewrite append_cons.
      * intros (pre & post & H). destruct pre as [|a pre].
        -- rewrite append_nil in H.
           assert (E' : Path.stripPrefix needle (String c s) = Some post)
             by (by apply stripPrefix_Some).
           congruence.
        -- rewrite append_cons in H. injection H as _ ->. by exists pre, post.
Qed.

(** X21.  The scan keeps, in the order of the walk, exactly the walked
    paths that are not below a folder [media/recently_deleted] and have an
    image or a video extension; each is an image or a video and not both,
    so that its job goes to exactly one of the two processors. *)
Theorem collectDiskMedia_spec walked :
  collectDiskMedia walked `sublist_of` concat walked /\
  forall p, p ∈ collectDiskMedia walked <->
    p ∈ concat walked /\
    ~ contains "/media/recently_deleted/" (Path.slashes p) /\
    (isImage p = true /\ isVideo p = false \/
     isImage p = false /\ isVideo p = true).
Proof.
  unfold collectDiskMedia. split; [apply sublist_filter|].
  intros p. rewrite list_elem_of_filter. unfold isMediaFile.
  rewrite andb_true_iff, negb_true_iff, <- includes_spec.
  fold (isImage p). fold (isVideo p).
  destruct (includes _ _); destruct (isImage p) eqn:Ei; destruct (isVideo p) eqn:Ev;
    simpl; try (apply isVideo_not_image in Ev; congruence);
    intuition (try discriminate; auto).
Qed.

(* ===================================================================== *)
(** * Further properties: the sort of the posts-only script *)
(* ===================================================================== *)

Section SortOn.

Context {A : Type} (cmp : A -> A -> number) (dom : A -> Prop).

Local Abbreviation R := (fun a b : A => JS.positive (cmp a b) = false).

Hypothesis cmp_asym : forall a b, dom a -> dom b ->
  JS.positive (cmp a b) = true -> JS.positive (cmp b a) = false.
Hypothesis R_trans : forall a b c, dom a -> dom b -> dom c ->
  JS.positive (cmp a b) = false -> JS.positive (cmp b c) = false ->
  JS.positive (cmp a c) = false.
Hypothesis R_antisym : forall a b, dom a -> dom b ->
  JS.positive (cmp a b) = false -> JS.positive (cmp b a) = false -> a = b.

Lemma insertSorted_elem (x y : A) l :
  y ∈ insertSorted cmp x l <-> y = x \/ y ∈ l.
Proof. by rewrite insertSorted_perm, elem_of_cons. Qed.

Lemma insertSorted_strongly x l :
  dom x -> Forall dom l -> StronglySorted R l ->
  StronglySorted R (insertSorted cmp x l).
Proof.
  intros Hx Hl Hs. induction Hs as [|y l Hs IH Hy]; simpl.
  - repeat constructor.
  - apply Forall_cons in Hl as [Sy Sl].
    destruct (JS.positive (cmp x y)) eqn:E.
    + constructor; [by apply IH|].
      apply Forall_forall. intros z Hz.
      apply insertSorted_elem in Hz as [->|Hz].
      * by apply cmp_asym.
      * exact (proj1 (Forall_forall _ _) Hy z Hz).
    + constructor; [by constructor|].
      constructor; [exact E|].
      apply Forall_forall. intros z Hz.
      apply (R_trans x y z Hx Sy); [|exact E|].
      * exact (proj1 (Forall_forall _ _) Sl z Hz).
      * exact (proj1 (Forall_forall _ _) Hy z Hz).
Qed.

Lemma sortBy_strongly l : Forall dom l -> StronglySorted R (sortBy cmp l).
Proof.
  induction 1 as [|x l Hx Hl IH]; [constructor|].
  change (sortBy cmp (x :: l)) with (insertSorted cmp x (sortBy cmp l)).
  apply insertSorted_strongly; [exact Hx| |exact IH].
  by rewrite (sortBy_perm cmp l).
Qed.

Lemma strongly_sorted_unique l : forall l',
  Forall dom l -> StronglySorted R l -> StronglySorted R l' -> l ≡ₚ l' -> l = l'.
Proof.
  induction l as [|a t IH]; intros l' HS Hl Hl' Hp.
  - by apply Permutation_nil in Hp.
  - destruct l' as [|b t']; [by apply Permutation_sym, Permutation_nil in Hp|].
    apply Forall_cons in HS as [Sa St].
    apply StronglySorted_inv in Hl as [Hst Hat].
    apply StronglySorted_inv in Hl' as [Hst' Hbt'].
    assert (Sb : dom b).
    { assert (Hb : b ∈ a :: t) by (rewrite Hp; left).
      apply elem_of_cons in Hb as [->|Hb]; [exact Sa|].
      exact (proj1 (Forall_forall _ _) St b Hb). }
    assert (Hab : a = b).
    { assert (Ha : a ∈ b :: t') by (rewrite <- Hp; left).
      assert (Hb : b ∈ a :: t) by (rewrite Hp; left).
      apply elem_of_cons in Ha as [Ha|Ha]; [exact Ha|].
      apply elem_of_cons in Hb as [Hb|Hb]; [by symmetry|].
      apply (R_antisym a b Sa Sb).
      - exact (proj1 (Forall_forall _ _) Hat b Hb).
      - exact (proj1 (Forall_forall _ _) Hbt' a Ha). }
    subst b. f_equal. apply IH; [exact St|exact Hst|exact Hst'|].
    by apply Permutation_cons_inv in Hp.
Qed.

Lemma sortBy_of_permutation l l' :
  Forall dom l -> l ≡ₚ l' -> sortBy cmp l = sortBy cmp l'.
Proof.
  intros HS Hp. assert (HS' : Forall dom l') by (by rewrite <- Hp).
  apply strongly_sorted_unique.
  - by rewrite (sortBy_perm cmp l).
  - by apply sortBy_strongly.
  - by apply sortBy_strongly.
  - by rewrite !sortBy_perm.
Qed.

End SortOn.

Lemma NoDup_fmap_same {A B} (g : A -> B) (l : list A) a b :
  NoDup (g <$> l) -> a ∈ l -> b ∈ l -> g a = g b -> a = b.
Proof.
  induction l as [|x l IH]; intros Hnd Ha Hb Hg; [by apply elem_of_nil in Ha|].
  rewrite fmap_cons in Hnd. apply NoDup_cons in Hnd as [Hx Hnd].
  apply elem_of_cons in Ha as [->|Ha]; apply elem_of_cons in Hb as [->|Hb].
  - reflexivity.
  - exfalso. apply Hx. rewrite Hg. apply list_elem_of_fmap. by exists b.
  - exfalso. apply Hx. rewrite <- Hg. apply list_elem_of_fmap. by exists a.
  - by apply IH.
Qed.

Section PostsOrder.

Variable localeCompare : string -> string -> number.
Variable l : list Posts.item.
Hypothesis ids_differ : NoDup (Posts.p_id <$> l).
Hypothesis collation : ordersStrictly localeCompare (Posts.p_id <$> l).

Local Abbreviation cmp := (Posts.newestFirst localeCompare).

Lemma posts_id_in a : a ∈ l -> Posts.p_id a ∈ Posts.p_id <$> l.
Proof. intros H. apply list_elem_of_fmap. by exists a. Qed.

Lemma newestFirst_positive a b :
  JS.positive (cmp a b) = true <->
  Posts.dateKey a < Posts.dateKey b \/
  (Posts.dateKey b = Posts.dateKey a /\
   JS.positive (localeCompare (Posts.p_id b) (Posts.p_id a)) = true).
Proof.
  unfold Posts.newestFirst.
  destruct (Posts.dateKey b =? Posts.dateKey a) eqn:E; simpl.
  - apply Z.eqb_eq in E. split; [auto|]. intros [H|[_ H]]; [lia|exact H].
  - apply Z.eqb_neq in E. rewrite Z.ltb_lt. split; [lia|]. intros [H|[H _]]; lia.
Qed.

Lemma newestFirst_not_positive a b :
  JS.positive (cmp a b) = false <->
  Posts.dateKey b < Posts.dateKey a \/
  (Posts.dateKey b = Posts.dateKey a /\
   JS.positive (localeCompare (Posts.p_id b) (Posts.p_id a)) = false).
Proof.
  unfold Posts.newestFirst.
  destruct (Posts.dateKey b =? Posts.dateKey a) eqn:E; simpl.
  - apply Z.eqb_eq in E. split; [auto|]. intros [H|[_ H]]; [lia|exact H].
  - apply Z.eqb_neq in E. rewrite Z.ltb_ge. split; [lia|]. intros [H|[H _]]; lia.
Qed.

Lemma newestFirst_asym a b : a ∈ l -> b ∈ l ->
  JS.positive (cmp a b) = true -> JS.positive (cmp b a) = false.
Proof.
  intros Ha Hb H. apply newestFirst_positive in H.
  apply newestFirst_not_positive.
  destruct H as [H|[He H]]; [by left|]. right. split; [by symmetry|].
  destruct collation as (Hasym & _ & _).
  apply Hasym; [by apply posts_id_in | by apply posts_id_in | exact H].
Qed.

Lemma collation_not_greater x y : x ∈ Posts.p_id <$> l -> y ∈ Posts.p_id <$> l ->
  JS.positive (localeCompare x y) = false ->
  x = y \/ JS.positive (localeCompare y x) = true.
Proof.
  intros Hx Hy H. destruct collation as (_ & _ & Htotal).
  destruct (decide (x = y)) as [->|Hne]; [by left|].
  destruct (Htotal x y Hx Hy Hne) as [H'|H']; [congruence | by right].
Qed.

Lemma newestFirst_trans a b c : a ∈ l -> b ∈ l -> c ∈ l ->
  JS.positive (cmp a b) = false -> JS.positive (cmp b c) = false ->
  JS.positive (cmp a c) = false.
Proof.
  intros Ha Hb Hc Hab Hbc.
  apply newestFirst_not_positive in Hab, Hbc. apply newestFirst_not_positive.
  destruct Hab as [Hab|[Eab Lab]]; destruct Hbc as [Hbc|[Ebc Lbc]];
    [left; lia | left; lia | left; lia |].
  right. split; [lia|].
  destruct (JS.positive (localeCompare (Posts.p_id c) (Posts.p_id a))) eqn:Lca;
    [exfalso|reflexivity].
  destruct collation as (Hasym & Htrans & _).
  apply collation_not_greater in Lab as [Eid|Lab]; [| |by apply posts_id_in..].
  { rewrite Eid in Lbc. congruence. }
  apply collation_not_greater in Lbc as [Eid|Lbc]; [| |by apply posts_id_in..].
  { rewrite Eid in Lca.
    pose proof (Hasym _ _ (posts_id_in _ Hb) (posts_id_in _ Ha) Lca). congruence. }
  pose proof (Htrans _ _ _ (posts_id_in _ Ha) (posts_id_in _ Hb) (posts_id_in _ Hc) Lab Lbc) as Lac.
  pose proof (Hasym _ _ (posts_id_in _ Ha) (posts_id_in _ Hc) Lac). congruence.
Qed.

Lemma newestFirst_antisym a b : a ∈ l -> b ∈ l ->
  JS.positive (cmp a b) = false -> JS.positive (cmp b a) = false -> a = b.
Proof.
  intros Ha Hb Hab Hba.
  apply newestFirst_not_positive in Hab, Hba.
  destruct Hab as [Hab|[Eab Lab]]; destruct Hba as [Hba|[Eba Lba]]; try lia.
  apply (NoDup_fmap_same Posts.p_id l a b ids_differ Ha Hb).
  apply collation_not_greater in Lab as [Eid|Lab]; [by symmetry| |by apply posts_id_in..].
  congruence.
Qed.

Lemma posts_sorted :
  StronglySorted (newerOrGreaterId localeCompare) (sortBy cmp l).
Proof.
  assert (Hs : StronglySorted (fun a b => JS.positive (cmp a b) = false)
                              (sortBy cmp l)).
  { apply (sortBy_strongly cmp (fun a => a ∈ l)).
    - apply newestFirst_asym.
    - apply newestFirst_trans.
    - by apply Forall_forall. }
  assert (Hnd : NoDup (sortBy cmp l)).
  { rewrite (sortBy_perm cmp l). by apply NoDup_fmap_1 in ids_differ. }
  assert (Hin : Forall (fun a => a ∈ l) (sortBy cmp l)).
  { rewrite (sortBy_perm cmp l). by apply Forall_forall. }
  induction Hs as [|a t Hs IH Ha]; [constructor|].
  apply NoDup_cons in Hnd as [Hat Hnd]. apply Forall_cons in Hin as [Sa St].
  constructor; [by apply IH|].
  apply Forall_forall. intros b Hb.
  assert (Sb : b ∈ l) by exact (proj1 (Forall_forall _ _) St b Hb).
  pose proof (proj1 (Forall_forall _ _) Ha b Hb) as Hab. simpl in Hab.
  apply newestFirst_not_positive in Hab as [Hab|[Eab Lab]]; [by left|].
  right. split; [exact Eab|].
  apply collation_not_greater in Lab as [Eid|Lab]; [|exact Lab|by apply posts_id_in..].
  exfalso. apply Hat.
  by rewrite (NoDup_fmap_same Posts.p_id l a b ids_differ Sa Sb (eq_sym Eid)).
Qed.

End PostsOrder.

(** X22.  In [ingest-posts.js] the order of the manifest does not depend on
    the order in which the entries were pushed: when the identifiers
    differ and the collation orders them strictly, any two arrangements of
    the same entries sort to the same list, every entry before all
    entries that are older, and before those of the same date that have a
    smaller identifier. *)
Theorem posts_order_independent localeCompare l l' :
  NoDup (Posts.p_id <$> l) ->
  ordersStrictly localeCompare (Posts.p_id <$> l) ->
  l ≡ₚ l' ->
  sortBy (Posts.newestFirst localeCompare) l
  = sortBy (Posts.newestFirst localeCompare) l' /\
  StronglySorted (newerOrGreaterId localeCompare)
    (sortBy (Posts.newestFirst localeCompare) l).
Proof.
  intros Hnd Hcol Hp. split.
  - apply (sortBy_of_permutation _ (fun a => a ∈ l)).
    + by apply newestFirst_asym.
    + by apply newestFirst_trans.
    + by apply newestFirst_antisym.
    + by apply Forall_forall.
    + exact Hp.
  - by apply posts_sorted.
Qed.

(** X22, for two pictures of one post, identifiers [beach-aaaa1111] and
    [city-bbbb2222], under the order of the character codes. *)
Lemma posts_order_independent_witness :
  let beach := {| Posts.p_id := "beach-aaaa1111"; Posts.p_type := Image;
                  Posts.p_src := "assets/media/img/full/beach-aaaa1111.webp";
                  Posts.p_thumb := "assets/media/img/thumbs/beach-aaaa1111.webp";
                  Posts.p_date := Some 1684152000000;
                  Posts.p_caption := "sea"; Posts.p_hidden := false |} in
  let city := {| Posts.p_id := "city-bbbb2222"; Posts.p_type := Image;
                 Posts.p_src := "assets/media/img/full/city-bbbb2222.webp";
                 Posts.p_thumb := "assets/media/img/thumbs/city-bbbb2222.webp";
                 Posts.p_date := Some 1684152000000;
                 Posts.p_caption := "sea"; Posts.p_hidden := false |} in
  sortBy (Posts.newestFirst codeOrder) [beach; city]
  = sortBy (Posts.newestFirst codeOrder) [city; beach] /\
  StronglySorted (newerOrGreaterId codeOrder)
    (sortBy (Posts.newestFirst codeOrder) [beach; city]).
Proof.
  intros beach city.
  assert (Hids : forall x, x ∈ Posts.p_id <$> [beach; city] ->
                           x = "beach-aaaa1111" \/ x = "city-bbbb2222").
  { intros x Hx. simpl in Hx.
    apply elem_of_cons in Hx as [->|Hx]; [by left|].
    apply list_elem_of_singleton in Hx as ->. by right. }
  apply posts_order_independent.
  - simpl. repeat (constructor; [rewrite ?list_elem_of_In; simpl; intuition discriminate|]).
    constructor.
  - split; [|split].
    + intros x y Hx Hy.
      destruct (Hids x Hx) as [-> | ->], (Hids y Hy) as [-> | ->];
        vm_compute; intros H; first [reflexivity | discriminate H].
    + intros x y z Hx Hy Hz.
      destruct (Hids x Hx) as [-> | ->], (Hids y Hy) as [-> | ->],
        (Hids z Hz) as [-> | ->];
        vm_compute; intros H1 H2; first [reflexivity | discriminate H1 | discriminate H2].
    + intros x y Hx Hy.
      destruct (Hids x Hx) as [-> | ->], (Hids y Hy) as [-> | ->];
        intros Hne; first [by contradiction Hne | vm_compute; auto].
  - apply Permutation_swap.
Defined.

(* ===================================================================== *)
(** * Further properties: later runs, forced runs, the posts-only script *)
(* ===================================================================== *)

Lemma plausible_later NOW1 NOW2 t :
  NOW1 <= NOW2 -> ~ becomesPlausible NOW1 NOW2 t ->
  plausible NOW1 t = plausible NOW2 t.
Proof.
  intros Hle Hno.
  destruct (plausible NOW1 t) eqn:E1, (plausible NOW2 t) eqn:E2; try reflexivity.
  - apply plausible_spec in E1 as (z & -> & Hz).
    assert (E : plausible NOW2 (Some (Finite z)) = true)
      by (apply plausible_spec; exists z; split; [reflexivity|lia]).
    congruence.
  - apply plausible_spec in E2 as (z & -> & Hlo & Hhi). exfalso. apply Hno.
    exists z. split; [reflexivity|]. rewrite !MAX_TS_unfold. split; [|lia].
    destruct (Z.le_gt_cases z (NOW1 + 259200000)) as [Hz|Hz]; [|lia].
    assert (E : plausible NOW1 (Some (Finite z)) = true)
      by (apply plausible_spec; exists z; split; [reflexivity|lia]).
    congruence.
Qed.

(** X24.  A later run dates a file as the earlier run did, stage by stage,
    unless one of its three candidate timestamps (that of the matched
    entry, the container time, the folder date) lay more than three days
    after the earlier run and no longer does so at the later one: the
    time of the run enters the resolution through the upper bound of the
    plausibility window only. *)
Theorem later_run_resolves_alike NOW1 NOW2 ff idx f :
  NOW1 <= NOW2 ->
  ~ becomesPlausible NOW1 NOW2
      (match r_meta (resolve NOW1 ff idx f) with
       | Some e => e_ts e
       | None => None
       end) ->
  ~ becomesPlausible NOW1 NOW2 (probeTime f) ->
  ~ becomesPlausible NOW1 NOW2 (tsFromFolder (abs f)) ->
  resolve NOW1 ff idx f = resolve NOW2 ff idx f /\
  entryOf NOW1 ff idx f = entryOf NOW2 ff idx f.
Proof.
  intros Hle Hm Hp Hf.
  assert (H : resolve NOW1 ff idx f = resolve NOW2 ff idx f).
  { rewrite r_meta_eq in Hm. unfold resolve, keepPlausible.
    rewrite (plausible_later NOW1 NOW2 _ Hle Hm),
            (plausible_later NOW1 NOW2 _ Hle Hp),
            (plausible_later NOW1 NOW2 _ Hle Hf).
    reflexivity. }
  split; [exact H|]. unfold entryOf. by rewrite H.
Qed.

(** X24, for the sample reel two days later. *)
Lemma later_run_resolves_alike_witness :
  resolve Sample.NOW true Sample.index Sample.reel
  = resolve (Sample.NOW + 172800000) true Sample.index Sample.reel /\
  entryOf Sample.NOW true Sample.index Sample.reel
  = entryOf (Sample.NOW + 172800000) true Sample.index Sample.reel.
Proof.
  apply later_run_resolves_alike.
  - unfold Sample.NOW. lia.
  - intros (z & H & _). vm_compute in H. discriminate H.
  - intros (z & H & Hz). vm_compute in H. injection H as <-.
    vm_compute in Hz. destruct Hz as [Hz _]. discriminate Hz.
  - intros (z & H & Hz). vm_compute in H. injection H as <-.
    vm_compute in Hz. destruct Hz as [Hz _]. discriminate Hz.
Defined.

(** X25.  With [--force] every job that gets to the conversion (the file
    can be read, the date is a valid time value) converts again, outputs
    on disk or not: after the container-time query, if the resolution
    makes one, its first call is the full-size conversion of the picture,
    or the transcode of the video. *)
Theorem force_converts_again T NOW ff idx f w :
  readable T f w = true ->
  validTime (r_ts (resolve NOW ff idx f)) = true ->
  isImage (abs f) || isVideo (abs f) = true ->
  exists ev rest,
    trace (task T true NOW ff idx f w).2
    = trace w ++ timeQuery NOW ff idx f ++ ev :: rest /\
    firstConversion f ev /\ isConversion ev = true.
Proof.
  intros Hread Hvalid Hmedia. rewrite task_eq, Hread. unfold convert.
  rewrite Hvalid. change (negb true) with false. cbv iota.
  unfold mbind, M_bind, bind, ret.
  assert (Hq : forall new : list event,
            trace (queried NOW ff idx f w) ++ new
            = trace w ++ timeQuery NOW ff idx f ++ new)
    by (intros new; unfold queried; simpl; by rewrite app_assoc).
  destruct (isImage (abs f)) eqn:Himg.
  - destruct (processImage_cases T true (abs f) (imgFull (fid f)) (imgThumb (fid f))
                (queried NOW ff idx f w))
      as (ok & w' & new & logs & E & [Xt _] & H).
    rewrite E. simpl. rewrite Xt, Hq.
    destruct H as [(Hf & _)|(_ & [(_ & _ & -> & _)|[(e & _ & _ & -> & _)|(e & _ & _ & -> & _)]])];
      [discriminate Hf| | |];
      eexists _, _; (split; [reflexivity|]); (split; [|reflexivity]);
      left; (split; [exact Himg|]); by eexists.
  - simpl in Hmedia. rewrite Hmedia.
    assert (Hpv : forall w0,
              processVideo T true (abs f) (vidMp4 (fid f)) (vidPoster (fid f)) w0
              = let '(made, w1) := videoChain T (abs f) (vidMp4 (fid f)) w0 in
                if made
                then (true, (posterStep T (abs f) (vidMp4 (fid f))
                               (vidPoster (fid f)) w1).2)
                else (false, w1)).
    { intros w0. unfold processVideo, mbind, M_bind, bind, ret, existsSync. simpl.
      destruct (videoChain T (abs f) (vidMp4 (fid f)) w0) as [[] w1]; simpl;
        [|reflexivity].
      by destruct (posterStep T (abs f) (vidMp4 (fid f)) (vidPoster (fid f)) w1)
        as [[] w2]. }
    rewrite Hpv. clear Hpv.
    destruct (videoChain_outcome T (abs f) (vidMp4 (fid f)) (queried NOW ff idx f w))
      as (ok & w1 & n1 & l1 & E1 & [Xt1 _] & C1 & _ & _).
    rewrite E1.
    assert (Hn1 : exists r rest, n1 = Ran (CallTranscode (abs f) (vidMp4 (fid f))) r :: rest).
    { inversion C1; subst; eauto. }
    destruct Hn1 as (r & rest & ->).
    destruct ok; simpl.
    + destruct (posterStep_spec T (abs f) (vidMp4 (fid f)) (vidPoster (fid f)) w1)
        as (w2 & n2 & l2 & E2 & [Xt2 _] & _).
      rewrite E2. simpl. rewrite Xt2, Xt1, <- app_assoc, Hq. simpl.
      eexists _, _. split; [reflexivity|]. split; [|reflexivity].
      right. split; [exact Himg|]. by eexists.
    + rewrite Xt1, Hq. eexists _, _. split; [reflexivity|].
      split; [|reflexivity]. right. split; [exact Himg|]. by eexists.
Qed.

(** X25, for the sample reel with its outputs on disk: the query of the
    container time, then the transcode. *)
Lemma force_converts_again_witness :
  exists ev rest,
    trace (task Sample.working true Sample.NOW true Sample.index Sample.reel
             {| disk := {[vidMp4 (fid Sample.reel); vidPoster (fid Sample.reel)]};
                trace := []; skipLog := [] |}).2
    = trace {| disk := {[vidMp4 (fid Sample.reel); vidPoster (fid Sample.reel)]};
               trace := []; skipLog := [] |}
      ++ timeQuery Sample.NOW true Sample.index Sample.reel ++ ev :: rest /\
    firstConversion Sample.reel ev /\ isConversion ev = true.
Proof.
  apply force_converts_again; vm_compute; reflexivity.
Defined.

(** X26.  In [ingest-posts.js] a video has no fallback: it is kept exactly
    when it is skipped (FORCE off, both outputs on disk) or the transcode
    and then the poster extraction from the transcoded file both exit
    with 0.  A poster that fails excludes the video although its mp4 was
    written, and nothing goes to a skip log. *)
Theorem posts_video_needs_poster T FORCE src outMp4 outPoster w :
  exists ok w' new,
    PostsIO.processVideo T FORCE src outMp4 outPoster w = (ok, w') /\
    extends w w' new [] /\
    ((FORCE = false /\ outMp4 ∈ disk w /\ outPoster ∈ disk w /\
      ok = true /\ w' = w /\ new = []) \/
     ((FORCE = true \/ outMp4 ∉ disk w \/ outPoster ∉ disk w) /\
      ((ok = true /\
        new = [Ran (CallTranscode src outMp4) Exit0;
               Ran (CallPoster outMp4 outPoster) Exit0]) \/
       (exists r, r <> Exit0 /\ ok = false /\
          new = [Ran (CallTranscode src outMp4) r] /\ disk w' = disk w) \/
       (exists r, r <> Exit0 /\ ok = false /\
          new = [Ran (CallTranscode src outMp4) Exit0;
                 Ran (CallPoster outMp4 outPoster) r] /\
          outMp4 ∈ disk w')))).
Proof.
  unfold PostsIO.processVideo, mbind, M_bind, bind, existsSync.
  destruct (negb FORCE && bool_decide (outMp4 ∈ disk w)
            && bool_decide (outPoster ∈ disk w)) eqn:Eskip.
  - apply andb_true_iff in Eskip as [Eskip H3].
    apply andb_true_iff in Eskip as [H1 H2].
    apply negb_true_iff in H1. apply bool_decide_eq_true in H2, H3.
    exists true, w, []. split; [reflexivity|]. split; [apply extends_refl|].
    left. repeat split; auto.
  - assert (Hno : FORCE = true \/ outMp4 ∉ disk w \/ outPoster ∉ disk w).
    { rewrite !andb_false_iff, negb_false_iff, !bool_decide_eq_false in Eskip.
      tauto. }
    run_io.
    destruct (run T (trace w) (CallTranscode src outMp4)) eqn:R1; simpl;
      [destruct (run T (trace w ++ _) (CallPoster outMp4 outPoster)) eqn:R2; simpl|..];
      eexists _, _, _; (split; [reflexivity|]); (split; [solve_extends|]);
      right; (split; [exact Hno|]).
    + left. auto.
    + right. right. eexists. split; [|split; [reflexivity|split; [reflexivity|]]].
      * discriminate.
      * simpl. apply elem_of_union. left. by apply elem_of_singleton.
    + right. right. eexists. split; [|split; [reflexivity|split; [reflexivity|]]].
      * discriminate.
      * simpl. apply elem_of_union. left. by apply elem_of_singleton.
    + right. left. eexists. split; [|auto]. discriminate.
    + right. left. eexists. split; [|auto]. discriminate.
Qed.
